(** * literal-hell: the escape policy engine, the idempotency detector,
      the rejection memory, the review loop and the line patcher of
      [src/index.js]

    JavaScript strings are sequences of code units; every operation the
    program uses on them ([includes], [startsWith], [indexOf], [substring],
    [split], [replace] with a character class) works code unit by code unit.
    A string is a [list ascii] here, that is, a sequence of code units below
    256; the managed characters and the entity names all are ASCII, and no
    function treats a code unit above 127 in a way of its own but [trim] and
    [toLowerCase], which are given for the code units below 256.

    The global variables of the program ([rejectedFixes], [fileModTimes]),
    the disk and the console are the fields of a state that the functions
    pass on. The keys of the user and what other programs do to the file
    while the program waits are inputs of the review loop. The parser is
    outside: the visitors take the paths it would give, [processFile] takes
    the candidates the traversal collects, and [processParsedFile] runs the
    traversal on the nodes of the parsed file and then [processFile]. Line
    numbers are counted from 1 and columns from 0, as the parser does.

    The modules of [src/lib] hold the functions of [src/index.js] in parts.
    Those that [src/index.js] does not have, or has in another form, come
    after it: the rejection memory of [lib/fixes.js], the reading with a
    size check and the write with verification of [lib/file.js], the
    candidates made from the errors of the linter in [lib/eslint.js], and
    the traversal of [lib/ast.js]. *)

From Stdlib Require Import Ascii String ZArith Lia.

From stdpp Require Import base list strings gmap sorting pretty.

Open Scope char_scope.

Open Scope list_scope.

Abbreviation jsstring := (list ascii).

(** A string literal of the source. *)
Definition js (s : string) : jsstring := list_ascii_of_string s.

Arguments js _%_string.

(** The double quote character, code 34. *)
Definition dq : ascii := "034".

(** Comparisons of two known characters compute; a comparison with an
    unknown character stays as it is. *)
Arguments Ascii.eqb !_ !_ : simpl nomatch.

(** * The program *)

(** ** String.prototype operations *)

Module Str.

(** [s.startsWith(p)] *)
Fixpoint startsWith (s p : jsstring) {struct p} : bool :=
  match p with
  | [] => true
  | c :: p' =>
      match s with
      | [] => false
      | d :: s' => Ascii.eqb c d && startsWith s' p'
      end
  end.

(** [s.endsWith(p)] *)
Definition endsWith (s p : jsstring) : bool :=
  startsWith (rev s) (rev p).

(** [s.includes(t)] *)
Fixpoint includes (s t : jsstring) : bool :=
  startsWith s t ||
  match s with
  | [] => false
  | _ :: s' => includes s' t
  end.

(** First match of [t] in [s], where [s] is the part of the string that
    starts at index [i]. *)
Fixpoint search (t s : jsstring) (i : nat) : option nat :=
  if startsWith s t then Some i
  else match s with
       | [] => None
       | _ :: s' => search t s' (S i)
       end.

(** [s.indexOf(t, pos)]; [None] is the result -1. The position is clamped
    to the length of the string. *)
Definition indexOf (s t : jsstring) (pos : nat) : option nat :=
  let p := Nat.min pos (length s) in
  search t (drop p s) p.

(** [s.lastIndexOf(t, pos)]: the last match that starts at an index
    [<= pos]. *)
Fixpoint lastIndexOf_go (t s : jsstring) (i : nat) (fuel : nat) (last : option nat)
  : option nat :=
  let last' := if startsWith s t then Some i else last in
  match fuel with
  | O => last'
  | S fuel' =>
      match s with
      | [] => last'
      | _ :: s' => lastIndexOf_go t s' (S i) fuel' last'
      end
  end.

Definition lastIndexOf (s t : jsstring) (pos : nat) : option nat :=
  lastIndexOf_go t s 0 pos None.

(** [s.substring(a, b)] for [0 <= a], [0 <= b]: the arguments are clamped
    to the length and swapped when [a > b]. *)
Definition substring (s : jsstring) (a b : nat) : jsstring :=
  let a' := Nat.min a (length s) in
  let b' := Nat.min b (length s) in
  take (Nat.max a' b' - Nat.min a' b') (drop (Nat.min a' b') s).

(** [s.substring(a)] *)
Definition substring_from (s : jsstring) (a : nat) : jsstring := drop a s.

(** [s.split('\n')]: never empty, the empty string gives one empty line. *)
Fixpoint split (sep : ascii) (s : jsstring) : list jsstring :=
  match s with
  | [] => [[]]
  | c :: s' =>
      if Ascii.eqb c sep then [] :: split sep s'
      else match split sep s' with
           | [] => [[c]]
           | l :: ls => (c :: l) :: ls
           end
  end.

(** [lines.join('\n')] *)
Fixpoint join (sep : ascii) (ls : list jsstring) : jsstring :=
  match ls with
  | [] => []
  | [l] => l
  | l :: ls' => l ++ sep :: join sep ls'
  end.

(** [s.replace(/[class]/g, cb)] where the callback also updates a state
    (the source's callbacks push the matched character on an array). *)
Fixpoint replace {St : Type} (cls : ascii → bool)
    (cb : ascii → St → jsstring * St) (s : jsstring) (st : St) : jsstring * St :=
  match s with
  | [] => ([], st)
  | c :: s' =>
      if cls c then
        let '(r, st1) := cb c st in
        let '(out, st2) := replace cls cb s' st1 in
        (r ++ out, st2)
      else
        let '(out, st2) := replace cls cb s' st in
        (c :: out, st2)
  end.

(** [s.replace(/c/g, r)] for one character [c] and a fixed replacement. *)
Fixpoint replaceChar (c : ascii) (r : jsstring) (s : jsstring) : jsstring :=
  match s with
  | [] => []
  | d :: s' => if Ascii.eqb d c then r ++ replaceChar c r s' else d :: replaceChar c r s'
  end.

(** White space of [trim] among the code units below 256. *)
Definition isSpace (c : ascii) : bool :=
  let n := nat_of_ascii c in
  (Nat.leb 9 n && Nat.leb n 13) || Nat.eqb n 32 || Nat.eqb n 160.

Fixpoint trimStart (s : jsstring) : jsstring :=
  match s with
  | [] => []
  | c :: s' => if isSpace c then trimStart s' else s
  end.

(** [s.trim()] *)
Definition trim (s : jsstring) : jsstring := rev (trimStart (rev (trimStart s))).

End Str.

(** [[...new Set(array)]]: the distinct elements in the order of their
    first occurrence. *)
Definition Set_add (seen : list ascii) (c : ascii) : list ascii :=
  if bool_decide (c ∈ seen) then seen else seen ++ [c].

Definition Set_of (l : list ascii) : list ascii := foldl Set_add [] l.

(** ** Escape policy engine *)

(** The table [ESCAPES]; [None] is a missing property. *)
Definition ESCAPES (c : ascii) : option jsstring :=
  if Ascii.eqb c dq then Some (js "&quot;")
  else if Ascii.eqb c "'" then Some (js "&apos;")
  else if Ascii.eqb c "&" then Some (js "&amp;")
  else if Ascii.eqb c "<" then Some (js "&lt;")
  else if Ascii.eqb c ">" then Some (js "&gt;")
  else None.

(** What the replacement callbacks return: [ESCAPES[c]], the string
    "undefined" for a missing property. *)
Definition ESCAPES_get (c : ascii) : jsstring :=
  match ESCAPES c with
  | Some e => e
  | None => js "undefined"
  end.

(** [shouldExcludeFromEscaping(str)]; [strictMode] is the global flag. *)
Definition shouldExcludeFromEscaping (strictMode : bool) (str : jsstring) : bool :=
  if strictMode then false
  else if Str.includes str (js "?") && Str.includes str (js "&")
          && negb (Str.includes str (js " ")) then true
  else if Str.startsWith str (js "&") && Str.includes str (js "=")
          && negb (Str.includes str (js " ")) then true
  else if Str.startsWith str (js "&") && Str.includes str (js ":") then true
  else if bool_decide (str = js "&") || bool_decide (str = js ">>")
          || bool_decide (str = js "&&") then true
  else false.

(** The alternation [(quot|apos|amp|lt|gt)] of [entityRegex]. *)
Definition entityNames : list jsstring :=
  [js "quot"; js "apos"; js "amp"; js "lt"; js "gt"].

(** The alternation [(quot|apos|lt|gt)] of [doubleEscapedRegex]. *)
Definition doubleEscapedNames : list jsstring :=
  [js "quot"; js "apos"; js "lt"; js "gt"].

(** [\d] *)
Definition isDigit (c : ascii) : bool :=
  let n := nat_of_ascii c in Nat.leb 48 n && Nat.leb n 57.

Fixpoint skipDigits (s : jsstring) : jsstring :=
  match s with
  | [] => []
  | c :: s' => if isDigit c then skipDigits s' else s
  end.

(** [/&#(\d+);/] matched at the start of [s]. *)
Definition numericEntityAt (s : jsstring) : bool :=
  match s with
  | a :: h :: d :: s' =>
      Ascii.eqb a "&" && Ascii.eqb h "#" && isDigit d
      && Str.startsWith (skipDigits s') (js ";")
  | _ => false
  end.

Fixpoint numericEntityRegex_test (s : jsstring) : bool :=
  numericEntityAt s ||
  match s with
  | [] => false
  | _ :: s' => numericEntityRegex_test s'
  end.

(** [/&(quot|apos|amp|lt|gt);/.test(s)] *)
Definition entityRegex_test (s : jsstring) : bool :=
  existsb (λ n, Str.includes s (js "&" ++ n ++ js ";")) entityNames.

(** [/&amp;(quot|apos|lt|gt);/.test(s)] *)
Definition doubleEscapedRegex_test (s : jsstring) : bool :=
  existsb (λ n, Str.includes s (js "&amp;" ++ n ++ js ";")) doubleEscapedNames.

(** [containsHtmlEntities(str)]. The three regular expressions are created
    by each call, so every [test] starts at index 0. *)
Definition containsHtmlEntities (str : jsstring) : bool :=
  entityRegex_test str || doubleEscapedRegex_test str || numericEntityRegex_test str.

(** What [escapeString] returns: the string it was given, or an object. *)
Inductive EscapeResult : Type :=
  | RetString (str : jsstring)
  | RetObject (result : jsstring) (escapedChars : list ascii).

(** The character classes [/[\"']/] and [/[\"'&<>]/]. *)
Definition quoteClass (c : ascii) : bool :=
  Ascii.eqb c dq || Ascii.eqb c "'".

Definition managedClass (c : ascii) : bool :=
  Ascii.eqb c dq || Ascii.eqb c "'" || Ascii.eqb c "&"
  || Ascii.eqb c "<" || Ascii.eqb c ">".

(** The callback [c => { charactersToEscape.push(c); return ESCAPES[c]; }]. *)
Definition pushAndEscape (c : ascii) (charactersToEscape : list ascii)
  : jsstring * list ascii :=
  (ESCAPES_get c, charactersToEscape ++ [c]).

(** [escapeString(str)] *)
Definition escapeString (strictMode : bool) (str : jsstring) : EscapeResult :=
  if shouldExcludeFromEscaping strictMode str then RetString str
  else if containsHtmlEntities str then RetString str
  else if Str.includes str (js "<") || Str.includes str (js ">") then
    let '(escaped, charactersToEscape) := Str.replace quoteClass pushAndEscape str [] in
    RetObject escaped (Set_of charactersToEscape)
  else
    let '(escaped, charactersToEscape) := Str.replace managedClass pushAndEscape str [] in
    RetObject escaped (Set_of charactersToEscape).

(** ** Auto-skip patterns *)

(** [[A-Za-z-]] *)
Definition isFontNameChar (c : ascii) : bool :=
  let n := nat_of_ascii c in
  (Nat.leb 65 n && Nat.leb n 90) || (Nat.leb 97 n && Nat.leb n 122) || Ascii.eqb c "-".

(** [str.match(/^[A-Za-z-]+$/)] as a truth value. *)
Definition fontNameRegex_match (str : jsstring) : bool :=
  match str with
  | [] => false
  | _ :: _ => forallb isFontNameChar str
  end.

(** [str.match(/^&[.#[]/)] as a truth value. *)
Definition selectorRegex_match (str : jsstring) : bool :=
  match str with
  | a :: c :: _ =>
      Ascii.eqb a "&" && (Ascii.eqb c "." || Ascii.eqb c "#" || Ascii.eqb c "[")
  | _ => false
  end.

(** [array[line - 1]] for a line number; [None] is [undefined]. *)
Definition lineAt {A : Type} (lines : list A) (line : nat) : option A :=
  match line with
  | O => None
  | S i => lines !! i
  end.

(** [isAutoSkipPattern(str, filePath, line, column)]: [None] is the result
    [false], [Some reason] the object with that reason. *)
Definition isAutoSkipPattern (strictMode : bool) (str filePath : jsstring)
    (line column : nat) : option jsstring :=
  if strictMode then None
  else if Str.startsWith str (js "&")
          && (Str.includes str (js " ") || Str.includes str (js "[")
              || Str.includes str (js ":"))
  then Some (js "CSS selector pattern")
  else if Str.endsWith filePath (js ".css") || Str.endsWith filePath (js ".scss")
          || Str.endsWith filePath (js ".less") || Str.endsWith filePath (js ".styl")
  then Some (js "CSS file content")
  else if (Str.startsWith str (js "&") || Str.includes str (js " &"))
          && (Str.includes filePath (js "style") || Str.includes filePath (js "Style")
              || Str.includes filePath (js ".css") || Str.includes filePath (js ".scss"))
  then Some (js "Likely CSS-in-JS pattern")
  else if (Str.includes str (js "system") || Str.includes str (js "serif")
           || Str.includes str (js "sans-serif") || Str.includes str (js "monospace")
           || Str.includes str (js "Roboto") || Str.includes str (js "Arial")
           || Str.includes str (js "Helvetica") || Str.includes str (js "font")
           || Str.includes str (js "Font"))
          && (Str.includes str (js ",") || fontNameRegex_match str)
  then Some (js "Font family declaration")
  else if Str.includes str (js "&")
          && (Str.includes str (js "query") || Str.includes str (js "filter")
              || Str.includes str (js "param"))
  then Some (js "Query parameter pattern")
  else if selectorRegex_match str || Str.startsWith str (js "&:")
          || Str.startsWith str (js "&>") || Str.includes str (js " & ")
  then Some (js "CSS selector pattern (enhanced detection)")
  else
    let lineContext := default [] (lineAt (Str.split "010" filePath) line) in
    if (Str.includes lineContext (js "style") || Str.includes lineContext (js "Style")
        || Str.includes lineContext (js "className") || Str.includes lineContext (js "css"))
       && (Str.includes lineContext (js ":") || Str.includes lineContext (js "="))
       && (Str.includes str (js "-") || Str.includes str (js " ")
           || Str.includes str (js ","))
    then Some (js "CSS property value")
    else None.

(** ** Idempotency detector *)

(** The line feed, code 10. *)
Definition LF : ascii := "010".

(** [array.slice(a, b)] for [0 <= a], [0 <= b]. *)
Definition slice {A : Type} (l : list A) (a b : nat) : list A :=
  take (b - a) (drop a l).

(** [toLowerCase] on the code units below 256: the letters A to Z and the
    capital letters from code 192 to 222, the multiplication sign apart. *)
Definition toLowerChar (c : ascii) : ascii :=
  let n := nat_of_ascii c in
  if (Nat.leb 65 n && Nat.leb n 90)
     || (Nat.leb 192 n && Nat.leb n 222 && negb (Nat.eqb n 215))
  then ascii_of_nat (n + 32) else c.

Definition toLowerCase (s : jsstring) : jsstring := map toLowerChar s.

(** [s.replace(/token/g, '')] for a token that is not empty: the matches
    are found from the left and do not overlap; [skip] characters of a
    match already found are dropped. *)
Fixpoint removeToken_go (tok : jsstring) (skip : nat) (s : jsstring) : jsstring :=
  match s with
  | [] => []
  | c :: s' =>
      match skip with
      | S k => removeToken_go tok k s'
      | O =>
          if Str.startsWith s tok then removeToken_go tok (length tok - 1) s'
          else c :: removeToken_go tok 0 s'
      end
  end.

Definition removeToken (tok s : jsstring) : jsstring := removeToken_go tok 0 s.

(** [(s.match(/token/g) || []).length]: the matches from the left that do
    not overlap. *)
Fixpoint countMatches_go (tok : jsstring) (skip : nat) (s : jsstring) : nat :=
  match s with
  | [] => 0
  | c :: s' =>
      match skip with
      | S k => countMatches_go tok k s'
      | O =>
          if Str.startsWith s tok then S (countMatches_go tok (length tok - 1) s')
          else countMatches_go tok 0 s'
      end
  end.

Definition countMatches (tok s : jsstring) : nat := countMatches_go tok 0 s.

(** [(s.match(/c/g) || []).length] for one character [c]: the number of
    its occurrences. *)
Fixpoint countChar (c : ascii) (s : jsstring) : nat :=
  match s with
  | [] => 0
  | d :: s' => (if Ascii.eqb d c then 1 else 0) + countChar c s'
  end.

(** The indices at which [c] stands in [s], counted from [i]. *)
Fixpoint indicesOf (c : ascii) (s : jsstring) (i : nat) : list nat :=
  match s with
  | [] => []
  | d :: s' => if Ascii.eqb d c then i :: indicesOf c s' (S i) else indicesOf c s' (S i)
  end.

(** What [isAlreadyEscapedInLineWindow] returns: the value [false], or an
    object with the property [matched]. *)
Inductive WindowCheck : Type :=
  | WFalse
  | WMatched (confidence reason : jsstring)
  | WNotMatched
  | WError.

(** The truth value of [result.matched]; the value [false] has no such
    property. *)
Definition matched (r : WindowCheck) : bool :=
  match r with
  | WMatched _ _ => true
  | _ => false
  end.

Section Detector.

(** [fs.readFileSync(path, 'utf8')]; [None] when it throws. *)
Variable readFileSync : jsstring → option jsstring.

(** [isAlreadyEscapedInLineWindow(filePath, lineNumber, originalString)] *)
Definition isAlreadyEscapedInLineWindow (filePath : jsstring) (lineNumber : nat)
    (originalString : jsstring) : WindowCheck :=
  if negb (Str.includes originalString (js "'"))
     && negb (Str.includes originalString [dq])
  then WFalse
  else
    match readFileSync filePath with
    | None => WError
    | Some fileContent =>
        let lines := Str.split LF fileContent in
        let escapedString :=
          Str.replaceChar dq (js "&quot;")
            (Str.replaceChar "'" (js "&apos;") originalString) in
        (* windowStart = max(0, lineNumber - 11); [windowStop] is
           windowEnd + 1 = min(lines.length, lineNumber + 10) *)
        let windowStart := lineNumber - 11 in
        let windowStop := Nat.min (length lines) (lineNumber + 10) in
        let window := slice lines windowStart windowStop in
        if existsb (λ line, Str.includes line escapedString) window
        then WMatched (js "high") (js "exact_match")
        else
          let windowText := Str.join LF window in
          if Str.includes originalString (js "'")
             && Str.includes originalString [LF]
             && Nat.leb (countChar "'" originalString)
                        (countMatches (js "&apos;") windowText)
             && (let strippedOriginal :=
                   toLowerCase (Str.replaceChar "'" [] originalString) in
                 let strippedWindow :=
                   toLowerCase (removeToken (js "&apos;") windowText) in
                 Str.includes strippedWindow (Str.substring strippedOriginal 0 20)
                 && Str.includes strippedWindow
                      (Str.substring_from strippedOriginal
                         (length strippedOriginal - 20)))
          then WMatched (js "medium") (js "content_similarity")
          else
            let apostropheIndices := indicesOf "'" originalString 0 in
            if Str.includes originalString (js "'")
               && forallb
                    (λ idx,
                       let before := Str.substring originalString (idx - 10) idx in
                       let after :=
                         Str.substring originalString (idx + 1)
                           (Nat.min (length originalString) (idx + 11)) in
                       Str.includes windowText (before ++ js "&apos;" ++ after))
                    apostropheIndices
               && Nat.ltb 0 (length apostropheIndices)
            then WMatched (js "medium") (js "context_pattern")
            else WNotMatched
    end.

End Detector.

(** ** Candidates and the literal patch of [processFile] *)

(** [loc.start] of a node: a line counted from 1 and a column counted
    from 0. *)
Record Position : Type := { line : nat; column : nat }.

Inductive FixType : Type := information | fix_.

(** An entry of [stringFixes]. An entry of type ['information'] has a
    message, the original text and the location; an entry of type ['fix']
    has the escaped text and the changed characters, and for text in markup
    ([isJsx]) the raw value of the node. *)
Record StringFix : Type := {
  type : FixType;
  message : jsstring;
  original : jsstring;
  escaped : jsstring;
  escapedChars : list ascii;
  loc_start : Position;
  isJsx : bool;
  rawValue : jsstring
}.

(** The comparison function given to [stringFixes.sort]. *)
Definition compareFixes (a b : StringFix) : Z :=
  if negb (Nat.eqb (line (loc_start b)) (line (loc_start a)))
  then Z.of_nat (line (loc_start b)) - Z.of_nat (line (loc_start a))
  else Z.of_nat (column (loc_start b)) - Z.of_nat (column (loc_start a)).

(** [Array.prototype.sort] with a comparison function: a stable sort; an
    element stays before the elements it does not compare greater than. *)
Fixpoint sortInsert {A : Type} (cmp : A → A → Z) (x : A) (l : list A) : list A :=
  match l with
  | [] => [x]
  | y :: l' => if Z.leb (cmp x y) 0 then x :: l else y :: sortInsert cmp x l'
  end.

Definition Array_sort {A : Type} (cmp : A → A → Z) (l : list A) : list A :=
  foldr (sortInsert cmp) [] l.

(** What the literal branch did. *)
Inductive PatchOutcome : Type :=
  | Replaced          (* the line was rewritten, [changed = true] *)
  | Mismatch          (* the warning on the string content *)
  | NoClosingQuote    (* [closingQuotePos > stringStart] fails, nothing is done *)
  | Threw.            (* [targetLine] is undefined: a TypeError, caught by the loop *)

(** The literal branch on the target line: the new line when the content
    between the quotes is the expected original. [targetLine[column]] is
    [undefined] past the end of the line, and [indexOf] then searches the
    text "undefined". *)
Definition patchLine (targetLine : jsstring) (column : nat)
    (original escaped : jsstring) : jsstring * PatchOutcome :=
  let quoteChar :=
    match targetLine !! column with
    | Some q => [q]
    | None => js "undefined"
    end in
  let stringStart := column + 1 in
  match Str.indexOf targetLine quoteChar stringStart with
  | None => (targetLine, NoClosingQuote)
  | Some closingQuotePos =>
      if Nat.ltb stringStart closingQuotePos then
        let stringContent := Str.substring targetLine stringStart closingQuotePos in
        if bool_decide (stringContent = original) then
          (Str.substring targetLine 0 stringStart ++ escaped
             ++ Str.substring_from targetLine closingQuotePos, Replaced)
        else (targetLine, Mismatch)
      else (targetLine, NoClosingQuote)
  end.

(** The literal branch of the apply decision, on the array [fileLines]. *)
Definition applyLiteralFix (fileLines : list jsstring) (fx : StringFix)
  : list jsstring * PatchOutcome :=
  match lineAt fileLines (line (loc_start fx)) with
  | None => (fileLines, Threw)
  | Some targetLine =>
      match patchLine targetLine (column (loc_start fx)) (original fx) (escaped fx) with
      | (newLine, Replaced) =>
          (<[line (loc_start fx) - 1 := newLine]> fileLines, Replaced)
      | (_, outcome) => (fileLines, outcome)
      end
  end.

(** ** Rejection memory and the state of a run *)

(** [createFixKey(filePath, line, column, original)]: the template string
    [`${filePath}:${line}:${column}:${original}`]. *)
Definition createFixKey (filePath : jsstring) (line column : nat)
    (original : jsstring) : jsstring :=
  filePath ++ js ":" ++ js (pretty line) ++ js ":" ++ js (pretty column)
  ++ js ":" ++ original.

(** A value of the object [rejectedFixes]. *)
Record RejectedFix : Type := {
  r_filePath : jsstring;
  r_line : nat;
  r_column : nat;
  r_original : jsstring;
  r_autoSkipped : bool;
  r_reason : option jsstring;
  r_timestamp : N
}.

(** A file on disk: its text and its modification time. The time is only
    compared and tested for being zero. *)
Record File : Type := { content : jsstring; mtimeMs : N }.

(** What the run writes on the console, as far as the properties need it. *)
Inductive Event : Type :=
  | Presented (fixKey : jsstring)       (* location, original and escaped text shown *)
  | ShowedContext
  | Informed (message : jsstring)
  | SkippedRejected (fixKey : jsstring)
  | WarnedModified                     (* the file has been modified since ... *)
  | WarnedAborting                     (* ... Aborting processing of this file. *)
  | AppliedLiteral (outcome : PatchOutcome)
  | AppliedJsx (replaced : bool)
  | SkippedJsxWithTags
  | WroteFile (text : jsstring)
  | RefusedCorrupted
  | VerifiedSize (size : nat)
  | SkippedTooLarge
  | LoggedError
  | LoggedNoChanges.

(** The global variables of the program, the disk and the console. The
    rejection store on disk is kept as the object its JSON text encodes. *)
Record State : Type := {
  disk : gmap jsstring File;
  clock : N;
  rejectedFixes : gmap jsstring RejectedFix;
  fileModTimes : gmap jsstring N;
  wards : option (gmap jsstring RejectedFix);
  console : list Event
}.

Definition setDisk (d : gmap jsstring File) (c : N) (st : State) : State :=
  {| disk := d; clock := c; rejectedFixes := rejectedFixes st;
     fileModTimes := fileModTimes st; wards := wards st; console := console st |}.

Definition setRejectedFixes (r : gmap jsstring RejectedFix) (st : State) : State :=
  {| disk := disk st; clock := clock st; rejectedFixes := r;
     fileModTimes := fileModTimes st; wards := wards st; console := console st |}.

Definition setFileModTimes (t : gmap jsstring N) (st : State) : State :=
  {| disk := disk st; clock := clock st; rejectedFixes := rejectedFixes st;
     fileModTimes := t; wards := wards st; console := console st |}.

Definition setWards (w : option (gmap jsstring RejectedFix)) (st : State) : State :=
  {| disk := disk st; clock := clock st; rejectedFixes := rejectedFixes st;
     fileModTimes := fileModTimes st; wards := w; console := console st |}.

Definition say (e : Event) (st : State) : State :=
  {| disk := disk st; clock := clock st; rejectedFixes := rejectedFixes st;
     fileModTimes := fileModTimes st; wards := wards st;
     console := console st ++ [e] |}.

(** [fs.statSync(path).mtimeMs]; [None] when it throws. *)
Definition statSync_mtimeMs (st : State) (path : jsstring) : option N :=
  mtimeMs <$> disk st !! path.

(** [fs.readFileSync(path, 'utf8')]; [None] when it throws. *)
Definition readFileSync (st : State) (path : jsstring) : option jsstring :=
  content <$> disk st !! path.

(** [fs.statSync(path).size]: the bytes of the text in UTF-8, one for a
    code unit below 128 and two for the others below 256. *)
Definition utf8Length (text : jsstring) : N :=
  foldr (λ c n, ((if N.ltb (N_of_ascii c) 128 then 1 else 2) + n)%N) 0%N text.

Definition MAX_FILE_SIZE : N := 1024 * 1024.

(** [fs.writeFileSync(path, text, 'utf8')]: the file gets the text and the
    time of the clock. *)
Definition writeFileSync (path text : jsstring) (st : State) : State :=
  setDisk (<[path := {| content := text; mtimeMs := clock st |}]> (disk st))
          (clock st + 1) st.

(** Another program leaves the file in the state [f]. *)
Definition externalWrite (path : jsstring) (f : option File) (st : State) : State :=
  match f with
  | None => st
  | Some f => setDisk (<[path := f]> (disk st)) (clock st) st
  end.

(** [loadRejectedFixes()] on a store that is absent or well formed. *)
Definition loadRejectedFixes (st : State) : State :=
  match wards st with
  | Some r => setRejectedFixes r st
  | None => st
  end.

(** [saveRejectedFixes()] *)
Definition saveRejectedFixes (st : State) : State :=
  setWards (Some (rejectedFixes st)) st.

(** [rejectedFixes[fixKey]] as a truth value. The values are objects, and
    a key holds colons, so it names no property of [Object.prototype]. *)
Definition isRejected (st : State) (fixKey : jsstring) : bool :=
  bool_decide (is_Some (rejectedFixes st !! fixKey)).

(** [checkFileModification(filePath)]. The paths come from the patterns
    of the main function and end in [.js], [.ts], [.jsx] or [.tsx]: none
    of them names a property of [Object.prototype], so a path that was not
    set reads as [undefined] in the object [fileModTimes]. *)
Definition checkFileModification (filePath : jsstring) (st : State) : bool * State :=
  match statSync_mtimeMs st filePath with
  | None => (false, say LoggedError st)
  | Some currentModTime =>
      let recorded := default 0%N (fileModTimes st !! filePath) in
      if negb (N.eqb recorded 0) && negb (N.eqb recorded currentModTime)
      then (true, say WarnedModified st)
      else (false, setFileModTimes (<[filePath := currentModTime]> (fileModTimes st)) st)
  end.

(** ** The branches of an apply decision for text in markup *)

(** [isInsideJsxTag(line, position)] *)
Definition isInsideJsxTag (line : jsstring) (position : nat) : bool :=
  match Str.lastIndexOf line (js "<") position with
  | None => false
  | Some lastOpenBracket =>
      match Str.lastIndexOf line (js ">") position with
      | None => true
      | Some lastCloseBracket => Nat.ltb lastCloseBracket lastOpenBracket
      end
  end.

(** The loop [while ((pos = newLine.indexOf("'", pos)) !== -1)] of the
    branch for text on several lines. Every turn passes one apostrophe of
    the line, so [fuel] above their number is never used up. *)
Fixpoint escapeApostrophes_go (fuel : nat) (newLine : jsstring) (pos : nat) : jsstring :=
  match fuel with
  | O => newLine
  | S fuel' =>
      match Str.indexOf newLine (js "'") pos with
      | None => newLine
      | Some p =>
          if isInsideJsxTag newLine p then escapeApostrophes_go fuel' newLine (p + 1)
          else
            let context := Str.substring newLine (p - 5) p in
            if negb (Str.includes context (js "&apos"))
            then escapeApostrophes_go fuel'
                   (Str.substring newLine 0 p ++ js "&apos;"
                    ++ Str.substring_from newLine (p + 1))
                   (p + 6)
            else escapeApostrophes_go fuel' newLine (p + 1)
      end
  end.

Definition escapeApostrophes (fileLine : jsstring) : jsstring :=
  escapeApostrophes_go (S (length fileLine)) fileLine 0.

(** The loop over the lines of the raw value: the array, the flag
    [changed] and the flag [succeeded]. *)
Fixpoint patchJsxLines (lines : list jsstring) (i : nat) (startLine : nat)
    (fileLines : list jsstring) (changed : bool) : list jsstring * bool * bool :=
  match lines with
  | [] => (fileLines, changed, true)
  | l :: rest =>
      let currentLine := Str.trim l in
      if bool_decide (currentLine = []) then
        patchJsxLines rest (S i) startLine fileLines changed
      else
        match lineAt fileLines (startLine + i) with
        | None => (fileLines, changed, false)
        | Some [] => (fileLines, changed, false)
        | Some fileLine =>
            if Str.includes currentLine (js "'") then
              let newLine := escapeApostrophes fileLine in
              if bool_decide (newLine = fileLine) then
                patchJsxLines rest (S i) startLine fileLines changed
              else
                patchJsxLines rest (S i) startLine
                  (<[startLine + i - 1 := newLine]> fileLines) true
            else patchJsxLines rest (S i) startLine fileLines changed
        end
  end.

(** How an apply decision ends: the loop over the candidates goes on, or
    [processFile] returns, or an exception reaches the handler of the
    prompt loop, which logs it and goes on. *)
Inductive Control : Type := GoOn | ReturnNow | Caught.

(** The apply decision for one candidate: the array, the flag [changed],
    what is logged, and how it ends. *)
Definition applyFix (fx : StringFix) (fileLines : list jsstring) (changed : bool)
  : list jsstring * bool * Event * Control :=
  let l := line (loc_start fx) in
  if isJsx fx then
    if Str.includes (original fx) [LF] || Str.includes (rawValue fx) [LF] then
      let '(fileLines', changed', succeeded) :=
        patchJsxLines (Str.split LF (rawValue fx)) 0 l fileLines changed in
      (fileLines', changed', AppliedJsx succeeded, GoOn)
    else
      match lineAt fileLines l with
      | None => (fileLines, changed, LoggedError, Caught)
      | Some targetLine =>
          if Str.includes targetLine (js "<") && Str.includes targetLine (js ">")
          then (fileLines, changed, SkippedJsxWithTags, ReturnNow)
          else
            match Str.indexOf targetLine (original fx) 0 with
            | Some textIndex =>
                let safeEscaped :=
                  fst (Str.replace quoteClass
                         (λ c (_ : unit),
                            (if Ascii.eqb c "'" then js "&apos;"
                             else if Ascii.eqb c dq then js "&quot;" else [c], tt))
                         (original fx) tt) in
                let newLine :=
                  Str.substring targetLine 0 textIndex ++ safeEscaped
                  ++ Str.substring_from targetLine (textIndex + length (original fx)) in
                (<[l - 1 := newLine]> fileLines, true, AppliedJsx true, GoOn)
            | None => (fileLines, changed, AppliedJsx false, GoOn)
            end
      end
  else
    match applyLiteralFix fileLines fx with
    | (fileLines', Replaced) => (fileLines', true, AppliedLiteral Replaced, GoOn)
    | (_, Threw) => (fileLines, changed, LoggedError, Caught)
    | (_, outcome) => (fileLines, changed, AppliedLiteral outcome, GoOn)
    end.

(** ** The review loop of [processFile] *)

(** What [getSingleKeypress] resolves with (Enter counts as [y]), or the
    interrupt key. *)
Inductive Key : Type := KeyY | KeyN | KeyQ | KeyC | CtrlC.

(** The user presses a key at a prompt; while the prompt waited, another
    program may have written the file. *)
Record Input : Type := { external : option File; key : Key }.

(** How [processFile] ends: it returns after the write-back, it returns
    early, the process exits, or it waits for a key that does not come. *)
Inductive Exit : Type := Finished | Returned | Exited | Waiting.

(** The local variables [fileLines] and [changed]. *)
Record Local : Type := { fileLines : list jsstring; changed : bool }.

(** The record that a decline stores. *)
Definition declined (filePath : jsstring) (fx : StringFix) (now : N) : RejectedFix :=
  {| r_filePath := filePath; r_line := line (loc_start fx);
     r_column := column (loc_start fx); r_original := original fx;
     r_autoSkipped := false; r_reason := None; r_timestamp := now |}.

(** How the prompt loop of one candidate ends. *)
Inductive PromptEnd : Type :=
  | NextFix (rest : list Input) (loc : Local) (st : State)
  | Stop (e : Exit) (loc : Local) (st : State).

(** The loop [while (true)] around [getSingleKeypress] for one candidate. *)
Fixpoint promptLoop (filePath : jsstring) (fx : StringFix) (fixKey : jsstring)
    (inputs : list Input) (loc : Local) (st : State) : PromptEnd :=
  match inputs with
  | [] => Stop Waiting loc st
  | i :: rest =>
      let st := externalWrite filePath (external i) st in
      match key i with
      | CtrlC => Stop Exited loc (saveRejectedFixes st)
      | KeyC => promptLoop filePath fx fixKey rest loc (say ShowedContext st)
      | response =>
          let '(modified, st) := checkFileModification filePath st in
          if modified then NextFix rest loc (say WarnedAborting st)
          else
            match response with
            | KeyQ =>
                let st :=
                  if changed loc then
                    let st := writeFileSync filePath (Str.join LF (fileLines loc)) st in
                    match statSync_mtimeMs st filePath with
                    | Some t => setFileModTimes (<[filePath := t]> (fileModTimes st)) st
                    | None => say LoggedError st
                    end
                  else st in
                Stop Exited loc (saveRejectedFixes st)
            | KeyY =>
                let '(fileLines', changed', ev, ctl) :=
                  applyFix fx (fileLines loc) (changed loc) in
                let loc' := {| fileLines := fileLines'; changed := changed' |} in
                match ctl with
                | ReturnNow => Stop Returned loc' (say ev st)
                | _ => NextFix rest loc' (say ev st)
                end
            | _ =>
                NextFix rest loc
                  (setRejectedFixes
                     (<[fixKey := declined filePath fx (clock st)]> (rejectedFixes st)) st)
            end
      end
  end.

(** The loop [for (const fix of stringFixes)]. *)
Fixpoint reviewFixes (filePath : jsstring) (fixes : list StringFix)
    (inputs : list Input) (loc : Local) (st : State) : Exit * Local * State :=
  match fixes with
  | [] => (Finished, loc, st)
  | fx :: rest =>
      match type fx with
      | information =>
          match readFileSync st filePath with
          | None => (Returned, loc, say LoggedError st)
          | Some _ =>
              let st := say (Informed (message fx)) st in
              match inputs with
              | [] => (Waiting, loc, st)
              | i :: inputs' =>
                  let st := externalWrite filePath (external i) st in
                  match key i with
                  | CtrlC => (Exited, loc, st)
                  | _ => reviewFixes filePath rest inputs' loc st
                  end
              end
          end
      | fix_ =>
          let fixKey :=
            createFixKey filePath (line (loc_start fx)) (column (loc_start fx))
              (original fx) in
          if isRejected st fixKey then
            reviewFixes filePath rest inputs loc (say (SkippedRejected fixKey) st)
          else
            match promptLoop filePath fx fixKey inputs loc (say (Presented fixKey) st) with
            | NextFix inputs' loc' st' => reviewFixes filePath rest inputs' loc' st'
            | Stop e loc' st' => (e, loc', st')
            end
      end
  end.

(** The write-back at the end of [processFile]; [racing] is what another
    program writes between the write and the read that follows it. *)
Definition writeBack (filePath : jsstring) (racing : option File)
    (nfixes : nat) (loc : Local) (st : State) : State :=
  if changed loc then
    let fileContent := Str.join LF (fileLines loc) in
    if Str.includes fileContent (js "&amp;lt;") || Str.includes fileContent (js "&amp;gt;")
    then say RefusedCorrupted st
    else
      let st := say (WroteFile fileContent) (writeFileSync filePath fileContent st) in
      let st := externalWrite filePath racing st in
      match readFileSync st filePath with
      | None => say LoggedError st
      | Some newContents =>
          let st := say (VerifiedSize (length newContents)) st in
          match statSync_mtimeMs st filePath with
          | Some t => setFileModTimes (<[filePath := t]> (fileModTimes st)) st
          | None => say LoggedError st
          end
      end
  else if Nat.ltb 0 nfixes then say LoggedNoChanges st
  else st.

(** [processFile(filePath)], with the candidates that the traversal of the
    parsed file collects given as [stringFixes]: the modification time is
    recorded, a file above the size limit is left out, the file is read
    into [fileContent], and the candidates are sorted and reviewed. *)
Definition processFile (filePath : jsstring) (stringFixes : list StringFix)
    (inputs : list Input) (racing : option File) (st : State) : Exit * State :=
  match disk st !! filePath with
  | None => (Returned, say LoggedError st)
  | Some f =>
      let st := setFileModTimes (<[filePath := mtimeMs f]> (fileModTimes st)) st in
      if N.ltb MAX_FILE_SIZE (utf8Length (content f)) then (Returned, say SkippedTooLarge st)
      else
        let fileContent := content f in
        match stringFixes with
        | [] => (Returned, st)
        | _ =>
            let sorted := Array_sort compareFixes stringFixes in
            let loc := {| fileLines := Str.split LF fileContent; changed := false |} in
            match reviewFixes filePath sorted inputs loc st with
            | (Finished, loc', st') =>
                (Finished, writeBack filePath racing (length sorted) loc' st')
            | (e, _, st') => (e, st')
            end
        end
  end.

(** ** The traversal that collects the candidates *)

(** [/<[^>]*'[^>]*>/] matched at the start of [s]: an opening bracket, and
    an apostrophe before the first closing bracket after it. *)
Fixpoint upToClosing (s : jsstring) : option jsstring :=
  match s with
  | [] => None
  | c :: s' =>
      if Ascii.eqb c ">" then Some []
      else match upToClosing s' with
           | Some seg => Some (c :: seg)
           | None => None
           end
  end.

Definition tagPatternAt (s : jsstring) : bool :=
  match s with
  | c :: s' =>
      Ascii.eqb c "<" &&
      match upToClosing s' with
      | Some seg => Str.includes seg (js "'")
      | None => false
      end
  | [] => false
  end.

Fixpoint tagPattern_test (s : jsstring) : bool :=
  tagPatternAt s ||
  match s with
  | [] => false
  | _ :: s' => tagPattern_test s'
  end.

(** [isSafeToEscapeInJsx(original, line)] *)
Definition isSafeToEscapeInJsx (original line : jsstring) : bool :=
  if Str.includes original (js "<") && Str.includes original (js ">") then false
  else if tagPattern_test original || tagPattern_test line then false
  else true.

(** [checkRawFileContent(filePath, line, column, original)], with the file
    as [readFileSync] gives it. *)
Definition checkRawFileContent (read : option jsstring) (line column : nat)
    (original : jsstring) : bool :=
  match read with
  | None => false
  | Some fileContent =>
      let lines := Str.split LF fileContent in
      match lineAt lines line with
      | None => false
      | Some lineContent =>
          if Str.includes lineContent (js "&apos;") || Str.includes lineContent (js "&quot;")
             || Str.includes lineContent (js "&lt;") || Str.includes lineContent (js "&gt;")
          then
            match original with
            | [] => true
            | _ =>
                let escapedVersion :=
                  Str.replaceChar ">" (js "&gt;")
                    (Str.replaceChar "<" (js "&lt;")
                       (Str.replaceChar dq (js "&quot;")
                          (Str.replaceChar "'" (js "&apos;") original))) in
                if Str.includes lineContent escapedVersion then true
                else
                  let surroundingLines :=
                    Str.join LF (slice lines (line - 2) (Nat.min (length lines) (line + 2))) in
                  Str.includes surroundingLines escapedVersion
            end
          else false
      end
  end.

(** [s.substr(start, length)] for [0 <= start]. *)
Definition substr (s : jsstring) (start len : nat) : jsstring :=
  take len (drop start s).

(** [array.slice(line - 1, line - 1 + n)] for a line number: at line 0
    the start [-1] counts from the end of the array, and the end [n - 1]
    from its start. *)
Definition sliceFromLine {A : Type} (l : list A) (line n : nat) : list A :=
  match line with
  | O => slice l (length l - 1) (n - 1)
  | S i => slice l i (i + n)
  end.

(** [isAlreadyFixed(fileContent, line, column, original, escaped)] *)
Definition isAlreadyFixed (fileContent : jsstring) (line column : nat)
    (original escaped : jsstring) : bool :=
  let fileLines := Str.split LF fileContent in
  if Str.includes original [LF] then
    let originalLines := Str.split LF original in
    existsb
      (λ i, match lineAt fileLines (line + i) with
            | Some currentLine => negb (bool_decide (currentLine = []))
                                  && containsHtmlEntities (Str.trim currentLine)
            | None => false
            end)
      (seq 0 (length originalLines))
    || containsHtmlEntities
         (Str.join LF (sliceFromLine fileLines line (length originalLines)))
  else
    match lineAt fileLines line with
    | None => false
    | Some [] => false
    | Some fileLine =>
        Str.includes fileLine escaped
        || containsHtmlEntities (substr fileLine (column - 20) 100)
    end.

(** The node types that [isReactPropValue] looks for. *)
Inductive NodeType : Type := JSXAttribute | ObjectProperty | JSXSpreadAttribute | OtherNode.

(** A path of the traversal: the value and the start of the node, the type
    of its parent and the type of the parent of
    [path.parentPath.parentPath], when there are such. *)
Record NodePath : Type := {
  value : jsstring;
  start : Position;
  parentType : option NodeType;
  ancestorType : option NodeType
}.

(** [isReactPropValue(path)] *)
Definition isReactPropValue (path : NodePath) : bool :=
  match parentType path with
  | Some JSXAttribute => true
  | Some ObjectProperty =>
      match ancestorType path with
      | Some JSXSpreadAttribute => true
      | _ => false
      end
  | _ => false
  end.

(** The record that an auto-skip stores. *)
Definition autoSkipped (filePath : jsstring) (path : NodePath) (orig reason : jsstring)
    (now : N) : RejectedFix :=
  {| r_filePath := filePath; r_line := line (start path);
     r_column := column (start path); r_original := orig;
     r_autoSkipped := true; r_reason := Some reason; r_timestamp := now |}.

(** What a visitor logs when it leaves a node out. *)
Inductive Skip : Type :=
  | NothingToEscape | PropValue | AlreadyEscaped | LikelyEscaped | FixedRaw
  | HasEntities | Unsafe | NoEscapingNeeded | AlreadyFixedInFile | AutoSkip.

(** What a visitor does with a node: it leaves it out, or pushes an entry
    on [stringFixes]. *)
Inductive Visit : Type :=
  | Skipped (why : Skip)
  | Pushed (fx : StringFix).

Section Visitors.

Variable strictMode : bool.

Variable filePath : jsstring.

(** The text read when the file was opened. *)
Variable fileContent : jsstring.

(** The part the two visitors share, from the check of the line window
    on; [isJsxText] tells the visitor, [raw] is the value of the node. *)
Definition visitText (isJsxText : bool) (path : NodePath) (original raw : jsstring)
    (st : State) : Visit * State :=
  let l := line (start path) in
  let c := column (start path) in
  let check := isAlreadyEscapedInLineWindow (readFileSync st) filePath l original in
  if matched check then
    match check with
    | WMatched confidence reason =>
        if bool_decide (confidence = js "high") then (Skipped AlreadyEscaped, st)
        else if strictMode then
          (Pushed {| type := information;
                     message :=
                       js "Potentially already escaped content at " ++ filePath
                       ++ js ":" ++ js (pretty l) ++ js " (" ++ reason ++ js ")";
                     original := original;
                     escaped := []; escapedChars := []; loc_start := start path;
                     isJsx := false; rawValue := [] |}, st)
        else (Skipped LikelyEscaped, st)
    | _ => (Skipped AlreadyEscaped, st)
    end
  else if checkRawFileContent (readFileSync st filePath) l c raw
  then (Skipped FixedRaw, st)
  else if isJsxText && containsHtmlEntities raw then (Skipped HasEntities, st)
  else
    let rawLine := default [] (lineAt (Str.split LF fileContent) l) in
    if negb (isSafeToEscapeInJsx original rawLine) then (Skipped Unsafe, st)
    else
      match escapeString strictMode original with
      | RetString _ => (Skipped NoEscapingNeeded, st)
      | RetObject result chars =>
          if bool_decide (result = original) then (Skipped NoEscapingNeeded, st)
          else if isAlreadyFixed fileContent l c original result
          then (Skipped AlreadyFixedInFile, st)
          else
            match isAutoSkipPattern strictMode original filePath l c with
            | Some reason =>
                (* [isAutoSkipPattern] answers only when not in strict mode *)
                let fixKey := createFixKey filePath l c original in
                (Skipped AutoSkip,
                 setRejectedFixes
                   (<[fixKey := autoSkipped filePath path original reason (clock st)]>
                      (rejectedFixes st)) st)
            | None =>
                (Pushed {| type := fix_; message := []; original := original;
                           escaped := result; escapedChars := chars;
                           loc_start := start path; isJsx := isJsxText;
                           rawValue := if isJsxText then raw else [] |}, st)
            end
      end.

Definition hasManaged (original : jsstring) : bool :=
  Str.includes original (js "'") || Str.includes original [dq]
  || Str.includes original (js "<") || Str.includes original (js ">")
  || Str.includes original (js "&").

(** The visitor [StringLiteral(path)] *)
Definition visitStringLiteral (path : NodePath) (st : State) : Visit * State :=
  let original := value path in
  if negb (hasManaged original) then (Skipped NothingToEscape, st)
  else if isReactPropValue path then (Skipped PropValue, st)
  else visitText false path original original st.

(** The visitor [JSXText(path)] *)
Definition visitJSXText (path : NodePath) (st : State) : Visit * State :=
  let rawValue := value path in
  let original := Str.trim rawValue in
  if bool_decide (original = []) then (Skipped NothingToEscape, st)
  else if negb (hasManaged original) then (Skipped NothingToEscape, st)
  else visitText true path original rawValue st.

End Visitors.

(** ** Runs of the program *)

(** The state when the program starts: the disk is what it was, the global
    variables are fresh. *)
Definition freshProcess (st : State) : State :=
  {| disk := disk st; clock := clock st; rejectedFixes := ∅; fileModTimes := ∅;
     wards := wards st; console := [] |}.

(** The start of the main function: the rejection history is cleared or
    loaded. *)
Definition startRun (clearHistory : bool) (st : State) : State :=
  if clearHistory then setWards None (freshProcess st)
  else loadRejectedFixes (freshProcess st).

(** One turn of the loop over the files of the main function: the
    rejection history is saved when [processFile] has returned. *)
Definition processAndSave (filePath : jsstring) (stringFixes : list StringFix)
    (inputs : list Input) (racing : option File) (st : State) : Exit * State :=
  match processFile filePath stringFixes inputs racing st with
  | (Finished, st') => (Finished, saveRejectedFixes st')
  | (Returned, st') => (Returned, saveRejectedFixes st')
  | r => r
  end.

(** ** [processFile] with its traversal *)

(** A node on which [traverse] calls a visitor: a string literal or a text
    in markup, with its path. *)
Inductive AstNode : Type :=
  | StringLiteralNode (path : NodePath)
  | JSXTextNode (path : NodePath).

(** [traverse(ast, { StringLiteral(path) {...}, JSXText(path) {...} })] on
    the nodes of the parsed file, in the order of the traversal: what the
    visitors push is added at the end of [stringFixes]. *)
Fixpoint traverse (strictMode : bool) (filePath fileContent : jsstring)
    (nodes : list AstNode) (stringFixes : list StringFix) (st : State)
  : list StringFix * State :=
  match nodes with
  | [] => (stringFixes, st)
  | node :: rest =>
      let '(v, st') :=
        match node with
        | StringLiteralNode path => visitStringLiteral strictMode filePath fileContent path st
        | JSXTextNode path => visitJSXText strictMode filePath fileContent path st
        end in
      traverse strictMode filePath fileContent rest
        (match v with
         | Pushed fx => stringFixes ++ [fx]
         | Skipped _ => stringFixes
         end) st'
  end.

(** [processFile(filePath)] from the parsed file on: [nodes] are the string
    literals and the texts in markup that the parser finds in the text of
    the file. A file that is missing or above the size limit is left
    before the traversal. *)
Definition processParsedFile (strictMode : bool) (filePath : jsstring)
    (nodes : list AstNode) (inputs : list Input) (racing : option File) (st : State)
  : Exit * State :=
  match disk st !! filePath with
  | None => processFile filePath [] inputs racing st
  | Some f =>
      if N.ltb MAX_FILE_SIZE (utf8Length (content f))
      then processFile filePath [] inputs racing st
      else
        let '(stringFixes, st') := traverse strictMode filePath (content f) nodes [] st in
        processFile filePath stringFixes inputs racing st'
  end.

(** One turn of the loop over the files of the main function, from the
    parsed file on. *)
Definition processParsedAndSave (strictMode : bool) (filePath : jsstring)
    (nodes : list AstNode) (inputs : list Input) (racing : option File) (st : State)
  : Exit * State :=
  match processParsedFile strictMode filePath nodes inputs racing st with
  | (Finished, st') => (Finished, saveRejectedFixes st')
  | (Returned, st') => (Returned, saveRejectedFixes st')
  | r => r
  end.

(** ** The write with verification of [lib/file.js] and its caller *)

(** [writeFileWithVerification(filePath, content)]: the length it returns,
    [None] when it throws. *)
Definition writeFileWithVerification (filePath text : jsstring)
    (racing : option File) (st : State) : option nat * State :=
  let st := writeFileSync filePath text st in
  let st := externalWrite filePath racing st in
  match readFileSync st filePath with
  | None => (None, st)
  | Some newContent =>
      if bool_decide (newContent = text) then (Some (length newContent), st)
      else (None, st)
  end.

(** The write-back at the end of [processFileFixes]: the property
    [changed] of its result, and the state. *)
Definition writeBackVerified (filePath : jsstring) (racing : option File)
    (nfixes : nat) (loc : Local) (st : State) : bool * State :=
  if changed loc then
    let fileContent := Str.join LF (fileLines loc) in
    if Str.includes fileContent (js "&amp;lt;") || Str.includes fileContent (js "&amp;gt;")
    then (false, say RefusedCorrupted st)
    else
      match writeFileWithVerification filePath fileContent racing st with
      | (Some _, st') => (true, say (WroteFile fileContent) st')
      | (None, st') => (false, say LoggedError st')
      end
  else if Nat.ltb 0 nfixes then (false, say LoggedNoChanges st)
  else (false, st).

(** ** The context shown at a prompt *)

Section ContextLines.

(** [chalk.gray] on a line number, and the marker that [chalk.green] makes
    of an arrow and a space: what they give depends on the terminal. *)
Variable gray : jsstring → jsstring.

Variable marker : jsstring.

(** The array [contextLines] of [getContextLines]: the loop runs from
    [startLine = max(0, lineNumber - contextSize - 1)] to
    [endLine = min(lines.length - 1, lineNumber + contextSize - 1)], both
    included; [stop] is [endLine + 1]. *)
Definition contextLines (fileContent : jsstring) (lineNumber contextSize : nat)
  : list jsstring :=
  let lines := Str.split LF fileContent in
  let startLine := lineNumber - contextSize - 1 in
  let stop := Nat.min (length lines) (lineNumber + contextSize) in
  map (λ i,
         let prefix := if bool_decide (i + 1 = lineNumber) then marker else js "  " in
         gray (js (pretty (i + 1))) ++ js ":" ++ prefix
         ++ default (js "undefined") (lines !! i))
      (seq startLine (stop - startLine)).

(** [getContextLines(fileContent, lineNumber, contextSize)] *)
Definition getContextLines (fileContent : jsstring) (lineNumber contextSize : nat)
  : jsstring :=
  Str.join LF (contextLines fileContent lineNumber contextSize).

End ContextLines.

(** ** The rejection memory of [lib/fixes.js] *)

(** [addRejectedFix(filePath, line, column, original, reason)]: the
    property [reason] is set when the argument is neither [null] nor the
    empty string. *)
Definition addRejectedFix (filePath : jsstring) (line column : nat)
    (original : jsstring) (reason : option jsstring) (st : State) : State :=
  let fixKey := createFixKey filePath line column original in
  setRejectedFixes
    (<[fixKey := {| r_filePath := filePath; r_line := line; r_column := column;
                    r_original := original; r_autoSkipped := false;
                    r_reason := match reason with
                                | Some [] => None
                                | r => r
                                end;
                    r_timestamp := clock st |}]> (rejectedFixes st)) st.

(** [isFixRejected(filePath, line, column, original)] *)
Definition isFixRejected (filePath : jsstring) (line column : nat)
    (original : jsstring) (st : State) : bool :=
  isRejected st (createFixKey filePath line column original).

(** ** Reading with a size check, [lib/file.js] *)

(** [readFileWithSizeCheck(filePath, maxSize)]; [None] when it throws. *)
Definition readFileWithSizeCheck (filePath : jsstring) (maxSize : N) (st : State)
  : option jsstring :=
  match disk st !! filePath with
  | None => None
  | Some f => if N.ltb maxSize (utf8Length (content f)) then None else Some (content f)
  end.

(** ** The candidates of the linter, [lib/eslint.js] *)

(** An entry of [escapeErrors], as far as [convertEslintErrorsToFixes]
    reads it: a line and a column, both counted from 1, and the character
    the linter names. *)
Record EscapeError : Type := {
  e_line : nat;
  e_column : nat;
  e_entity : jsstring
}.

(** The callback given to [original.replace] with the class of the two
    quote characters: the apostrophe gives [&apos;], the other character
    of the class gives [&quot;]. *)
Definition aposOrQuot (c : ascii) (_ : unit) : jsstring * unit :=
  (if Ascii.eqb c "'" then js "&apos;" else js "&quot;", tt).

(** [[...new Set(original.match(...) || [])]] for the same class: the
    quote characters of the text, each once. *)
Definition quotesOf (original : jsstring) : list ascii :=
  Set_of (filter (λ c, quoteClass c = true) original).

(** The body of the loop of [convertEslintErrorsToFixes] for one error:
    [None] when the error is left out. *)
Definition convertEslintError (lines : list jsstring) (error : EscapeError)
  : option StringFix :=
  let lineContent := default [] (lineAt lines (e_line error)) in
  let original :=
    Str.substring lineContent (e_column error - 1)
      (e_column error + length (e_entity error) - 1) in
  if containsHtmlEntities original then None
  else
    Some {| type := fix_; message := []; original := original;
            escaped := fst (Str.replace quoteClass aposOrQuot original tt);
            escapedChars := quotesOf original;
            loc_start := {| line := e_line error; column := e_column error |};
            isJsx := true; rawValue := original |}.

(** [convertEslintErrorsToFixes(escapeErrors, fileContent)] *)
Definition convertEslintErrorsToFixes (escapeErrors : list EscapeError)
    (fileContent : jsstring) : list StringFix :=
  let lines := Str.split LF fileContent in
  omap (convertEslintError lines) escapeErrors.

(** ** The traversal of [lib/ast.js] *)

Module LibAst.

Section AstVisitors.

Variable fileContent : jsstring.

(** The part the two visitors of [findStringFixes] share, from the check
    of [isSafeToEscapeInJsx] on. *)
Definition visitText (isJsxText : bool) (path : NodePath) (original rawValue : jsstring)
  : Visit :=
  let rawLine := default [] (lineAt (Str.split LF fileContent) (line (start path))) in
  if negb (isSafeToEscapeInJsx original rawLine) then Skipped Unsafe
  else
    let escaped := fst (Str.replace quoteClass aposOrQuot original tt) in
    if bool_decide (escaped = original) then Skipped NoEscapingNeeded
    else
      Pushed {| type := fix_; message := []; original := original; escaped := escaped;
                escapedChars := quotesOf original; loc_start := start path;
                isJsx := isJsxText; rawValue := if isJsxText then rawValue else [] |}.

(** The visitor [StringLiteral(path)] *)
Definition visitStringLiteral (path : NodePath) : Visit :=
  let original := value path in
  if negb (hasManaged original) then Skipped NothingToEscape
  else if isReactPropValue path then Skipped PropValue
  else
    let rawLine := default [] (lineAt (Str.split LF fileContent) (line (start path))) in
    if containsHtmlEntities rawLine then Skipped HasEntities
    else visitText false path original original.

(** The visitor [JSXText(path)] *)
Definition visitJSXText (path : NodePath) : Visit :=
  let rawValue := value path in
  let original := Str.trim rawValue in
  if bool_decide (original = []) then Skipped NothingToEscape
  else if negb (hasManaged original) then Skipped NothingToEscape
  else if containsHtmlEntities rawValue then Skipped HasEntities
  else visitText true path original rawValue.

End AstVisitors.

End LibAst.

(** * Notions for the statements *)

(** ** The escaped text *)

(** The text that [replace] builds from [str] for a class. *)
Definition escapeWith (cls : ascii → bool) (str : jsstring) : jsstring :=
  flat_map (λ c, if cls c then ESCAPES_get c else [c]) str.

(** Number of positions at which the token [t] starts. *)
Fixpoint countToken (t : jsstring) (s : jsstring) : nat :=
  (if Str.startsWith s t then 1 else 0) +
  match s with
  | [] => 0
  | _ :: s' => countToken t s'
  end.

(** The text in which every apostrophe and double quote is replaced by its
    entity and every other character is kept, as the spec words it. *)
Definition quotesReplaced (T : jsstring) : jsstring :=
  flat_map (λ c, if Ascii.eqb c "'" then js "&apos;"
                 else if Ascii.eqb c dq then js "&quot;"
                 else [c]) T.



(** The text in which every apostrophe, double quote and ampersand is
    replaced by its entity and every other character is kept, as the spec
    words it for a text without angle bracket. *)
Definition managedReplaced (T : jsstring) : jsstring :=
  flat_map (λ c, if Ascii.eqb c "'" then js "&apos;"
                 else if Ascii.eqb c dq then js "&quot;"
                 else if Ascii.eqb c "&" then js "&amp;"
                 else [c]) T.

(** At least one character of the text is replaced by [escapeString]
    when it builds an object: the text holds an apostrophe or a double
    quote, or it holds an ampersand and no angle bracket. *)
Definition Replaces (T : jsstring) : Prop :=
  ("'" ∈ T) ∨ (dq ∈ T) ∨ (("&" ∈ T) ∧ ("<" ∉ T) ∧ (">" ∉ T)).

(** ** Candidates in their place, and patches one after the other *)

(** A literal candidate. *)
Definition literalFix (l c : nat) (orig esc : jsstring) (chars : list ascii) : StringFix :=
  {| type := fix_; message := []; original := orig; escaped := esc;
     escapedChars := chars; loc_start := {| line := l; column := c |};
     isJsx := false; rawValue := [] |}.

(** A candidate is in its place on a line: an opening quote at the
    column, the original text, and the same quote right after it, which
    the original text does not hold. *)
Definition Located (s : jsstring) (col : nat) (orig : jsstring) : Prop :=
  ∃ pre q post,
    s = pre ++ q :: orig ++ q :: post ∧ length pre = col ∧ orig ≠ [] ∧ q ∉ orig.


(** The column of the closing quote of a candidate that is in its place. *)
Definition closingQuote (fx : StringFix) : nat :=
  column (loc_start fx) + 1 + length (original fx).



(** [a] comes no later than [b] in the descending order of start line and,
    on one line, of start column. *)
Definition fixBefore (a b : StringFix) : Prop :=
  line (loc_start b) < line (loc_start a)
  ∨ (line (loc_start b) = line (loc_start a)
     ∧ column (loc_start b) ≤ column (loc_start a)).


Global Instance Position_eq_dec : EqDecision Position.
Proof. solve_decision. Defined.


(** The array after the approved literal fixes of the list, in the order
    of the list, and what each of them did. *)
Fixpoint applyLiteralFixes (fileLines : list jsstring) (fixes : list StringFix)
  : list jsstring * list PatchOutcome :=
  match fixes with
  | [] => (fileLines, [])
  | fx :: rest =>
      let '(fileLines1, outcome) := applyLiteralFix fileLines fx in
      let '(fileLines2, outcomes) := applyLiteralFixes fileLines1 rest in
      (fileLines2, outcome :: outcomes)
  end.

(** The line in which the text of every candidate of [spans], given from
    the left to the right, is replaced by its escaped text: the line is
    copied from the cursor [off] up to the opening quote, the escaped text
    is written, and the cursor moves to the closing quote. *)
Fixpoint rewriteFrom (off : nat) (s : jsstring) (spans : list StringFix) : jsstring :=
  match spans with
  | [] => drop off s
  | fx :: rest =>
      take (column (loc_start fx) + 1 - off) (drop off s)
      ++ escaped fx ++ rewriteFrom (closingQuote fx) s rest
  end.

Definition rewriteLine (s : jsstring) (spans : list StringFix) : jsstring :=
  rewriteFrom 0 s spans.

(** ** The review loop *)

(** The user presses a key; nobody else has touched the file. *)
Definition press (k : Key) : Input := {| external := None; key := k |}.

(** Another program saves the file while the prompt waits; then the key. *)
Definition editedThenPress (text : jsstring) (t : N) (k : Key) : Input :=
  {| external := Some {| content := text; mtimeMs := t |}; key := k |}.


(** The keys of the candidates that were presented, in the order in which
    the console shows them. *)
Definition presentedKeys (events : list Event) : list jsstring :=
  omap (λ e, match e with Presented k => Some k | _ => None end) events.

(** What the prompt loop of one candidate keeps: the recorded keys stay
    recorded, and no candidate is presented by it. *)
Definition Keeps (k : jsstring) (st st' : State) : Prop :=
  (is_Some (rejectedFixes st !! k) → is_Some (rejectedFixes st' !! k)) ∧
  (Presented k ∈ console st' → Presented k ∈ console st).

(** The file is on disk as it was when its time was recorded. *)
Definition Untouched (filePath : jsstring) (st : State) : Prop :=
  ∃ t, statSync_mtimeMs st filePath = Some t ∧ fileModTimes st !! filePath = Some t.


(** ** A file, its candidates and a state to run the program on *)

Definition demoPath : jsstring := js "a.js".

Definition demoText : jsstring :=
  js "f('a&b');" ++ LF :: js "g('c&d');" ++ LF :: js "h('e&f');".

(** The string literals of the demonstration file, as the parser gives
    them: the value, and the line and the column of the opening quote. *)
Definition literalNode (l c : nat) (v : jsstring) : AstNode :=
  StringLiteralNode {| value := v; start := {| line := l; column := c |};
                       parentType := Some OtherNode; ancestorType := None |}.

Definition demoNodes : list AstNode :=
  [literalNode 1 2 (js "a&b"); literalNode 2 2 (js "c&d"); literalNode 3 2 (js "e&f")].

(** The candidates that the traversal collects in the demonstration
    file. *)
Definition demoFixes : list StringFix :=
  [literalFix 1 2 (js "a&b") (js "a&amp;b") ["&"];
   literalFix 2 2 (js "c&d") (js "c&amp;d") ["&"];
   literalFix 3 2 (js "e&f") (js "e&amp;f") ["&"]].

Definition demoState : State :=
  {| disk := {[ demoPath := {| content := demoText; mtimeMs := 100 |} ]};
     clock := 200; rejectedFixes := ∅; fileModTimes := ∅; wards := None;
     console := [] |}.

(** A state in which the disk holds one file and the program has not
    started. *)
Definition fileState (path text : jsstring) : State :=
  {| disk := {[ path := {| content := text; mtimeMs := 100 |} ]};
     clock := 200; rejectedFixes := ∅; fileModTimes := ∅; wards := None;
     console := [] |}.


(** A file with two string literals on its first line and one on the
    second, and the candidates the traversal collects in it. *)
Definition pairText : jsstring :=
  js "f('a&b', 'c&d');" ++ LF :: js "g('e&f');".

Definition pairNodes : list AstNode :=
  [literalNode 1 2 (js "a&b"); literalNode 1 9 (js "c&d"); literalNode 2 2 (js "e&f")].






(** A file for strict mode. The first literal holds an escaped text; the
    second holds a text whose apostrophe, with the ten characters around
    it, stands escaped in the first; the third holds an ampersand. *)
Definition storyText : jsstring :=
  js "const a = " ++ dq :: js "it&apos;s a long walk" ++ dq :: js ";" ++ LF ::
  js "const s = " ++ dq :: js "it's a long way" ++ dq :: js ";" ++ LF ::
  js "const t = 'R&D';".

Definition storyNodes : list AstNode :=
  [literalNode 1 10 (js "it&apos;s a long walk");
   literalNode 2 10 (js "it's a long way");
   literalNode 3 10 (js "R&D")].

(** A state in which the demonstration file has been opened. *)
Definition demoOpened : State :=
  setFileModTimes {[ demoPath := 100%N ]} demoState.

(** ** The file has changed since its time was recorded *)

(** The time recorded for the file is set and is not the time the file
    has on disk. *)
Definition Stale (filePath : jsstring) (st : State) : Prop :=
  ∃ t r, statSync_mtimeMs st filePath = Some t
         ∧ fileModTimes st !! filePath = Some r ∧ r ≠ 0%N ∧ r ≠ t.

(** The disk, the rejection memory and the recorded times are the same
    in the two states. *)
Definition SameFiles (st st' : State) : Prop :=
  disk st' = disk st ∧ rejectedFixes st' = rejectedFixes st
  ∧ fileModTimes st' = fileModTimes st.

(** ** The apostrophe loop *)

(** The state of a scan for tags after one more character: inside a tag
    after an opening bracket, outside after a closing one. *)
Definition tagStep (inside : bool) (c : ascii) : bool :=
  if Ascii.eqb c "<" then true else if Ascii.eqb c ">" then false else inside.

Definition tagState (s : jsstring) : bool := foldl tagStep false s.

(** The apostrophe at index [i] of the line stays: it is inside a tag, or
    the five characters before it are [&apos]. *)
Definition staysApostrophe (line : jsstring) (i : nat) : bool :=
  isInsideJsxTag line i || Str.includes (Str.substring line (i - 5) i) (js "&apos").

(** One pass over the part [s] of the line that starts at index [i]: an
    apostrophe that does not stay becomes its entity. *)
Fixpoint escapeOutsideTags_go (line : jsstring) (i : nat) (s : jsstring) : jsstring :=
  match s with
  | [] => []
  | c :: s' =>
      (if Ascii.eqb c "'" && negb (staysApostrophe line i) then js "&apos;" else [c])
      ++ escapeOutsideTags_go line (S i) s'
  end.

Definition escapeOutsideTags (line : jsstring) : jsstring :=
  escapeOutsideTags_go line 0 line.

(** A part that the loop has closed ends with the last character it
    wrote or passed. *)
Definition EndsWith (x : ascii) (s : jsstring) : Prop :=
  s = [] ∨ ∃ s', s = s' ++ [x].

(** ** Entities *)

(** The names between the ampersand and the semicolon that
    [containsHtmlEntities] knows: the five names of the table, and a
    number sign with decimal digits. *)
Definition EntityName (name : jsstring) : Prop :=
  name ∈ entityNames
  ∨ ∃ ds, name = "#" :: ds ∧ ds ≠ [] ∧ Forall (λ c, isDigit c = true) ds.

(** ** Tags *)

(** The text holds an opening bracket, an apostrophe after it and a
    closing bracket after the apostrophe, with no closing bracket in
    between. *)
Definition TagWithApostrophe (s : jsstring) : Prop :=
  ∃ a m1 m2 b, s = a ++ "<" :: m1 ++ "'" :: m2 ++ ">" :: b
               ∧ (">" ∉ m1) ∧ (">" ∉ m2).

(** ** The flag of the review loop *)

(** The array has as many lines as before, the flag stays set, and an
    array that differs has the flag set. *)
Definition FlagSound (loc loc' : Local) : Prop :=
  length (fileLines loc') = length (fileLines loc)
  ∧ (changed loc = true → changed loc' = true)
  ∧ (changed loc' = false → fileLines loc' = fileLines loc).

(** * Properties *)

(** ** The operations on examples *)

Example indexOf_from_position : Str.indexOf (js "abcabc") (js "c") 3 = Some 5.
Proof. reflexivity. Qed.

Example indexOf_past_the_end : Str.indexOf (js "abcabc") (js "c") 9 = None.
Proof. reflexivity. Qed.

Example lastIndexOf_up_to_position :
  Str.lastIndexOf (js "a<b>c<d") (js "<") 4 = Some 1.
Proof. reflexivity. Qed.

Example substring_swaps : Str.substring (js "abcdef") 4 2 = js "cd".
Proof. reflexivity. Qed.

Example split_keeps_last_empty_line :
  Str.split "010" (js "a" ++ "010" :: js "b" ++ ["010"]) = [js "a"; js "b"; []].
Proof. reflexivity. Qed.

Example trim_both_ends : Str.trim (js "  a b  ") = js "a b".
Proof. reflexivity. Qed.

Example escapeString_scenario_A :
  escapeString false (js "It's " ++ dq :: js "fine" ++ [dq])
  = RetObject (js "It&apos;s &quot;fine&quot;") ["'"; dq].
Proof. vm_compute. reflexivity. Qed.

Example escapeString_scenario_C :
  escapeString false (js "Don't <b>stop</b>")
  = RetObject (js "Don&apos;t <b>stop</b>") ["'"].
Proof. vm_compute. reflexivity. Qed.

(** ** Facts on the string operations *)

Section StrFacts.

Implicit Types s t p a b : jsstring.

Lemma startsWith_app p s : Str.startsWith (p ++ s) p = true.
Proof.
  induction p as [|c p IH]; simpl; [done|].
  by rewrite Ascii.eqb_refl, IH.
Qed.

Lemma startsWith_spec s p : Str.startsWith s p = true ↔ ∃ b, s = p ++ b.
Proof.
  revert s; induction p as [|c p IH]; intros s; simpl.
  - split; [intros _; by exists s | done].
  - destruct s as [|d s]; [split; [done | by intros [b ?]]|].
    rewrite andb_true_iff, IH. split.
    + intros [Hc [b ->]]. apply Ascii.eqb_eq in Hc as ->. by exists b.
    + intros [b [= -> ->]]. split; [apply Ascii.eqb_refl | by exists b].
Qed.

Lemma includes_spec s t : Str.includes s t = true ↔ ∃ a b, s = a ++ t ++ b.
Proof.
  induction s as [|d s IH]; simpl.
  - rewrite orb_false_r, startsWith_spec. split.
    + intros [b ->]. by exists [], b.
    + intros [a [b H]]. destruct a; [by exists b|done].
  - rewrite orb_true_iff, IH, startsWith_spec. split.
    + intros [[b ->]|[a [b ->]]]; [by exists [], b | by exists (d :: a), b].
    + intros [[|d' a] [b H]]; [left; by exists b|].
      right. injection H as -> ->. by exists a, b.
Qed.

Lemma includes_app_intro a t b : Str.includes (a ++ t ++ b) t = true.
Proof. apply includes_spec. by exists a, b. Qed.



Lemma includes_app_l s s' t :
  Str.includes s t = true → Str.includes (s ++ s') t = true.
Proof.
  rewrite !includes_spec. intros [a [b ->]]. exists a, (b ++ s').
  by rewrite <- !app_assoc.
Qed.

Lemma includes_app_r s s' t :
  Str.includes s' t = true → Str.includes (s ++ s') t = true.
Proof.
  rewrite !includes_spec. intros [a [b ->]]. exists (s ++ a), b.
  by rewrite <- !app_assoc.
Qed.

(** A one-character search is list membership. *)
Lemma includes_char s c : Str.includes s [c] = true ↔ c ∈ s.
Proof.
  rewrite includes_spec. split.
  - intros [a [b ->]]. set_solver.
  - intros [a [b ->]]%list_elem_of_split. by exists a, b.
Qed.

Lemma includes_char_false s c : Str.includes s [c] = false ↔ c ∉ s.
Proof.
  rewrite <- includes_char. by destruct (Str.includes s [c]).
Qed.

(** [replace] produces the pieces in order and pushes the matched
    characters in order. *)
Lemma replace_push cls s st :
  Str.replace cls pushAndEscape s st
  = (flat_map (λ c, if cls c then ESCAPES_get c else [c]) s, st ++ filter (λ c, cls c = true) s).
Proof.
  revert st; induction s as [|c s IH]; intros st; simpl.
  - by rewrite app_nil_r.
  - destruct (cls c) eqn:Hc.
    + unfold pushAndEscape at 1. rewrite IH.
      rewrite filter_cons_True by done.
      by rewrite <- app_assoc.
    + rewrite IH. by rewrite filter_cons_False by congruence.
Qed.

End StrFacts.

(** ** Facts on the escape policy engine *)

Section EscapeFacts.

Implicit Types (T str escaped : jsstring) (c : ascii).

Lemma managedClass_cases c :
  managedClass c = true ↔ c = dq ∨ c = "'" ∨ c = "&" ∨ c = "<" ∨ c = ">".
Proof.
  unfold managedClass. rewrite !orb_true_iff, !Ascii.eqb_eq. tauto.
Qed.

Lemma quoteClass_cases c : quoteClass c = true ↔ c = dq ∨ c = "'".
Proof. unfold quoteClass. by rewrite orb_true_iff, !Ascii.eqb_eq. Qed.

Lemma quoteClass_managed c : quoteClass c = true → managedClass c = true.
Proof. rewrite quoteClass_cases, managedClass_cases. tauto. Qed.

(** Every entity of the table is recognised by [containsHtmlEntities]. *)
Lemma entity_recognised c s :
  managedClass c = true →
  Str.includes s (ESCAPES_get c) = true →
  containsHtmlEntities s = true.
Proof.
  intros Hc Hs. unfold containsHtmlEntities, entityRegex_test.
  apply orb_true_iff; left. apply orb_true_iff; left.
  apply existsb_exists.
  apply managedClass_cases in Hc as [->|[->|[->|[->| ->]]]].
  - exists (js "quot"). split; [|exact Hs]. cbv; tauto.
  - exists (js "apos"). split; [|exact Hs]. cbv; tauto.
  - exists (js "amp"). split; [|exact Hs]. cbv; tauto.
  - exists (js "lt"). split; [|exact Hs]. cbv; tauto.
  - exists (js "gt"). split; [|exact Hs]. cbv; tauto.
Qed.

(** A replaced character leaves its entity in the output. *)
Lemma escapeWith_includes cls c T :
  cls c = true → c ∈ T →
  Str.includes (escapeWith cls T) (ESCAPES_get c) = true.
Proof.
  intros Hc [a [b ->]]%list_elem_of_split. unfold escapeWith.
  rewrite flat_map_app. simpl. rewrite Hc.
  apply includes_app_intro.
Qed.

(** A text with a recognised entity is given back as it is, whatever the
    exclusion heuristics say. *)
Lemma escapeString_entities strictMode str :
  containsHtmlEntities str = true →
  escapeString strictMode str = RetString str.
Proof.
  intros H. unfold escapeString. rewrite H.
  by destruct (shouldExcludeFromEscaping strictMode str).
Qed.

(** The two ways [escapeString] builds an object. *)
Lemma escapeString_object strictMode T escaped chars :
  escapeString strictMode T = RetObject escaped chars →
  shouldExcludeFromEscaping strictMode T = false ∧
  containsHtmlEntities T = false ∧
  (((("<" ∈ T) ∨ (">" ∈ T)) ∧ escaped = escapeWith quoteClass T
      ∧ chars = Set_of (filter (λ c, quoteClass c = true) T))
   ∨ (("<" ∉ T) ∧ (">" ∉ T) ∧ escaped = escapeWith managedClass T
      ∧ chars = Set_of (filter (λ c, managedClass c = true) T))).
Proof.
  unfold escapeString.
  destruct (shouldExcludeFromEscaping strictMode T); [done|].
  destruct (containsHtmlEntities T); [done|].
  rewrite !replace_push. simpl.
  destruct (Str.includes T ["<"]) eqn:Hlt;
    [|destruct (Str.includes T [">"]) eqn:Hgt]; simpl;
    intros [= <- <-]; (split; [done|split; [done|]]).
  - left. apply (includes_char T "<") in Hlt. auto.
  - left. apply (includes_char T ">") in Hgt. auto.
  - right. apply (includes_char_false T "<") in Hlt.
    apply (includes_char_false T ">") in Hgt. auto.
Qed.

(** When no exclusion heuristic applies and the text holds no recognised
    entity, [escapeString] builds an object, in one of two ways. *)
Lemma escapeString_outcome strictMode T :
  shouldExcludeFromEscaping strictMode T = false →
  containsHtmlEntities T = false →
  escapeString strictMode T
  = if Str.includes T (js "<") || Str.includes T (js ">")
    then RetObject (escapeWith quoteClass T)
           (Set_of (filter (λ c, quoteClass c = true) T))
    else RetObject (escapeWith managedClass T)
           (Set_of (filter (λ c, managedClass c = true) T)).
Proof.
  intros Hex Hent. unfold escapeString. rewrite Hex, Hent, !replace_push.
  by destruct (_ || _).
Qed.

(** An excluded text and a text with a recognised entity are given back
    as they are. *)
Lemma escapeString_sentinel strictMode T :
  shouldExcludeFromEscaping strictMode T = true ∨ containsHtmlEntities T = true →
  escapeString strictMode T = RetString T.
Proof.
  intros [H|H]; [|by apply escapeString_entities].
  unfold escapeString. by rewrite H.
Qed.

(** A class that meets no character of the text leaves the text. *)
Lemma escapeWith_no_class cls T :
  (∀ c, c ∈ T → cls c = false) → escapeWith cls T = T.
Proof.
  unfold escapeWith. induction T as [|c T IH]; intros H; simpl; [done|].
  rewrite (H c) by (by left). simpl. f_equal. apply IH.
  intros d Hd. apply H. by right.
Qed.

Lemma filter_no_class cls T :
  (∀ c, c ∈ T → cls c = false) → filter (λ c, cls c = true) T = [].
Proof.
  induction T as [|c T IH]; intros H; [done|].
  rewrite filter_cons_False by (rewrite (H c) by (by left); done).
  apply IH. intros d Hd. apply H. by right.
Qed.

End EscapeFacts.

(** C1, as the code has it. [escapeString] gives back, as it is, a text
    that one of its exclusion heuristics meets and a text that holds a
    recognised entity. For every other text it answers with an escape
    outcome. When at least one character of the text is replaced (the text
    has an apostrophe or a double quote, or it has an ampersand and no
    angle bracket), the escaped text holds a recognised entity, and
    [escapeString] gives the escaped text back unchanged: nothing is
    escaped twice. When no character is replaced (the text has no
    apostrophe and no double quote, and it has an angle bracket or no
    ampersand), the outcome holds the text unchanged and no changed
    character, and [escapeString] answers the escaped text with the same
    outcome again, not with the text. *)
Theorem escapeString_idempotent strictMode (T : jsstring) :
  (shouldExcludeFromEscaping strictMode T = true ∨ containsHtmlEntities T = true →
   escapeString strictMode T = RetString T) ∧
  (shouldExcludeFromEscaping strictMode T = false →
   containsHtmlEntities T = false →
   ∃ escaped chars,
     escapeString strictMode T = RetObject escaped chars ∧
     (Replaces T →
      containsHtmlEntities escaped = true ∧
      escapeString strictMode escaped = RetString escaped) ∧
     (¬ Replaces T →
      escaped = T ∧ chars = [] ∧
      escapeString strictMode escaped = RetObject T [])).
Proof.
  split; [apply escapeString_sentinel|].
  intros Hex Hent.
  pose proof (escapeString_outcome strictMode T Hex Hent) as Hout.
  destruct (Str.includes T (js "<") || Str.includes T (js ">")) eqn:Hangle.
  - (* an angle bracket: the quotes only *)
    eexists _, _. split; [exact Hout|]. split.
    + intros [H|[H|(_ & Hlt & Hgt)]].
      * assert (containsHtmlEntities (escapeWith quoteClass T) = true) as He.
        { apply (entity_recognised "'"); [done|]. by apply escapeWith_includes. }
        split; [done|by apply escapeString_entities].
      * assert (containsHtmlEntities (escapeWith quoteClass T) = true) as He.
        { apply (entity_recognised dq); [done|]. by apply escapeWith_includes. }
        split; [done|by apply escapeString_entities].
      * apply orb_true_iff in Hangle as [H|H]; apply includes_char in H; done.
    + intros Hno.
      assert (∀ c, c ∈ T → quoteClass c = false) as Hnone.
      { intros c Hc. destruct (quoteClass c) eqn:Hq; [|done].
        apply quoteClass_cases in Hq as [-> | ->]; exfalso; apply Hno;
          unfold Replaces; auto. }
      rewrite escapeWith_no_class, filter_no_class in * by done.
      split_and!; [done|done|exact Hout].
  - (* no angle bracket: every managed character *)
    apply orb_false_iff in Hangle as [Hlt Hgt].
    apply includes_char_false in Hlt, Hgt.
    eexists _, _. split; [exact Hout|]. split.
    + intros [H|[H|(H & _)]].
      * assert (containsHtmlEntities (escapeWith managedClass T) = true) as He.
        { apply (entity_recognised "'"); [done|]. by apply escapeWith_includes. }
        split; [done|by apply escapeString_entities].
      * assert (containsHtmlEntities (escapeWith managedClass T) = true) as He.
        { apply (entity_recognised dq); [done|]. by apply escapeWith_includes. }
        split; [done|by apply escapeString_entities].
      * assert (containsHtmlEntities (escapeWith managedClass T) = true) as He.
        { apply (entity_recognised "&"); [done|]. by apply escapeWith_includes. }
        split; [done|by apply escapeString_entities].
    + intros Hno.
      assert (∀ c, c ∈ T → managedClass c = false) as Hnone.
      { intros c Hc. destruct (managedClass c) eqn:Hm; [|done].
        apply managedClass_cases in Hm as [->|[->|[->|[->| ->]]]];
          try done; exfalso; apply Hno; unfold Replaces; auto. }
      rewrite escapeWith_no_class, filter_no_class in * by done.
      split_and!; [done|done|exact Hout].
Qed.

(** The theorem at the text of scenario A. *)
Lemma escapeString_idempotent_witness :
  escapeString false (js "It&apos;s &quot;fine&quot;")
  = RetString (js "It&apos;s &quot;fine&quot;").
Proof.
  destruct (proj2 (escapeString_idempotent false (js "It's " ++ dq :: js "fine" ++ [dq])))
    as (escaped & chars & Hobj & Hyes & _); [vm_compute; reflexivity..|].
  assert (escaped = js "It&apos;s &quot;fine&quot;") as <-.
  { vm_compute in Hobj. by injection Hobj as <- _. }
  apply Hyes. left. apply list_elem_of_In. simpl. tauto.
Defined.

(** C1 as the spec states it fails on a text whose only managed character
    is an angle bracket: the text has no entity, [escapeString] answers with
    an object whose text is the input, and asked again it answers with an
    object again, not with the string. *)
Lemma escapeString_angle_only_not_sentinel :
  ¬ (∀ T escaped chars,
       (∃ c, managedClass c = true ∧ c ∈ T) →
       containsHtmlEntities T = false →
       escapeString false T = RetObject escaped chars →
       escapeString false escaped = RetString escaped).
Proof.
  intros H.
  specialize (H (js "a<b") (js "a<b") []).
  assert (escapeString false (js "a<b") = RetObject (js "a<b") []) as Hobj
    by (vm_compute; reflexivity).
  rewrite Hobj in H. 
  assert (RetObject (js "a<b") [] = RetString (js "a<b")) as Habs; [|discriminate Habs].
  apply H; [|vm_compute; reflexivity|reflexivity].
  exists "<". split; [reflexivity|].
  apply list_elem_of_In. simpl. tauto.
Qed.

(** ** Texts with an angle bracket *)

Section MarkupFacts.

Implicit Types (T p : jsstring) (c : ascii).


Lemma quotesReplaced_cons c T :
  quotesReplaced (c :: T)
  = (if Ascii.eqb c "'" then js "&apos;"
     else if Ascii.eqb c dq then js "&quot;" else [c]) ++ quotesReplaced T.
Proof. reflexivity. Qed.






End MarkupFacts.

Section SetFacts.

Lemma Set_add_elem seen c x : x ∈ Set_add seen c ↔ x ∈ seen ∨ x = c.
Proof.
  unfold Set_add. case_bool_decide; [|set_solver].
  split; [auto|]. intros [?| ->]; done.
Qed.

Lemma Set_add_NoDup seen c : NoDup seen → NoDup (Set_add seen c).
Proof.
  intros Hnd. unfold Set_add. case_bool_decide; [done|].
  apply NoDup_app. split_and!; [done| |apply NoDup_singleton].
  intros x Hx ->%list_elem_of_singleton. done.
Qed.

Lemma foldl_Set_add_elem l seen x :
  x ∈ foldl Set_add seen l ↔ x ∈ seen ∨ x ∈ l.
Proof.
  revert seen; induction l as [|c l IH]; intros seen; simpl.
  - set_solver.
  - rewrite IH, Set_add_elem. set_solver.
Qed.

Lemma foldl_Set_add_NoDup l seen : NoDup seen → NoDup (foldl Set_add seen l).
Proof.
  revert seen; induction l as [|c l IH]; intros seen Hnd; simpl; [done|].
  by apply IH, Set_add_NoDup.
Qed.

(** The recorded characters: each character of the array once. *)
Lemma Set_of_elem l x : x ∈ Set_of l ↔ x ∈ l.
Proof. unfold Set_of. rewrite foldl_Set_add_elem. set_solver. Qed.

Lemma Set_of_NoDup l : NoDup (Set_of l).
Proof. apply foldl_Set_add_NoDup, NoDup_nil_2. Qed.

End SetFacts.




(** ** Texts without angle bracket *)

Section FidelityFacts.

Implicit Types (T : jsstring) (c : ascii).

Lemma managedReplaced_cons c T :
  managedReplaced (c :: T)
  = (if Ascii.eqb c "'" then js "&apos;"
     else if Ascii.eqb c dq then js "&quot;"
     else if Ascii.eqb c "&" then js "&amp;" else [c]) ++ managedReplaced T.
Proof. reflexivity. Qed.

Lemma escapeWith_managedClass T :
  "<" ∉ T → ">" ∉ T → escapeWith managedClass T = managedReplaced T.
Proof.
  unfold escapeWith, managedReplaced.
  induction T as [|c T IH]; intros Hlt Hgt; simpl; [done|].
  apply not_elem_of_cons in Hlt as [Hc1 Hlt].
  apply not_elem_of_cons in Hgt as [Hc2 Hgt].
  rewrite IH by done. f_equal. unfold managedClass, ESCAPES_get, ESCAPES.
  destruct (Ascii.eqb_spec c dq) as [->|]; [done|].
  destruct (Ascii.eqb_spec c "'") as [->|]; [done|].
  destruct (Ascii.eqb_spec c "&") as [->|]; [done|].
  destruct (Ascii.eqb_spec c "<") as [->|]; [done|].
  by destruct (Ascii.eqb_spec c ">") as [->|].
Qed.

(** The cases of one step of [managedReplaced]. *)
Ltac managed_cases c T :=
  rewrite managedReplaced_cons;
  destruct (Ascii.eqb_spec c "'") as [->|?];
    [change (js "&apos;" ++ managedReplaced T)
       with ("&" :: "a" :: "p" :: "o" :: "s" :: ";" :: managedReplaced T)
    |destruct (Ascii.eqb_spec c dq) as [->|?];
      [change (js "&quot;" ++ managedReplaced T)
         with ("&" :: "q" :: "u" :: "o" :: "t" :: ";" :: managedReplaced T)
      |destruct (Ascii.eqb_spec c "&") as [->|?];
        [change (js "&amp;" ++ managedReplaced T)
           with ("&" :: "a" :: "m" :: "p" :: ";" :: managedReplaced T)
        |change ([c] ++ managedReplaced T) with (c :: managedReplaced T)]]].

(** A token that opens with an ampersand does not start at a kept
    character. *)
Lemma countToken_kept tok c s :
  c ≠ "&" → countToken ("&" :: tok) (c :: s) = countToken ("&" :: tok) s.
Proof.
  intros Hc. cbn [countToken Str.startsWith].
  by destruct (Ascii.eqb_spec "&" c) as [<-|].
Qed.

Lemma countToken_apos T :
  countToken (js "&apos;") (managedReplaced T) = countChar "'" T.
Proof.
  induction T as [|c T IH]; [done|]. managed_cases c T.
  - simpl. by rewrite <- IH.
  - simpl. by rewrite <- IH.
  - simpl. by rewrite <- IH.
  - change (js "&apos;") with ("&" :: js "apos;").
    rewrite countToken_kept by done. simpl.
    destruct (Ascii.eqb_spec c "'"); [done|]. exact IH.
Qed.

Lemma countToken_quot T :
  countToken (js "&quot;") (managedReplaced T) = countChar dq T.
Proof.
  induction T as [|c T IH]; [done|]. managed_cases c T.
  - simpl. by rewrite <- IH.
  - simpl. by rewrite <- IH.
  - simpl. by rewrite <- IH.
  - change (js "&quot;") with ("&" :: js "quot;").
    rewrite countToken_kept by done. simpl.
    destruct (Ascii.eqb_spec c dq); [done|]. exact IH.
Qed.

Lemma countToken_amp T :
  countToken (js "&amp;") (managedReplaced T) = countChar "&" T.
Proof.
  induction T as [|c T IH]; [done|]. managed_cases c T.
  - simpl. by rewrite <- IH.
  - simpl. by rewrite <- IH.
  - simpl. by rewrite <- IH.
  - change (js "&amp;") with ("&" :: js "amp;").
    rewrite countToken_kept by done. simpl.
    destruct (Ascii.eqb_spec c "&"); [done|]. exact IH.
Qed.

Lemma countChar_managedReplaced_quote x T :
  x = "'" ∨ x = dq → countChar x (managedReplaced T) = 0.
Proof.
  intros Hx. induction T as [|c T IH]; [done|]. managed_cases c T.
  1-3: destruct Hx as [-> | ->]; simpl; exact IH.
  simpl. rewrite IH.
  destruct (Ascii.eqb_spec c x) as [->|]; [|done].
  destruct Hx; congruence.
Qed.

Lemma countChar_managedReplaced_amp T :
  countChar "&" (managedReplaced T)
  = countChar "'" T + countChar dq T + countChar "&" T.
Proof.
  induction T as [|c T IH]; [done|]. managed_cases c T.
  1-3: simpl; rewrite IH; lia.
  simpl. rewrite IH.
  destruct (Ascii.eqb_spec c "&"); [done|].
  destruct (Ascii.eqb_spec c "'"); [done|].
  by destruct (Ascii.eqb_spec c dq).
Qed.

End FidelityFacts.

(** C3, as the code has it. [escapeString] gives back, as it is, a text
    without angle bracket that one of its exclusion heuristics meets or
    that holds a recognised entity: the managed characters of such a text
    stay. For every other text without angle bracket it answers with an
    escape outcome, and the escaped text is the text with each apostrophe,
    double quote and ampersand replaced by its entity; each entity token
    occurs in the escaped text as often as its character occurs in the
    text, no apostrophe or double quote is left and every ampersand of the
    escaped text opens one of the inserted tokens; the recorded characters
    are the managed characters of the text, each once. The text of
    scenario A gives the escaped text and the two recorded characters of
    the spec. *)
Theorem escapeString_character_fidelity strictMode (T : jsstring) :
  "<" ∉ T → ">" ∉ T →
  (shouldExcludeFromEscaping strictMode T = true ∨ containsHtmlEntities T = true →
   escapeString strictMode T = RetString T) ∧
  (shouldExcludeFromEscaping strictMode T = false →
   containsHtmlEntities T = false →
   ∃ chars,
     escapeString strictMode T = RetObject (managedReplaced T) chars ∧
     countToken (js "&apos;") (managedReplaced T) = countChar "'" T ∧
     countToken (js "&quot;") (managedReplaced T) = countChar dq T ∧
     countToken (js "&amp;") (managedReplaced T) = countChar "&" T ∧
     countChar "'" (managedReplaced T) = 0 ∧
     countChar dq (managedReplaced T) = 0 ∧
     countChar "&" (managedReplaced T)
     = countChar "'" T + countChar dq T + countChar "&" T ∧
     NoDup chars ∧
     (∀ c, c ∈ chars ↔ (c ∈ T) ∧ (c = "'" ∨ c = dq ∨ c = "&"))) ∧
  escapeString strictMode (js "It's " ++ dq :: js "fine" ++ [dq])
  = RetObject (js "It&apos;s &quot;fine&quot;") ["'"; dq].
Proof.
  intros Hlt Hgt. split_and!.
  - apply escapeString_sentinel.
  - intros Hex Hent. rewrite (escapeString_outcome _ _ Hex Hent).
    apply includes_char_false in Hlt as Hlt', Hgt as Hgt'.
    change (js "<") with ["<"]. change (js ">") with [">"].
    rewrite Hlt', Hgt'. cbn [orb].
    rewrite escapeWith_managedClass by done.
    eexists. split_and!.
    + done.
    + apply countToken_apos.
    + apply countToken_quot.
    + apply countToken_amp.
    + apply countChar_managedReplaced_quote. by left.
    + apply countChar_managedReplaced_quote. by right.
    + apply countChar_managedReplaced_amp.
    + apply Set_of_NoDup.
    + intros c. rewrite Set_of_elem, list_elem_of_filter, managedClass_cases.
      split; [|tauto]. intros [Hc Hin]. split; [done|].
      destruct Hc as [->|[->|[->|[->| ->]]]]; tauto.
  - by destruct strictMode; vm_compute.
Qed.

(** The theorem at a text with the three characters, one of them twice. *)
Lemma escapeString_character_fidelity_witness :
  let T := js "R&D's " ++ dq :: js "lab" ++ [dq] in
  ∃ chars,
    escapeString false T = RetObject (js "R&amp;D&apos;s &quot;lab&quot;") chars ∧
    countToken (js "&apos;") (managedReplaced T) = countChar "'" T ∧
    countToken (js "&quot;") (managedReplaced T) = countChar dq T ∧
    countToken (js "&amp;") (managedReplaced T) = countChar "&" T ∧
    countChar "'" (managedReplaced T) = 0 ∧
    countChar dq (managedReplaced T) = 0 ∧
    countChar "&" (managedReplaced T)
    = countChar "'" T + countChar dq T + countChar "&" T ∧
    NoDup chars ∧
    (∀ c, c ∈ chars ↔ (c ∈ T) ∧ (c = "'" ∨ c = dq ∨ c = "&")).
Proof.
  intros T.
  assert ("<" ∉ T) as Hlt
    by (intros H%list_elem_of_In; vm_compute in H; intuition discriminate).
  assert (">" ∉ T) as Hgt
    by (intros H%list_elem_of_In; vm_compute in H; intuition discriminate).
  exact (proj1 (proj2 (escapeString_character_fidelity false T Hlt Hgt))
           eq_refl eq_refl).
Defined.

(** C3 as the spec states it fails on a text that an exclusion heuristic
    meets and on a text with a recognised entity. The first text looks
    like an address with a query: outside strict mode it is given back
    with its ampersand, and no entity token stands for it. The second
    holds an entity and an apostrophe: in both modes it is given back with
    the apostrophe. *)
Lemma excluded_text_keeps_characters :
  let url := js "search?q=a&lang=en" in
  let mixed := js "Tom &amp; Jerry's" in
  ¬ (∀ T, "<" ∉ T → ">" ∉ T →
       ∃ escaped chars,
         escapeString false T = RetObject escaped chars
         ∧ countToken (js "&amp;") escaped = countChar "&" T) ∧
  (("<" ∉ url) ∧ (">" ∉ url) ∧ countChar "&" url = 1
   ∧ escapeString false url = RetString url ∧ countToken (js "&amp;") url = 0) ∧
  (("<" ∉ mixed) ∧ (">" ∉ mixed) ∧ countChar "'" mixed = 1
   ∧ escapeString false mixed = RetString mixed
   ∧ escapeString true mixed = RetString mixed
   ∧ countToken (js "&apos;") mixed = 0).
Proof.
  intros url mixed.
  assert (∀ s : jsstring, Forall (λ c, c ≠ "<" ∧ c ≠ ">") s → ("<" ∉ s) ∧ (">" ∉ s)) as Hno.
  { intros s Hs. split; intros Hin; by destruct (proj1 (Forall_forall _ _) Hs _ Hin). }
  assert (("<" ∉ url) ∧ (">" ∉ url)) as [Hlt Hgt]
    by (apply Hno; repeat constructor; discriminate).
  assert (("<" ∉ mixed) ∧ (">" ∉ mixed)) as [Hlt' Hgt']
    by (apply Hno; repeat constructor; discriminate).
  split_and!; try done.
  intros H. destruct (H url Hlt Hgt) as (escaped & chars & Hobj & _).
  vm_compute in Hobj. discriminate Hobj.
Qed.

(** ** The check on the line window *)

Example window_exact_match :
  isAlreadyEscapedInLineWindow (λ _, Some (js "<p>It&apos;s</p>")) (js "a.jsx") 1 (js "It's")
  = WMatched (js "high") (js "exact_match").
Proof. vm_compute. reflexivity. Qed.

Example window_no_match :
  isAlreadyEscapedInLineWindow (λ _, Some (js "<p>It's</p>")) (js "a.jsx") 1 (js "It's")
  = WNotMatched.
Proof. vm_compute. reflexivity. Qed.

Lemma window_check_guard (readFileSync : jsstring → option jsstring)
    (filePath : jsstring) (lineNumber : nat) (originalString : jsstring) :
  Str.includes originalString ["'"] = false →
  Str.includes originalString [dq] = false →
  isAlreadyEscapedInLineWindow readFileSync filePath lineNumber originalString = WFalse.
Proof.
  intros Ha Hq. unfold isAlreadyEscapedInLineWindow.
  change (js "'") with ["'"]. by rewrite Ha, Hq.
Qed.

(** C9. For an original text with neither an apostrophe nor a double quote
    [isAlreadyEscapedInLineWindow] returns the value [false] before it reads
    the file, so its result has no [matched] property that holds, whatever
    the file holds (or when the file cannot be read), at every line number:
    a candidate whose managed characters are ampersands and angle brackets
    is never reported as already escaped by this check. *)
Theorem window_check_needs_quote (readFileSync : jsstring → option jsstring)
    (filePath : jsstring) (lineNumber : nat) (originalString : jsstring) :
  "'" ∉ originalString → dq ∉ originalString →
  isAlreadyEscapedInLineWindow readFileSync filePath lineNumber originalString = WFalse
  ∧ matched (isAlreadyEscapedInLineWindow readFileSync filePath lineNumber originalString)
    = false.
Proof.
  intros Ha%includes_char_false Hq%includes_char_false.
  by rewrite window_check_guard.
Qed.

(** The theorem at a text with an ampersand and angle brackets, on a file
    that holds the escaped forms of all of them. *)
Lemma window_check_needs_quote_witness :
  let readFileSync := λ _ : jsstring, Some (js "a &lt; b &amp;&amp; c &gt; d") in
  let originalString := js "a < b && c > d" in
  isAlreadyEscapedInLineWindow readFileSync (js "a.js") 1 originalString = WFalse
  ∧ matched (isAlreadyEscapedInLineWindow readFileSync (js "a.js") 1 originalString)
    = false.
Proof.
  intros readFileSync originalString.
  apply (window_check_needs_quote readFileSync (js "a.js") 1 originalString).
  - intros H%list_elem_of_In. vm_compute in H. intuition discriminate.
  - intros H%list_elem_of_In. vm_compute in H. intuition discriminate.
Defined.

Example applyLiteralFix_example :
  applyLiteralFix [js "const a = 1;"; js "say('R&D');"]
    (literalFix 2 4 (js "R&D") (js "R&amp;D") ["&"])
  = ([js "const a = 1;"; js "say('R&amp;D');"], Replaced).
Proof. vm_compute. reflexivity. Qed.

Example applyLiteralFix_stale :
  applyLiteralFix [js "const a = 1;"; js "say('R&B');"]
    (literalFix 2 4 (js "R&D") (js "R&amp;D") ["&"])
  = ([js "const a = 1;"; js "say('R&B');"], Mismatch).
Proof. vm_compute. reflexivity. Qed.

(** ** Facts on the literal patch *)

Section PatchFacts.

Implicit Types (s pre post orig esc : jsstring) (q : ascii).

Lemma startsWith_char s q : Str.startsWith s [q] = true ↔ s !! 0 = Some q.
Proof.
  destruct s as [|d s]; simpl; [done|].
  rewrite andb_true_r, Ascii.eqb_eq. split; [by intros -> | by intros [= ->]].
Qed.

(** The first occurrence of a character from a position on. *)
Lemma search_char s q i r :
  Str.search [q] s i = Some r ↔
  ∃ k, r = i + k ∧ s !! k = Some q ∧ ∀ j, j < k → s !! j ≠ Some q.
Proof.
  revert i; induction s as [|d s IH]; intros i.
  - simpl. split; [done|]. by intros (k & _ & ? & _).
  - cbn [Str.search].
    destruct (Str.startsWith (d :: s) [q]) eqn:Hst.
    + apply startsWith_char in Hst. split.
      * intros [= <-]. exists 0. split_and!; [lia|done|lia].
      * intros (k & -> & Hk & Hmin). destruct k as [|k]; [f_equal; lia|].
        by destruct (Hmin 0 ltac:(lia)).
    + assert (d ≠ q) as Hne.
      { intros ->. by rewrite (proj2 (startsWith_char (q :: s) q)) in Hst. }
      rewrite IH. split.
      * intros (k & -> & Hk & Hmin). exists (S k). split_and!; [lia|done|].
        intros [|j] Hj; simpl; [congruence|]. apply Hmin. lia.
      * intros (k & -> & Hk & Hmin). destruct k as [|k]; [simpl in Hk; congruence|].
        exists k. split_and!; [lia|done|].
        intros j Hj. apply (Hmin (S j)). lia.
Qed.

Lemma indexOf_char s q pos r :
  Str.indexOf s [q] pos = Some r ↔
  pos ≤ r ∧ s !! r = Some q ∧ ∀ j, pos ≤ j < r → s !! j ≠ Some q.
Proof.
  unfold Str.indexOf. rewrite search_char. split.
  - intros (k & -> & Hk & Hmin). rewrite lookup_drop in Hk.
    pose proof (lookup_lt_Some _ _ _ Hk).
    rewrite Nat.min_l in * by lia.
    split_and!; [lia|done|].
    intros j Hj. replace j with (pos + (j - pos)) by lia.
    rewrite <- lookup_drop. apply Hmin. lia.
  - intros (Hle & Hr & Hmin). pose proof (lookup_lt_Some _ _ _ Hr).
    rewrite Nat.min_l by lia. exists (r - pos). split_and!; [lia| |].
    + rewrite lookup_drop. by replace (pos + (r - pos)) with r by lia.
    + intros j Hj. rewrite lookup_drop. apply Hmin. lia.
Qed.

Lemma indexOf_past_end s t pos :
  length s ≤ pos → t ≠ [] → Str.indexOf s t pos = None.
Proof.
  intros Hlen Ht. unfold Str.indexOf.
  rewrite Nat.min_r, drop_all by lia. by destruct t.
Qed.

Lemma drop_past_middle pre q rest n :
  n = length pre + 1 → drop n (pre ++ q :: rest) = rest.
Proof. intros ->. induction pre as [|c pre IH]; simpl; [by rewrite drop_0|done]. Qed.

Lemma take_past_middle pre q rest n :
  n = length pre + 1 → take n (pre ++ q :: rest) = pre ++ [q].
Proof.
  intros ->. induction pre as [|c pre IH]; simpl; [by rewrite take_0|by f_equal].
Qed.

Lemma substring_take_drop s a b :
  a ≤ b → b ≤ length s → Str.substring s a b = take (b - a) (drop a s).
Proof.
  intros Hab Hb. unfold Str.substring. f_equal; [lia|f_equal; lia].
Qed.

(** The literal branch replaces exactly when the candidate is in its
    place, and then only the text between the two quotes. *)
Lemma patchLine_Replaced s col orig esc s' :
  patchLine s col orig esc = (s', Replaced) ↔
  ∃ pre q post,
    s = pre ++ q :: orig ++ q :: post ∧ length pre = col ∧ orig ≠ [] ∧ (q ∉ orig)
    ∧ s' = pre ++ q :: esc ++ q :: post.
Proof.
  unfold patchLine. split.
  - destruct (s !! col) as [q|] eqn:Hq.
    2:{ apply lookup_ge_None in Hq.
        by rewrite indexOf_past_end by (done || lia). }
    destruct (Str.indexOf s [q] (col + 1)) as [cp|] eqn:Hidx; [|done].
    destruct (Nat.ltb_spec (col + 1) cp) as [Hlt|]; [|done].
    case_bool_decide as Hcontent; [|done]. intros [= <-].
    apply indexOf_char in Hidx as (_ & Hcp & Hmin).
    pose proof (lookup_lt_Some _ _ _ Hcp) as Hlen.
    rewrite substring_take_drop in Hcontent by lia.
    rewrite substring_take_drop by lia. unfold Str.substring_from.
    exists (take col s), q, (drop (S cp) s).
    assert (s = take col s ++ q :: orig ++ q :: drop (S cp) s) as Hs.
    { rewrite <- Hcontent.
      rewrite <- (take_drop col s) at 1. f_equal.
      rewrite (drop_S s q col Hq). f_equal.
      replace (col + 1) with (S col) by lia.
      rewrite <- (take_drop (cp - S col) (drop (S col) s)) at 1. f_equal.
      rewrite drop_drop. replace (S col + (cp - S col)) with cp by lia.
      by apply drop_S. }
    split_and!.
    + exact Hs.
    + rewrite length_take. lia.
    + intros ->. apply (f_equal length) in Hcontent.
      rewrite length_take, length_drop in Hcontent. simpl in Hcontent. lia.
    + intros Hin. apply list_elem_of_lookup in Hin as [j Hj].
      rewrite <- Hcontent in Hj. apply lookup_take_Some in Hj as [Hj Hjlt].
      rewrite lookup_drop in Hj. apply (Hmin (col + 1 + j)); [lia|done].
    + rewrite Nat.sub_0_r, drop_0.
      replace (col + 1) with (S col) by lia.
      rewrite (take_S_r s col q Hq), <- app_assoc. simpl.
      do 3 f_equal. by apply drop_S.
  - intros (pre & q & post & -> & <- & Hne & Hnotin & ->).
    assert ((pre ++ q :: orig ++ q :: post) !! length pre = Some q) as ->.
    { by rewrite list_lookup_middle. }
    assert (Str.indexOf (pre ++ q :: orig ++ q :: post) [q] (length pre + 1)
            = Some (length pre + 1 + length orig)) as ->.
    { apply indexOf_char. split_and!; [lia| |].
      - rewrite lookup_app_r by lia.
        replace (length pre + 1 + length orig - length pre) with (S (length orig)) by lia.
        simpl. by rewrite list_lookup_middle.
      - intros j Hj. rewrite lookup_app_r by lia.
        replace (j - length pre) with (S (j - length pre - 1)) by lia. simpl.
        rewrite lookup_app_l by lia. intros Hin.
        apply Hnotin. by eapply list_elem_of_lookup_2. }
    assert (0 < length orig) by (destruct orig; simpl; [done|lia]).
    destruct (Nat.ltb_spec (length pre + 1) (length pre + 1 + length orig)); [|lia].
    rewrite !substring_take_drop
      by (rewrite ?length_app; simpl; rewrite ?length_app; simpl; lia).
    unfold Str.substring_from.
    replace (length pre + 1 + length orig - (length pre + 1)) with (length orig) by lia.
    rewrite (drop_past_middle pre q) by done.
    rewrite take_app_length, bool_decide_eq_true_2 by done.
    rewrite Nat.sub_0_r, drop_0, (take_past_middle pre q) by done.
    rewrite <- app_assoc. simpl. do 4 f_equal.
    replace (pre ++ q :: orig ++ q :: post) with ((pre ++ q :: orig) ++ q :: post)
      by (by rewrite <- app_assoc).
    rewrite drop_app_length'; [done|]. rewrite length_app. simpl. lia.
Qed.

(** In every other case the line is left as it is. *)
Lemma patchLine_unchanged s col orig esc s' o :
  patchLine s col orig esc = (s', o) → o ≠ Replaced → s' = s.
Proof.
  unfold patchLine.
  destruct (Str.indexOf s _ (col + 1)) as [cp|]; [|by intros [= <- <-]].
  destruct (col + 1 <? cp)%nat; [|by intros [= <- <-]].
  case_bool_decide; [by intros [= <- <-]|by intros [= <- <-]].
Qed.

End PatchFacts.

Section FrameFacts.

Implicit Types (fileLines : list jsstring) (fx : StringFix).

Lemma lineAt_insert_eq fileLines L s t :
  lineAt fileLines L = Some s → lineAt (<[L - 1 := t]> fileLines) L = Some t.
Proof.
  destruct L as [|i]; simpl; [done|]. rewrite Nat.sub_0_r.
  intros H%lookup_lt_Some. by apply list_lookup_insert_eq.
Qed.

Lemma lineAt_insert_ne fileLines L L' t :
  L ≠ 0 → L' ≠ L → lineAt (<[L - 1 := t]> fileLines) L' = lineAt fileLines L'.
Proof.
  destruct L as [|i]; [done|]. destruct L' as [|i']; [done|]. simpl.
  rewrite Nat.sub_0_r. intros _ Hne. apply list_lookup_insert_ne. congruence.
Qed.

Lemma lineAt_Some_ne_0 fileLines L s : lineAt fileLines L = Some s → L ≠ 0.
Proof. by destruct L. Qed.

(** The cases of the literal branch. *)
Lemma applyLiteralFix_cases fileLines fx fileLines' outcome :
  applyLiteralFix fileLines fx = (fileLines', outcome) →
  (outcome ≠ Replaced ∧ fileLines' = fileLines) ∨
  (outcome = Replaced ∧
   ∃ pre q post,
     lineAt fileLines (line (loc_start fx))
     = Some (pre ++ q :: original fx ++ q :: post) ∧
     length pre = column (loc_start fx) ∧ original fx ≠ [] ∧ (q ∉ original fx) ∧
     fileLines' = <[line (loc_start fx) - 1 := pre ++ q :: escaped fx ++ q :: post]> fileLines).
Proof.
  unfold applyLiteralFix.
  destruct (lineAt fileLines (line (loc_start fx))) as [targetLine|] eqn:Hline;
    [|intros [= <- <-]; by left].
  destruct (patchLine targetLine _ _ _) as [newLine o] eqn:Hpatch.
  destruct o; try (intros [= <- <-]; by left).
  intros [= <- <-]. right. split; [done|].
  apply patchLine_Replaced in Hpatch as (pre & q & post & -> & Hlen & Hne & Hq & ->).
  by exists pre, q, post.
Qed.

End FrameFacts.

(** C10. An approved fix of a literal candidate changes at most the line at
    the start line of the candidate: the array keeps its length and every
    other line; when the line is rewritten, the column holds a quote, the
    original text stands between it and the next such quote, and the new
    line differs from the old one in this text alone, which is now the
    escaped text. In every other case, among them a content that is not the
    expected original, no line of the array is changed. *)
Theorem literal_fix_frame (fileLines fileLines' : list jsstring) (fx : StringFix)
    (outcome : PatchOutcome) :
  applyLiteralFix fileLines fx = (fileLines', outcome) →
  length fileLines' = length fileLines ∧
  (∀ L, L ≠ line (loc_start fx) → lineAt fileLines' L = lineAt fileLines L) ∧
  (outcome = Replaced →
   ∃ pre q post,
     lineAt fileLines (line (loc_start fx)) = Some (pre ++ q :: original fx ++ q :: post) ∧
     length pre = column (loc_start fx) ∧ (q ∉ original fx) ∧
     lineAt fileLines' (line (loc_start fx)) = Some (pre ++ q :: escaped fx ++ q :: post)) ∧
  (outcome ≠ Replaced → fileLines' = fileLines) ∧
  (∀ targetLine,
     lineAt fileLines (line (loc_start fx)) = Some targetLine →
     ¬ Located targetLine (column (loc_start fx)) (original fx) →
     outcome ≠ Replaced ∧ fileLines' = fileLines).
Proof.
  intros Happ.
  apply applyLiteralFix_cases in Happ
    as [[Ho ->]|[-> (pre & q & post & Hline & Hlen & Hne & Hq & ->)]].
  - split_and!; try done.
  - split_and!.
    + apply length_insert.
    + intros L HL. apply lineAt_insert_ne; [|done].
      by eapply lineAt_Some_ne_0.
    + intros _. exists pre, q, post. split_and!; try done.
      by eapply lineAt_insert_eq.
    + done.
    + intros targetLine Htl Hnot. exfalso. apply Hnot.
      rewrite Hline in Htl. injection Htl as <-. by exists pre, q, post.
Qed.

(** The theorem at a file of two lines, for a fix that applies. *)
Lemma literal_fix_frame_witness :
  let fileLines := [js "const a = 1;"; js "say('R&D');"] in
  let fileLines' := [js "const a = 1;"; js "say('R&amp;D');"] in
  let fx := literalFix 2 4 (js "R&D") (js "R&amp;D") ["&"] in
  length fileLines' = length fileLines ∧
  (∀ L, L ≠ line (loc_start fx) → lineAt fileLines' L = lineAt fileLines L) ∧
  (Replaced = Replaced →
   ∃ pre q post,
     lineAt fileLines (line (loc_start fx)) = Some (pre ++ q :: original fx ++ q :: post) ∧
     length pre = column (loc_start fx) ∧ (q ∉ original fx) ∧
     lineAt fileLines' (line (loc_start fx)) = Some (pre ++ q :: escaped fx ++ q :: post)) ∧
  (Replaced ≠ Replaced → fileLines' = fileLines) ∧
  (∀ targetLine,
     lineAt fileLines (line (loc_start fx)) = Some targetLine →
     ¬ Located targetLine (column (loc_start fx)) (original fx) →
     Replaced ≠ Replaced ∧ fileLines' = fileLines).
Proof.
  intros fileLines fileLines' fx.
  apply (literal_fix_frame fileLines fileLines' fx Replaced).
  vm_compute. reflexivity.
Defined.

(** ** The order of the patches *)

Section SortFacts.

Context {A : Type} (cmp : A → A → Z).

Lemma sortInsert_Permutation x l : sortInsert cmp x l ≡ₚ x :: l.
Proof.
  induction l as [|y l IH]; simpl; [done|].
  destruct (Z.leb (cmp x y) 0); [done|].
  rewrite IH. apply Permutation_swap.
Qed.

Lemma Array_sort_Permutation l : Array_sort cmp l ≡ₚ l.
Proof.
  induction l as [|x l IH]; simpl; [done|].
  by rewrite sortInsert_Permutation, IH.
Qed.

(** The comparison decides a total relation [R]. *)
Variable R : relation A.

Hypothesis cmp_le : ∀ x y, (cmp x y ≤ 0)%Z → R x y.

Hypothesis cmp_gt : ∀ x y, (0 < cmp x y)%Z → R y x.



End SortFacts.



Global Instance fixBefore_trans : Transitive fixBefore.
Proof. intros a b c. unfold fixBefore. lia. Qed.


Example rewriteLine_example :
  rewriteLine (js "f('a&b', 'c&d');")
    [literalFix 1 2 (js "a&b") (js "a&amp;b") ["&"];
     literalFix 1 9 (js "c&d") (js "c&amp;d") ["&"]]
  = js "f('a&amp;b', 'c&amp;d');".
Proof. vm_compute. reflexivity. Qed.

Example applyLiteralFixes_descending :
  applyLiteralFixes [js "f('a&b', 'c&d');"]
    (Array_sort compareFixes
       [literalFix 1 2 (js "a&b") (js "a&amp;b") ["&"];
        literalFix 1 9 (js "c&d") (js "c&amp;d") ["&"]])
  = ([js "f('a&amp;b', 'c&amp;d');"], [Replaced; Replaced]).
Proof. vm_compute. reflexivity. Qed.

(** In the order of the file the second patch finds its offsets moved. *)
Example applyLiteralFixes_ascending :
  applyLiteralFixes [js "f('a&b', 'c&d');"]
    [literalFix 1 2 (js "a&b") (js "a&amp;b") ["&"];
     literalFix 1 9 (js "c&d") (js "c&amp;d") ["&"]]
  = ([js "f('a&amp;b', 'c&d');"], [Replaced; NoClosingQuote]).
Proof. vm_compute. reflexivity. Qed.

Section PositionSafety.

Implicit Types (fx g : StringFix) (s : jsstring) (l : list StringFix).

(** The file as it is when its candidates are collected. *)
Variable fileLines : list jsstring.



(** For one candidate in its place, the rewritten line is the line with
    the text between the two quotes replaced. *)
Lemma rewriteLine_single s fx pre q post :
  s = pre ++ q :: original fx ++ q :: post →
  length pre = column (loc_start fx) →
  rewriteLine s [fx] = pre ++ q :: escaped fx ++ q :: post.
Proof.
  intros -> Hlen. unfold rewriteLine, closingQuote. simpl.
  rewrite Nat.sub_0_r, drop_0, (take_past_middle pre q) by lia.
  rewrite <- app_assoc. simpl. do 3 f_equal.
  replace (pre ++ q :: original fx ++ q :: post)
    with ((pre ++ q :: original fx) ++ q :: post) by (by rewrite <- app_assoc).
  apply drop_app_length'. unfold closingQuote. rewrite length_app. simpl. lia.
Qed.



End PositionSafety.

Section DescendingFacts.

Implicit Types (fx g : StringFix) (l : list StringFix).







End DescendingFacts.

Example descending_patches_final :
  applyLiteralFixes [js "f('a&b', 'c&d');"; js "g('e&f');"]
    (Array_sort compareFixes
       [literalFix 1 2 (js "a&b") (js "a&amp;b") ["&"];
        literalFix 1 9 (js "c&d") (js "c&amp;d") ["&"];
        literalFix 2 2 (js "e&f") (js "e&amp;f") ["&"]])
  = ([js "f('a&amp;b', 'c&amp;d');"; js "g('e&amp;f');"], [Replaced; Replaced; Replaced]).
Proof. vm_compute. reflexivity. Qed.

Example createFixKey_example :
  createFixKey (js "src/App.jsx") 12 4 (js "It's")
  = js "src/App.jsx:12:4:It's".
Proof. vm_compute. reflexivity. Qed.

(** ** Facts on the review loop *)

Section LoopFacts.

Implicit Types (st : State) (loc : Local) (fixKey k : jsstring).

Lemma rejectedFixes_say e st : rejectedFixes (say e st) = rejectedFixes st.
Proof. reflexivity. Qed.

Lemma console_say e st : console (say e st) = console st ++ [e].
Proof. reflexivity. Qed.

Lemma externalWrite_rejected path f st :
  rejectedFixes (externalWrite path f st) = rejectedFixes st.
Proof. by destruct f. Qed.

Lemma externalWrite_console path f st :
  console (externalWrite path f st) = console st.
Proof. by destruct f. Qed.

Lemma checkFileModification_rejected path st b st' :
  checkFileModification path st = (b, st') → rejectedFixes st' = rejectedFixes st.
Proof.
  unfold checkFileModification.
  destruct (statSync_mtimeMs st path); [|by intros [= <- <-]].
  destruct (_ && _); by intros [= <- <-].
Qed.

(** The check writes nothing on the console but its own warning. *)
Lemma checkFileModification_console path st b st' k :
  checkFileModification path st = (b, st') →
  Presented k ∈ console st' → Presented k ∈ console st.
Proof.
  unfold checkFileModification.
  destruct (statSync_mtimeMs st path); [|intros [= <- <-]].
  - destruct (_ && _); intros [= <- <-]; [|done].
    rewrite console_say, elem_of_app, list_elem_of_singleton. by intros [?|?].
  - rewrite console_say, elem_of_app, list_elem_of_singleton. by intros [?|?].
Qed.

Lemma Keeps_refl k st : Keeps k st st.
Proof. by split. Qed.

Lemma Keeps_trans k st1 st2 st3 : Keeps k st1 st2 → Keeps k st2 st3 → Keeps k st1 st3.
Proof. intros [? ?] [? ?]. split; auto. Qed.

Lemma Keeps_say k e st : e ≠ Presented k → Keeps k st (say e st).
Proof.
  intros He. split; [done|].
  rewrite console_say, elem_of_app, list_elem_of_singleton.
  intros [?|?]; [done|congruence].
Qed.

Lemma Keeps_externalWrite k path f st : Keeps k st (externalWrite path f st).
Proof. split; [by rewrite externalWrite_rejected|by rewrite externalWrite_console]. Qed.

Lemma Keeps_check k path st b st' :
  checkFileModification path st = (b, st') → Keeps k st st'.
Proof.
  intros H. split.
  - by rewrite (checkFileModification_rejected _ _ _ _ H).
  - by eapply checkFileModification_console.
Qed.

Lemma Keeps_same k st st' :
  rejectedFixes st' = rejectedFixes st → console st' = console st → Keeps k st st'.
Proof. intros Hr Hc. split; by rewrite ?Hr, ?Hc. Qed.

Lemma Keeps_insert k k' r st :
  Keeps k st (setRejectedFixes (<[k' := r]> (rejectedFixes st)) st).
Proof.
  split; [|done]. simpl. intros Hk.
  destruct (decide (k' = k)) as [->|]; [by rewrite lookup_insert_eq|].
  by rewrite lookup_insert_ne.
Qed.

Lemma applyFix_event fx fl ch fl' ch' ev ctl k :
  applyFix fx fl ch = (fl', ch', ev, ctl) → ev ≠ Presented k.
Proof.
  unfold applyFix. intros H.
  repeat (case_match; simplify_eq); done.
Qed.

Lemma promptLoop_Keeps filePath fx fixKey inputs loc st k :
  match promptLoop filePath fx fixKey inputs loc st with
  | NextFix _ _ st' | Stop _ _ st' => Keeps k st st'
  end.
Proof.
  revert loc st. induction inputs as [|i rest IH]; intros loc st; simpl.
  - apply Keeps_refl.
  - pose proof (Keeps_externalWrite k filePath (external i) st) as Hext.
    set (st1 := externalWrite filePath (external i) st) in *.
    destruct (checkFileModification filePath st1) as [modified st2] eqn:Hchk.
    pose proof (Keeps_check k _ _ _ _ Hchk) as Hk2.
    destruct (key i).
    + (* y *)
      destruct modified.
      * eapply Keeps_trans; [eapply Keeps_trans; [exact Hext|exact Hk2]|].
        by apply Keeps_say.
      * destruct (applyFix fx (fileLines loc) (changed loc))
          as [[[fl ch] ev] ctl] eqn:Happ.
        pose proof (applyFix_event _ _ _ _ _ _ _ k Happ).
        destruct ctl;
          (eapply Keeps_trans; [eapply Keeps_trans; [exact Hext|exact Hk2]|];
           by apply Keeps_say).
    + (* n *)
      destruct modified.
      * eapply Keeps_trans; [eapply Keeps_trans; [exact Hext|exact Hk2]|].
        by apply Keeps_say.
      * eapply Keeps_trans; [eapply Keeps_trans; [exact Hext|exact Hk2]|].
        apply Keeps_insert.
    + (* q *)
      destruct modified.
      * eapply Keeps_trans; [eapply Keeps_trans; [exact Hext|exact Hk2]|].
        by apply Keeps_say.
      * eapply Keeps_trans; [eapply Keeps_trans; [exact Hext|exact Hk2]|].
        destruct (changed loc); [|by apply Keeps_same].
        destruct (statSync_mtimeMs _ _); [by apply Keeps_same|].
        split; [done|]. simpl.
        rewrite elem_of_app, list_elem_of_singleton. by intros [?|?].
    + (* c *)
      specialize (IH loc (say ShowedContext st1)).
      destruct (promptLoop _ _ _ rest loc _);
        (eapply Keeps_trans; [exact Hext|];
         eapply Keeps_trans; [|exact IH]; by apply Keeps_say).
    + (* interrupt *)
      eapply Keeps_trans; [exact Hext|]. by apply Keeps_same.
Qed.

(** A candidate whose key is in the rejection memory is skipped before it
    is presented, and the memory only grows. *)
Lemma reviewFixes_Keeps filePath fixes inputs loc st k :
  is_Some (rejectedFixes st !! k) →
  Keeps k st (reviewFixes filePath fixes inputs loc st).2.
Proof.
  revert inputs loc st. induction fixes as [|fx rest IH]; intros inputs loc st Hk.
  - apply Keeps_refl.
  - simpl. destruct (type fx).
    + destruct (readFileSync st filePath); [|by apply Keeps_say].
      destruct inputs as [|i inputs']; [by apply Keeps_say|].
      assert (Keeps k st (externalWrite filePath (external i)
                            (say (Informed (message fx)) st))) as Hk1.
      { eapply Keeps_trans; [by apply (Keeps_say k (Informed (message fx)))|].
        apply Keeps_externalWrite. }
      destruct (key i); try done;
        (eapply Keeps_trans; [exact Hk1|]; apply IH; by apply Hk1).
    + set (fixKey := createFixKey _ _ _ _).
      unfold isRejected. case_bool_decide as Hrej.
      * eapply Keeps_trans; [by apply (Keeps_say k (SkippedRejected fixKey))|].
        by apply IH.
      * assert (fixKey ≠ k) as Hne by (by intros ->).
        assert (Keeps k st (say (Presented fixKey) st)) as Hk1
          by (apply Keeps_say; congruence).
        pose proof (promptLoop_Keeps filePath fx fixKey inputs loc
                      (say (Presented fixKey) st) k) as Hk2.
        destruct (promptLoop _ _ _ inputs loc _) as [inputs' loc' st'|e loc' st'].
        -- eapply Keeps_trans; [eapply Keeps_trans; [exact Hk1|exact Hk2]|].
           apply IH. apply Hk2. by apply Hk1.
        -- simpl. eapply Keeps_trans; [exact Hk1|exact Hk2].
Qed.

End LoopFacts.

(** The candidates of the demonstration file are what the traversal
    collects in it, and the traversal leaves the state as it is. *)
Example demo_collected :
  traverse false demoPath demoText demoNodes [] demoState = (demoFixes, demoState).
Proof. vm_compute. reflexivity. Qed.

Example demo_all_applied :
  let '(e, st) := processFile demoPath demoFixes [press KeyY; press KeyY; press KeyY]
                    None demoState in
  e = Finished ∧
  readFileSync st demoPath
  = Some (js "f('a&amp;b');" ++ LF :: js "g('c&amp;d');" ++ LF :: js "h('e&amp;f');").
Proof. vm_compute. split; reflexivity. Qed.

(** ** Facts on the traversal *)

Section VisitorFacts.

Implicit Types (st : State) (path : NodePath).

(** An auto-skip stores the key of the candidate. *)
Lemma visitText_AutoSkip strictMode filePath fileContent isJsxText path orig raw st st' :
  visitText strictMode filePath fileContent isJsxText path orig raw st
  = (Skipped AutoSkip, st') →
  ∃ reason,
    isAutoSkipPattern strictMode orig filePath (line (start path)) (column (start path))
    = Some reason ∧
    st' = setRejectedFixes
            (<[createFixKey filePath (line (start path)) (column (start path)) orig
               := autoSkipped filePath path orig reason (clock st)]> (rejectedFixes st)) st.
Proof.
  unfold visitText. intros H.
  repeat (case_match; simplify_eq); by eexists.
Qed.

(** Every other way of leaving a node out, and every push, leaves the
    state as it is. *)
Lemma visitText_state strictMode filePath fileContent isJsxText path orig raw st v st' :
  visitText strictMode filePath fileContent isJsxText path orig raw st = (v, st') →
  v ≠ Skipped AutoSkip → st' = st.
Proof.
  unfold visitText. intros H Hv.
  repeat (case_match; simplify_eq); done.
Qed.

End VisitorFacts.

Lemma scenario_B_reason (filePath : jsstring) (line column : nat) :
  isAutoSkipPattern false (js "& filter=active") filePath line column
  = Some (js "CSS selector pattern").
Proof. reflexivity. Qed.

(** In normal mode the visitor never pushes the text of scenario B: it
    leaves the node out, and when no earlier check does so, the auto-skip
    stores its key with the reason of the selector pattern. *)
Lemma scenario_B_visit (filePath fileContent : jsstring) (path : NodePath) (st : State) :
  value path = js "& filter=active" →
  ∃ why st',
    visitStringLiteral false filePath fileContent path st = (Skipped why, st') ∧
    ((why ≠ AutoSkip ∧ st' = st) ∨
     (why = AutoSkip ∧
      rejectedFixes st' !! createFixKey filePath (line (start path))
                             (column (start path)) (js "& filter=active")
      = Some (autoSkipped filePath path (js "& filter=active")
                (js "CSS selector pattern") (clock st)))).
Proof.
  intros Hvalue. unfold visitStringLiteral. rewrite Hvalue.
  change (hasManaged (js "& filter=active")) with true. cbn [negb].
  destruct (isReactPropValue path); [by eexists _, _; split; [done|left]|].
  unfold visitText. rewrite window_check_guard by done. cbn [matched].
  destruct (checkRawFileContent _ _ _ _); [by eexists _, _; split; [done|left]|].
  cbn [andb].
  destruct (isSafeToEscapeInJsx _ _); cbn [negb];
    [|by eexists _, _; split; [done|left]].
  assert (escapeString false (js "& filter=active")
          = RetObject (js "&amp; filter=active") ["&"]) as ->
    by (vm_compute; reflexivity).
  cbv beta iota.
  rewrite bool_decide_eq_false_2 by (vm_compute; discriminate).
  destruct (isAlreadyFixed _ _ _ _ _); [by eexists _, _; split; [done|left]|].
  rewrite scenario_B_reason.
  eexists _, _. split; [done|]. right. split; [done|].
  simpl. by rewrite lookup_insert_eq.
Qed.

(** C7, as the code has it. For the text of scenario B [escapeString]
    answers with the escape outcome [&amp; filter=active] and the one
    changed character: none of its own exclusion heuristics applies. The
    candidate is excluded in normal mode by [isAutoSkipPattern], whatever
    the file and the position: its first rule (the text starts with an
    ampersand and has a space) answers with the reason of the selector
    pattern, before the rule on query parameters, which the text also
    meets, is reached; the visitor of string literals then leaves the node
    out and never pushes it on the candidate list. In strict mode nothing
    excludes it. *)
Theorem scenario_B_excluded_by_selector_rule (filePath : jsstring) (line column : nat) :
  let str := js "& filter=active" in
  shouldExcludeFromEscaping false str = false ∧
  escapeString false str = RetObject (js "&amp; filter=active") ["&"] ∧
  isAutoSkipPattern false str filePath line column = Some (js "CSS selector pattern") ∧
  Str.includes str (js "&") && Str.includes str (js "filter") = true ∧
  (∀ fileContent path st,
     value path = str →
     ∃ why st', visitStringLiteral false filePath fileContent path st = (Skipped why, st')) ∧
  escapeString true str = RetObject (js "&amp; filter=active") ["&"] ∧
  isAutoSkipPattern true str filePath line column = None.
Proof.
  intros str. split_and!.
  - vm_compute. reflexivity.
  - vm_compute. reflexivity.
  - apply scenario_B_reason.
  - vm_compute. reflexivity.
  - intros fileContent path st Hvalue.
    destruct (scenario_B_visit filePath fileContent path st Hvalue) as (why & st' & H & _).
    by exists why, st'.
  - vm_compute. reflexivity.
  - reflexivity.
Qed.

(** C7 as the spec states it fails: [escapeString] does not give the text
    back, and the reason of the exclusion is not the one of the rule on
    query parameters. *)
Lemma scenario_B_not_query_parameter :
  escapeString false (js "& filter=active") ≠ RetString (js "& filter=active") ∧
  ∀ filePath line column,
    isAutoSkipPattern false (js "& filter=active") filePath line column
    ≠ Some (js "Query parameter pattern").
Proof.
  split.
  - vm_compute. discriminate.
  - intros filePath line column.
    rewrite scenario_B_reason. vm_compute. discriminate.
Qed.

Example scenario_B_auto_skipped :
  let st := {| disk := {[ js "q.js" := {| content := js "const q = '& filter=active';";
                                           mtimeMs := 100 |} ]};
               clock := 200; rejectedFixes := ∅; fileModTimes := ∅; wards := None;
               console := [] |} in
  let path := {| value := js "& filter=active"; start := {| line := 1; column := 10 |};
                 parentType := Some OtherNode; ancestorType := None |} in
  let '(v, st') := visitStringLiteral false (js "q.js")
                     (js "const q = '& filter=active';") path st in
  v = Skipped AutoSkip ∧
  r_reason <$> rejectedFixes st' !! js "q.js:1:10:& filter=active"
  = Some (Some (js "CSS selector pattern")).
Proof. vm_compute. split; reflexivity. Qed.

(** ** Facts on the runs *)

Section RunFacts.

Implicit Types (st : State) (loc : Local) (k fixKey : jsstring).

(** A decline at a prompt, the file being as it was, stores the key. *)
Lemma decline_records filePath fx fixKey rest loc st st' :
  checkFileModification filePath st = (false, st') →
  promptLoop filePath fx fixKey (press KeyN :: rest) loc st
  = NextFix rest loc
      (setRejectedFixes
         (<[fixKey := declined filePath fx (clock st')]> (rejectedFixes st')) st').
Proof. intros H. simpl. by rewrite H. Qed.

(** A decision taken after the file was changed on disk is dropped: the
    array, the flag and the rejection memory stay, and the loop goes on to
    the next candidate. *)
Lemma decision_dropped_when_modified filePath fx fixKey i rest loc st st' :
  key i ≠ KeyC → key i ≠ CtrlC →
  checkFileModification filePath (externalWrite filePath (external i) st) = (true, st') →
  promptLoop filePath fx fixKey (i :: rest) loc st
  = NextFix rest loc (say WarnedAborting st').
Proof.
  intros Hc Hi H. simpl. rewrite H. by destruct (key i).
Qed.

Lemma writeBack_Keeps filePath racing n loc st k :
  Keeps k st (writeBack filePath racing n loc st).
Proof.
  unfold writeBack. destruct (changed loc).
  - destruct (_ || _); [by apply Keeps_say|].
    set (st1 := writeFileSync _ _ _).
    assert (Keeps k st (externalWrite filePath racing
                          (say (WroteFile (Str.join LF (fileLines loc))) st1)))
      as Hk1.
    { eapply Keeps_trans; [|apply Keeps_externalWrite].
      eapply Keeps_trans; [|by apply Keeps_say]. by apply Keeps_same. }
    destruct (readFileSync _ _) as [newContents|];
      [|eapply Keeps_trans; [exact Hk1|by apply Keeps_say]].
    destruct (statSync_mtimeMs _ _).
    + eapply Keeps_trans; [exact Hk1|].
      eapply Keeps_trans;
        [by apply (Keeps_say k (VerifiedSize (length newContents)))|].
      by apply Keeps_same.
    + eapply Keeps_trans; [exact Hk1|].
      eapply Keeps_trans;
        [by apply (Keeps_say k (VerifiedSize (length newContents)))|].
      by apply Keeps_say.
  - destruct (0 <? n)%nat; [by apply Keeps_say|apply Keeps_refl].
Qed.

Lemma processFile_Keeps filePath fixes inputs racing st k :
  is_Some (rejectedFixes st !! k) →
  Keeps k st (processFile filePath fixes inputs racing st).2.
Proof.
  intros Hk. unfold processFile.
  destruct (disk st !! filePath) as [f|]; [|by apply Keeps_say].
  destruct (MAX_FILE_SIZE <? utf8Length (content f))%N.
  { eapply Keeps_trans; [|by apply Keeps_say]. by apply Keeps_same. }
  destruct fixes as [|fx fixes]; [by apply Keeps_same|].
  set (st0 := setFileModTimes _ st).
  set (sorted := Array_sort compareFixes (fx :: fixes)).
  set (loc := {| fileLines := _; changed := false |}).
  pose proof (reviewFixes_Keeps filePath sorted inputs loc st0 k Hk) as Hk1.
  destruct (reviewFixes filePath sorted inputs loc st0) as [[e loc'] st'].
  simpl in Hk1.
  destruct e; simpl; try exact Hk1.
  eapply Keeps_trans; [exact Hk1|apply writeBack_Keeps].
Qed.

Lemma processAndSave_Keeps filePath fixes inputs racing st k :
  is_Some (rejectedFixes st !! k) →
  Keeps k st (processAndSave filePath fixes inputs racing st).2.
Proof.
  intros Hk. unfold processAndSave.
  pose proof (processFile_Keeps filePath fixes inputs racing st k Hk) as Hk1.
  destruct (processFile filePath fixes inputs racing st) as [e st'].
  by destruct e.
Qed.

(** The history that [processAndSave] leaves on disk holds the memory at
    the end of the file. *)
Lemma processAndSave_saved filePath fixes inputs racing st e st' :
  processAndSave filePath fixes inputs racing st = (e, st') →
  e = Finished ∨ e = Returned → wards st' = Some (rejectedFixes st').
Proof.
  unfold processAndSave.
  destruct (processFile filePath fixes inputs racing st) as [e0 st0].
  destruct e0; intros [= <- <-]; by intros [?|?].
Qed.

End RunFacts.

(** What holds of the rejection memory. A decline at a prompt and an
    auto-skip in the traversal store the key of the candidate in the
    memory. A key in the memory stays in it for the rest of the file, the
    candidate of that key is skipped before it is presented, and the memory
    is what the history on disk holds when [processFile] has returned. A
    later run that loads a history holding the key presents no candidate of
    that key, whatever candidates the traversal collects and whatever the
    user answers. *)
Lemma rejected_key_not_presented (filePath fixKey : jsstring) :
  (∀ fx rest loc st st',
     checkFileModification filePath st = (false, st') →
     ∃ st'', promptLoop filePath fx fixKey (press KeyN :: rest) loc st
             = NextFix rest loc st''
             ∧ is_Some (rejectedFixes st'' !! fixKey)) ∧
  (∀ strictMode fileContent isJsxText path orig raw st st',
     fixKey = createFixKey filePath (line (start path)) (column (start path)) orig →
     visitText strictMode filePath fileContent isJsxText path orig raw st
     = (Skipped AutoSkip, st') →
     is_Some (rejectedFixes st' !! fixKey)) ∧
  (∀ fixes inputs racing st e st',
     is_Some (rejectedFixes st !! fixKey) →
     processAndSave filePath fixes inputs racing st = (e, st') →
     is_Some (rejectedFixes st' !! fixKey) ∧
     (Presented fixKey ∈ console st' → Presented fixKey ∈ console st) ∧
     (e = Finished ∨ e = Returned → wards st' = Some (rejectedFixes st'))) ∧
  (∀ st r fixes inputs racing,
     wards st = Some r → is_Some (r !! fixKey) →
     Presented fixKey ∉ console (processAndSave filePath fixes inputs racing
                                   (startRun false st)).2).
Proof.
  split_and!.
  - intros fx rest loc st st' Hchk. eexists. split; [by apply decline_records|].
    simpl. by rewrite lookup_insert_eq.
  - intros strictMode fileContent isJsxText path orig raw st st' -> Hvisit.
    apply visitText_AutoSkip in Hvisit as (reason & _ & ->).
    simpl. by rewrite lookup_insert_eq.
  - intros fixes inputs racing st e st' Hk Hrun.
    pose proof (processAndSave_Keeps filePath fixes inputs racing st fixKey Hk) as [H1 H2].
    rewrite Hrun in H1, H2. simpl in H1, H2. split_and!; [by apply H1|done|].
    by eapply processAndSave_saved.
  - intros st r fixes inputs racing Hw Hr.
    assert (is_Some (rejectedFixes (startRun false st) !! fixKey)) as Hk.
    { unfold startRun, loadRejectedFixes. simpl. by rewrite Hw. }
    pose proof (processAndSave_Keeps filePath fixes inputs racing _ fixKey Hk) as [_ H2].
    intros Hin. apply H2 in Hin.
    unfold startRun, loadRejectedFixes in Hin. simpl in Hin. rewrite Hw in Hin.
    simpl in Hin. by apply elem_of_nil in Hin.
Qed.

(** When the run goes through the file, the declines are saved and the
    next run presents none of the declined candidates. *)
Example second_run_prompts_nothing :
  let first := (processParsedAndSave false demoPath demoNodes
                  [press KeyN; press KeyN; press KeyN] None demoState).2 in
  console (processParsedAndSave false demoPath demoNodes
             [press KeyY; press KeyY; press KeyY] None (startRun false first)).2
  = [SkippedRejected (js "a.js:3:2:e&f"); SkippedRejected (js "a.js:2:2:c&d");
     SkippedRejected (js "a.js:1:2:a&b"); LoggedNoChanges].
Proof. vm_compute. reflexivity. Qed.

(** C8, at an input on which the code fails it. The program runs in strict
    mode on a file in which the traversal collects a candidate for a fix
    on the third line and, for the literal of the second line, an
    information entry. The candidate is presented first and the user
    declines it with n: its key is in the rejection memory. At the prompt
    of the information entry the user presses the interrupt key, and
    [waitForAnyKey] ends the process without saving the memory: no history
    is on disk. The file is as it was. The next run loads no decline and
    presents the same candidate again. *)
Theorem decline_lost_at_information_prompt :
  let fixKey := js "a.js:3:10:R&D" in
  let st := fileState demoPath storyText in
  let first := processParsedAndSave true demoPath storyNodes
                 [press KeyN; press CtrlC] None (startRun false st) in
  let second := processParsedAndSave true demoPath storyNodes
                  [press KeyY; press KeyY] None (startRun false first.2) in
  first.1 = Exited ∧
  console first.2
  = [Presented fixKey;
     Informed (js "Potentially already escaped content at a.js:2 (context_pattern)")] ∧
  is_Some (rejectedFixes first.2 !! fixKey) ∧
  wards first.2 = None ∧
  disk first.2 = disk st ∧
  Presented fixKey ∈ console second.2.
Proof.
  vm_compute. split_and!; [reflexivity|reflexivity|by eexists|reflexivity|reflexivity|].
  apply list_elem_of_In. simpl. tauto.
Qed.

(** C5, at an input on which the code fails it. The file has three string
    literals with an ampersand, and the traversal collects a candidate for
    each. The first approval patches the last line in memory. While the
    second prompt waits, another program saves the file. The check finds
    the time changed and warns, but only the prompt loop of this candidate
    is left: the third candidate is presented as well (its decision is
    dropped in the same way), and the write-back at the end writes the
    array with the pending patch over what the other program saved. *)
Theorem external_change_overwritten :
  let inputs := [press KeyY; editedThenPress (js "edited elsewhere") 150 KeyY; press KeyY] in
  let '(e, st) := processParsedFile false demoPath demoNodes inputs None demoState in
  e = Finished ∧
  console st
  = [Presented (js "a.js:3:2:e&f"); AppliedLiteral Replaced;
     Presented (js "a.js:2:2:c&d"); WarnedModified; WarnedAborting;
     Presented (js "a.js:1:2:a&b"); WarnedModified; WarnedAborting;
     WroteFile (js "f('a&b');" ++ LF :: js "g('c&d');" ++ LF :: js "h('e&amp;f');");
     VerifiedSize 33] ∧
  readFileSync st demoPath
  = Some (js "f('a&b');" ++ LF :: js "g('c&d');" ++ LF :: js "h('e&amp;f');").
Proof. vm_compute. split_and!; reflexivity. Qed.

(** The write-back refuses a text with one of the two patterns: the disk
    is left as it is. *)
Lemma writeBack_refuses filePath racing n loc st :
  changed loc = true →
  Str.includes (Str.join LF (fileLines loc)) (js "&amp;lt;") = true
  ∨ Str.includes (Str.join LF (fileLines loc)) (js "&amp;gt;") = true →
  writeBack filePath racing n loc st = say RefusedCorrupted st ∧
  writeBackVerified filePath racing n loc st = (false, say RefusedCorrupted st).
Proof.
  intros Hch Hpat. unfold writeBack, writeBackVerified. rewrite Hch.
  assert (Str.includes (Str.join LF (fileLines loc)) (js "&amp;lt;")
          || Str.includes (Str.join LF (fileLines loc)) (js "&amp;gt;") = true) as ->; [|done].
  apply orb_true_iff. tauto.
Qed.

(** The write with verification reports success only when the text read
    back is the text it was given. *)
Lemma writeFileWithVerification_Some filePath text racing st n st' :
  writeFileWithVerification filePath text racing st = (Some n, st') →
  readFileSync st' filePath = Some text ∧ n = length text.
Proof.
  unfold writeFileWithVerification.
  destruct (readFileSync _ _) as [newContent|] eqn:Hread; [|done].
  case_bool_decide as Heq; [|done]. intros [= <- <-]. by subst.
Qed.

(** C6, at an input on which [processFile] fails it. The text to write has
    none of the two patterns. Another program writes the file between the
    write and the read that follows it. [processFile] reads the file back,
    logs its length and records the new time: nothing tells that the file
    does not hold the intended text. The write with verification of
    [lib/file.js], used by [processFileFixes], compares the two texts and
    fails. *)
Theorem write_back_not_compared :
  let loc := {| fileLines := [js "f('a&amp;b');"]; changed := true |} in
  let racing := Some {| content := js "x"; mtimeMs := 300 |} in
  let st := writeBack demoPath racing 1 loc demoState in
  readFileSync st demoPath = Some (js "x") ∧
  console st = [WroteFile (js "f('a&amp;b');"); VerifiedSize 1] ∧
  fileModTimes st !! demoPath = Some 300%N ∧
  (writeBackVerified demoPath racing 1 loc demoState).1 = false ∧
  console (writeBackVerified demoPath racing 1 loc demoState).2 = [LoggedError].
Proof. vm_compute. split_and!; reflexivity. Qed.

(** ** The order in which the candidates are presented *)

Section PresentedFacts.

Implicit Types (st : State) (loc : Local) (fixKey k : jsstring).








End PresentedFacts.

(** ** The loop when every candidate is approved *)

Section ApprovedFacts.

Implicit Types (st : State) (fx : StringFix).


Lemma Untouched_say filePath e st : Untouched filePath st → Untouched filePath (say e st).
Proof. done. Qed.





End ApprovedFacts.



Example pair_all_applied :
  let '(e, st) := processParsedFile false demoPath pairNodes
                    [press KeyY; press KeyY; press KeyY] None
                    (fileState demoPath pairText) in
  e = Finished ∧
  presentedKeys (console st) = [js "a.js:2:2:e&f"; js "a.js:1:9:c&d"; js "a.js:1:2:a&b"] ∧
  readFileSync st demoPath
  = Some (js "f('a&amp;b', 'c&amp;d');" ++ LF :: js "g('e&amp;f');").
Proof. vm_compute. split_and!; reflexivity. Qed.


(** ** The apostrophe loop of the branch for text on several lines ends *)

Section ApostropheLoop.

Implicit Types (s newLine : jsstring).

Lemma countChar_app c s s' : countChar c (s ++ s') = countChar c s + countChar c s'.
Proof. induction s as [|d s IH]; simpl; [done|]. rewrite IH. lia. Qed.

Lemma countChar_le_length c s : countChar c s ≤ length s.
Proof. induction s as [|d s IH]; simpl; [done|]. destruct (Ascii.eqb d c); lia. Qed.

(** An occurrence at [p], at or after [pos], counts among those from [pos]
    on and not among those after [p]. *)
Lemma countChar_drop_found c s pos p :
  pos ≤ p → s !! p = Some c →
  countChar c (drop (p + 1) s) < countChar c (drop pos s).
Proof.
  intros Hle Hp.
  rewrite <- (take_drop (p - pos) (drop pos s)), countChar_app, drop_drop.
  replace (pos + (p - pos)) with p by lia.
  rewrite (drop_S s c p Hp). simpl. rewrite Ascii.eqb_refl.
  replace (p + 1) with (S p) by lia. lia.
Qed.

(** Fuel above the number of apostrophes from [pos] on is never used up:
    more fuel gives the same line. *)
Lemma escapeApostrophes_go_fuel fuel extra newLine pos :
  countChar "'" (drop pos newLine) < fuel →
  escapeApostrophes_go (fuel + extra) newLine pos = escapeApostrophes_go fuel newLine pos.
Proof.
  revert newLine pos. induction fuel as [|fuel IH]; intros newLine pos Hcount; [lia|].
  cbn [Nat.add escapeApostrophes_go].
  destruct (Str.indexOf newLine (js "'") pos) as [p|] eqn:Hidx; [|done].
  apply (indexOf_char newLine "'") in Hidx as (Hle & Hp & _).
  pose proof (countChar_drop_found "'" newLine pos p Hle Hp) as Hlt.
  pose proof (lookup_lt_Some _ _ _ Hp) as Hlen.
  destruct (isInsideJsxTag newLine p); [apply IH; lia|].
  destruct (negb _); [|apply IH; lia].
  apply IH.
  rewrite substring_take_drop by lia. unfold Str.substring_from.
  rewrite Nat.sub_0_r, drop_0.
  replace (p + 6) with (length (take p newLine ++ js "&apos;"))
    by (rewrite length_app, length_take; simpl; lia).
  rewrite app_assoc, drop_app_length. lia.
Qed.

(** The fuel that [escapeApostrophes] starts with is enough. *)
Lemma escapeApostrophes_fuel fileLine extra :
  escapeApostrophes_go (S (length fileLine) + extra) fileLine 0
  = escapeApostrophes fileLine.
Proof.
  apply escapeApostrophes_go_fuel. rewrite drop_0.
  pose proof (countChar_le_length "'" fileLine). lia.
Qed.

End ApostropheLoop.

Example escapeApostrophes_example :
  escapeApostrophes (js "  Don't <b class='x'>stop</b>, it's &apos;fine'")
  = js "  Don&apos;t <b class='x'>stop</b>, it&apos;s &apos;fine&apos;".
Proof. vm_compute. reflexivity. Qed.

(** * Further properties *)

(** ** The keys of the rejection memory *)

Section KeyFacts.

Lemma pretty_N_char_digit x : isDigit (pretty_N_char x) = true.
Proof. unfold pretty_N_char. by repeat case_match. Qed.

Lemma pretty_N_go_digits x s :
  Forall (λ c, isDigit c = true) (js s) →
  Forall (λ c, isDigit c = true) (js (pretty_N_go x s)).
Proof.
  revert s. induction (N.lt_wf_0 x) as [x _ IH]; intros s Hs.
  assert (x = 0 ∨ 0 < x)%N as [->|?] by lia.
  - by rewrite pretty_N_go_0.
  - rewrite pretty_N_go_step by done. apply IH.
    + by apply N.div_lt.
    + simpl. constructor; [apply pretty_N_char_digit|done].
Qed.

Lemma pretty_nat_digits (n : nat) : Forall (λ c, isDigit c = true) (js (pretty n)).
Proof.
  unfold pretty, pretty_nat, pretty, pretty_N.
  case_decide.
  - repeat constructor.
  - apply pretty_N_go_digits. constructor.
Qed.

Lemma js_inj (s s' : string) : js s = js s' → s = s'.
Proof.
  unfold js. intros H.
  rewrite <- (string_of_list_ascii_of_string s), <- (string_of_list_ascii_of_string s').
  by rewrite H.
Qed.

(** Two texts cut at their first colon are equal piece by piece. *)
Lemma cut_at_colon (a a' b b' : jsstring) :
  (":" ∉ a) → (":" ∉ a') → a ++ ":" :: b = a' ++ ":" :: b' → a = a' ∧ b = b'.
Proof.
  revert a'. induction a as [|c a IH]; intros [|c' a'] Ha Ha'; simpl.
  - by intros [= ->].
  - intros [= <- _]. exfalso. apply Ha'. by left.
  - intros [= -> _]. exfalso. apply Ha. by left.
  - apply not_elem_of_cons in Ha as [_ Ha]. apply not_elem_of_cons in Ha' as [_ Ha'].
    intros [= -> H]. by apply IH in H as [-> ->].
Qed.

Lemma digits_no_colon (n : nat) : ":" ∉ js (pretty n).
Proof.
  intros H. pose proof (pretty_nat_digits n) as Hd.
  rewrite Forall_forall in Hd. by apply Hd in H.
Qed.

Lemma createFixKey_parts f f' l l' c c' o o' :
  (":" ∉ f) → (":" ∉ f') →
  createFixKey f l c o = createFixKey f' l' c' o' →
  f = f' ∧ l = l' ∧ c = c' ∧ o = o'.
Proof.
  intros Hf Hf'. unfold createFixKey. simpl.
  intros [-> H]%cut_at_colon; [|done..].
  apply cut_at_colon in H as [Hl H]; [|apply digits_no_colon..].
  apply cut_at_colon in H as [Hc H]; [|apply digits_no_colon..].
  apply js_inj, (inj pretty) in Hl. apply js_inj, (inj pretty) in Hc.
  done.
Qed.

Lemma createFixKey_same_file f l l' c c' o o' :
  createFixKey f l c o = createFixKey f l' c' o' →
  l = l' ∧ c = c' ∧ o = o'.
Proof.
  unfold createFixKey. intros H%app_inv_head. simpl in H.
  injection H as H.
  apply cut_at_colon in H as [Hl H]; [|apply digits_no_colon..].
  apply cut_at_colon in H as [Hc H]; [|apply digits_no_colon..].
  apply js_inj, (inj pretty) in Hl. apply js_inj, (inj pretty) in Hc.
  done.
Qed.

End KeyFacts.

(** X1. The key of a candidate names it: for two candidates of one file, or
    of two files whose paths hold no colon, the keys are equal only when
    the path, the line, the column and the text are. *)
Theorem createFixKey_inj (f f' : jsstring) (l l' c c' : nat) (o o' : jsstring) :
  f = f' ∨ ((":" ∉ f) ∧ (":" ∉ f')) →
  createFixKey f l c o = createFixKey f' l' c' o'
  ↔ f = f' ∧ l = l' ∧ c = c' ∧ o = o'.
Proof.
  intros Hf. split; [|by intros (-> & -> & -> & ->)].
  destruct Hf as [->|[Hf Hf']].
  - intros H%createFixKey_same_file. tauto.
  - by apply createFixKey_parts.
Qed.

Lemma createFixKey_inj_witness :
  createFixKey (js "a.js") 1 12 (js "x") = createFixKey (js "a.js") 11 2 (js "x")
  ↔ js "a.js" = js "a.js" ∧ 1 = 11 ∧ 12 = 2 ∧ js "x" = js "x".
Proof. apply (createFixKey_inj (js "a.js") (js "a.js")). by left. Defined.

(** With a colon in a path two candidates can share a key. *)
Example createFixKey_collision :
  createFixKey (js "a:1") 2 3 (js "x") = createFixKey (js "a") 1 2 (js "3:x").
Proof. reflexivity. Qed.

(** ** The rejection memory of [lib/fixes.js] *)

(** X2. After [addRejectedFix] the candidate is rejected, and every other
    candidate is rejected exactly when it was before, for candidates of
    one file or of files whose paths hold no colon. *)
Theorem addRejectedFix_isFixRejected (f f' : jsstring) (l l' c c' : nat)
    (o o' : jsstring) (reason : option jsstring) (st : State) :
  f = f' ∨ ((":" ∉ f) ∧ (":" ∉ f')) →
  isFixRejected f' l' c' o' (addRejectedFix f l c o reason st)
  = bool_decide (f' = f ∧ l' = l ∧ c' = c ∧ o' = o) || isFixRejected f' l' c' o' st.
Proof.
  intros Hf. unfold isFixRejected, addRejectedFix, isRejected. simpl.
  destruct (decide (createFixKey f l c o = createFixKey f' l' c' o')) as [Hk|Hk].
  - rewrite <- Hk, lookup_insert_eq.
    assert (f = f' ∧ l = l' ∧ c = c' ∧ o = o') as (-> & -> & -> & ->).
    { destruct Hf as [->|[Hf Hf']].
      - apply createFixKey_same_file in Hk. tauto.
      - by apply createFixKey_parts. }
    rewrite bool_decide_eq_true_2 by done.
    by rewrite bool_decide_eq_true_2 by eauto.
  - rewrite lookup_insert_ne by done.
    rewrite (bool_decide_eq_false_2 (_ ∧ _)); [done|].
    intros (-> & -> & -> & ->). done.
Qed.

Lemma addRejectedFix_isFixRejected_witness :
  isFixRejected (js "a.js") 3 2 (js "e&f")
    (addRejectedFix (js "a.js") 1 2 (js "a&b") None demoState)
  = bool_decide (js "a.js" = js "a.js" ∧ 3 = 1 ∧ 2 = 2 ∧ js "e&f" = js "a&b")
    || isFixRejected (js "a.js") 3 2 (js "e&f") demoState.
Proof.
  apply (addRejectedFix_isFixRejected (js "a.js") (js "a.js")). by left.
Defined.

(** ** The position test of the branch for text on several lines *)

Section TagFacts.

Implicit Types (s line : jsstring) (c : ascii).

(** What the scan of [lastIndexOf] for one character gives: the last
    index up to [fuel] at which the character stands, counted from [i]. *)
Lemma lastIndexOf_go_char c fuel : ∀ s i last,
  (Str.lastIndexOf_go [c] s i fuel last = last ∧ ∀ j, j ≤ fuel → s !! j ≠ Some c)
  ∨ (∃ j, j ≤ fuel ∧ Str.lastIndexOf_go [c] s i fuel last = Some (i + j)
          ∧ s !! j = Some c ∧ ∀ k, j < k ≤ fuel → s !! k ≠ Some c).
Proof.
  induction fuel as [|fuel IH]; intros s i last.
  - assert (Str.lastIndexOf_go [c] s i 0 last
            = if Str.startsWith s [c] then Some i else last) as -> by by destruct s.
    destruct (Str.startsWith s [c]) eqn:Hs.
    + right. exists 0. rewrite Nat.add_0_r.
      apply startsWith_char in Hs.
      repeat split; try done. intros k ?; lia.
    + left. split; [done|]. intros j Hj Hc.
      assert (j = 0) as -> by lia.
      apply startsWith_char in Hc. congruence.
  - destruct s as [|d s].
    + left. split; [done|]. intros j _. by rewrite lookup_nil.
    + cbn [Str.lastIndexOf_go].
      destruct (IH s (S i) (if Str.startsWith (d :: s) [c] then Some i else last))
        as [[Hr Hn]|(j & Hj & Hr & Hc & Hn)].
      * rewrite Hr. destruct (Str.startsWith (d :: s) [c]) eqn:Hs.
        -- right. exists 0. rewrite Nat.add_0_r.
           apply startsWith_char in Hs.
           repeat split; [lia|done|]. intros [|k] Hk; [lia|].
           simpl. apply Hn. lia.
        -- left. split; [done|]. intros [|j] Hj.
           ++ intros Hc. apply startsWith_char in Hc. congruence.
           ++ simpl. apply Hn. lia.
      * right. exists (S j). rewrite Hr.
        repeat split; [lia|f_equal; lia|done|].
        intros [|k] Hk; [lia|]. simpl. apply Hn. lia.
Qed.

(** [lastIndexOf] for one character: the last index [<= pos] at which
    it stands. *)
Lemma lastIndexOf_char_Some s c pos i :
  Str.lastIndexOf s [c] pos = Some i
  ↔ i ≤ pos ∧ s !! i = Some c ∧ ∀ j, i < j ≤ pos → s !! j ≠ Some c.
Proof.
  unfold Str.lastIndexOf.
  destruct (lastIndexOf_go_char c pos s 0 None) as [[Hr Hn]|(j & Hj & Hr & Hc & Hn)];
    rewrite Hr.
  - split; [done|]. intros (Hi & Hc & _). by apply Hn in Hc.
  - simpl. split.
    + intros [= <-]. done.
    + intros (Hi & Hci & Hni). f_equal.
      destruct (Nat.lt_trichotomy i j) as [?|[?|?]]; [|done|].
      * exfalso. apply (Hni j); [lia|done].
      * exfalso. apply (Hn i); [lia|done].
Qed.

Lemma lastIndexOf_char_None s c pos :
  Str.lastIndexOf s [c] pos = None ↔ ∀ j, j ≤ pos → s !! j ≠ Some c.
Proof.
  unfold Str.lastIndexOf.
  destruct (lastIndexOf_go_char c pos s 0 None) as [[Hr Hn]|(j & Hj & Hr & Hc & Hn)];
    rewrite Hr.
  - done.
  - split; [done|]. intros H. by apply H in Hc.
Qed.

End TagFacts.

(** X3. A position is inside a tag exactly when an opening bracket stands
    at or before it and no closing bracket stands after that bracket, up to
    the position. *)
Theorem isInsideJsxTag_spec (line : jsstring) (position : nat) :
  isInsideJsxTag line position = true
  ↔ ∃ i, i ≤ position ∧ line !! i = Some "<"
         ∧ ∀ j, i < j ≤ position → line !! j ≠ Some ">".
Proof.
  unfold isInsideJsxTag.
  destruct (Str.lastIndexOf line (js "<") position) as [o|] eqn:Ho.
  - apply lastIndexOf_char_Some in Ho as (Ho & Hlt & Hlast).
    destruct (Str.lastIndexOf line (js ">") position) as [cl|] eqn:Hcl.
    + apply lastIndexOf_char_Some in Hcl as (Hcl & Hgt & Hclast).
      rewrite Nat.ltb_lt. split.
      * intros Hlt'. exists o. repeat split; [done..|].
        intros j Hj Hc. apply (Hclast j) in Hc; [done|].
        destruct (decide (j = cl)) as [->|]; lia.
      * intros (i & Hi & Hci & Hni).
        destruct (Nat.lt_trichotomy cl i) as [?|[->|?]].
        -- destruct (decide (i ≤ o)); [lia|].
           exfalso. apply (Hlast i); [lia|done].
        -- congruence.
        -- exfalso. apply (Hni cl); [lia|done].
    + split; [|done]. intros _. exists o. repeat split; [done..|].
      intros j Hj. apply (proj1 (lastIndexOf_char_None _ _ _) Hcl). lia.
  - split; [done|]. intros (i & Hi & Hci & _).
    exfalso. by apply (proj1 (lastIndexOf_char_None _ _ _) Ho i).
Qed.

(** ** The apostrophe loop *)

Section LoopFacts.

Implicit Types (s t a b pre rest line : jsstring).

Lemma replaceChar_app c r s s' :
  Str.replaceChar c r (s ++ s') = Str.replaceChar c r s ++ Str.replaceChar c r s'.
Proof.
  induction s as [|d s IH]; simpl; [done|].
  destruct (Ascii.eqb d c); rewrite IH; [by rewrite app_assoc|done].
Qed.

Lemma replaceChar_absent c r s : c ∉ s → Str.replaceChar c r s = s.
Proof.
  induction s as [|d s IH]; simpl; [done|].
  intros [Hd Hs]%not_elem_of_cons.
  destruct (Ascii.eqb_spec d c); [congruence|]. by rewrite IH.
Qed.

(** A text that holds a token and is no longer than it is the token. *)
Lemma includes_short s t :
  Str.includes s t = true → length s ≤ length t → s = t.
Proof.
  intros (a & b & ->)%includes_spec. rewrite !length_app.
  intros Hlen.
  assert (length a = 0 ∧ length b = 0) as [Ha Hb] by lia.
  apply nil_length_inv in Ha as ->. apply nil_length_inv in Hb as ->.
  by rewrite app_nil_r.
Qed.

Lemma tagState_app s t : tagState (s ++ t) = foldl tagStep (tagState s) t.
Proof. unfold tagState. by rewrite foldl_app. Qed.

Lemma tagState_snoc s c : tagState (s ++ [c]) = tagStep (tagState s) c.
Proof. by rewrite tagState_app. Qed.

(** [lastIndexOf] for one character, one index further. *)
Lemma lastIndexOf_char_step s c pos :
  Str.lastIndexOf s [c] (S pos)
  = if bool_decide (s !! S pos = Some c) then Some (S pos)
    else Str.lastIndexOf s [c] pos.
Proof.
  case_bool_decide as Hc.
  - apply lastIndexOf_char_Some. split_and!; [lia|done|]. intros j Hj. lia.
  - destruct (Str.lastIndexOf s [c] pos) as [i|] eqn:Hi.
    + apply lastIndexOf_char_Some in Hi as (Hle & Hci & Hn).
      apply lastIndexOf_char_Some. split_and!; [lia|done|].
      intros j Hj. destruct (decide (j = S pos)) as [->|]; [done|].
      apply Hn. lia.
    + apply lastIndexOf_char_None. intros j Hj.
      destruct (decide (j = S pos)) as [->|]; [done|].
      eapply lastIndexOf_char_None in Hi; [exact Hi|lia].
Qed.

Lemma lastIndexOf_char_0 s c :
  Str.lastIndexOf s [c] 0 = if bool_decide (s !! 0 = Some c) then Some 0 else None.
Proof.
  case_bool_decide as Hc.
  - apply lastIndexOf_char_Some. split_and!; [lia|done|]. intros j Hj. lia.
  - apply lastIndexOf_char_None. intros j Hj.
    by replace j with 0 by lia.
Qed.

Lemma lastIndexOf_char_le s c pos i :
  Str.lastIndexOf s [c] pos = Some i → i ≤ pos.
Proof. by intros (? & _)%lastIndexOf_char_Some. Qed.

(** [isInsideJsxTag] is the state of the scan after the character at the
    position. *)
Lemma isInsideJsxTag_step line pos :
  isInsideJsxTag line (S pos)
  = match line !! S pos with
    | Some c => tagStep (isInsideJsxTag line pos) c
    | None => isInsideJsxTag line pos
    end.
Proof.
  unfold isInsideJsxTag, js. simpl.
  rewrite !lastIndexOf_char_step.
  destruct (line !! S pos) as [c|] eqn:Hc.
  - unfold tagStep. destruct (Ascii.eqb_spec c "<") as [->|Hlt].
    + rewrite bool_decide_eq_true_2 by done.
      rewrite bool_decide_eq_false_2 by done.
      destruct (Str.lastIndexOf line [">"] pos) as [cl|] eqn:Hcl; [|done].
      apply lastIndexOf_char_le in Hcl. apply Nat.ltb_lt. lia.
    + rewrite (bool_decide_eq_false_2 (Some c = Some "<")) by congruence.
      destruct (Ascii.eqb_spec c ">") as [->|Hgt].
      * rewrite bool_decide_eq_true_2 by done.
        destruct (Str.lastIndexOf line ["<"] pos) as [o|] eqn:Ho; [|done].
        apply lastIndexOf_char_le in Ho. apply Nat.ltb_ge. lia.
      * by rewrite (bool_decide_eq_false_2 (Some c = Some ">")) by congruence.
  - by rewrite !bool_decide_eq_false_2 by done.
Qed.

Lemma isInsideJsxTag_tagState line pos :
  isInsideJsxTag line pos = tagState (take (S pos) line).
Proof.
  induction pos as [|pos IH].
  - unfold isInsideJsxTag, js. simpl. rewrite !lastIndexOf_char_0.
    destruct line as [|c line]; [done|]. simpl. rewrite take_0.
    unfold tagState, tagStep. simpl.
    destruct (Ascii.eqb_spec c "<") as [->|Hlt].
    + by rewrite bool_decide_eq_true_2, bool_decide_eq_false_2.
    + rewrite (bool_decide_eq_false_2 (Some c = Some "<")) by congruence.
      by destruct (c =? ">").
  - rewrite isInsideJsxTag_step, IH.
    destruct (line !! S pos) as [c|] eqn:Hc.
    + by rewrite (take_S_r _ _ _ Hc), tagState_snoc.
    + apply lookup_ge_None in Hc. by rewrite !take_ge by lia.
Qed.

(** The five characters before the end of [s] are the token exactly when
    [s] ends with it. *)
Lemma context_suffix s r :
  Str.includes (Str.substring (s ++ r) (length s - 5) (length s)) (js "&apos") = true
  ↔ ∃ u, s = u ++ js "&apos".
Proof.
  rewrite substring_take_drop by (rewrite ?length_app; lia).
  split.
  - intros Hctx. apply includes_short in Hctx.
    2:{ rewrite length_take. simpl. lia. }
    assert (5 ≤ length s) as H5.
    { apply (f_equal length) in Hctx. rewrite length_take in Hctx.
      simpl in Hctx. lia. }
    exists (take (length s - 5) s).
    rewrite <- Hctx. rewrite drop_app_le by lia.
    rewrite take_app_le by (rewrite length_drop; lia).
    rewrite (take_ge (drop _ s)) by (rewrite length_drop; lia).
    by rewrite take_drop.
  - intros [u ->]. rewrite length_app. simpl.
    replace (length u + 5 - 5) with (length u) by lia.
    rewrite <- app_assoc, drop_app_length.
    replace (length u + 5 - length u) with 5 by lia.
    apply includes_spec. by exists [], [].
Qed.

(** A token without the character [x] that ends a text ends what stands
    after an [x] of the text. *)
Lemma suffix_past x pre tl w u :
  x ∉ w → (pre ++ [x]) ++ tl = u ++ w → ∃ u', tl = u' ++ w.
Proof.
  intros Hx Heq.
  destruct (decide (length w ≤ length tl)) as [Hle|Hgt].
  - exists (take (length tl - length w) tl).
    assert (length u = length (pre ++ [x]) + (length tl - length w)) as Hlen.
    { apply (f_equal length) in Heq. rewrite !length_app in *. simpl in *. lia. }
    assert (w = drop (length tl - length w) tl) as Hw.
    { apply (f_equal (drop (length u))) in Heq.
      rewrite drop_app_length, Hlen in Heq.
      by rewrite <- drop_drop, drop_app_length in Heq. }
    rewrite Hw at 2. by rewrite take_drop.
  - exfalso. apply Hx.
    assert (length u ≤ length pre) as Hu.
    { apply (f_equal length) in Heq. rewrite !length_app in Heq.
      simpl in Heq. lia. }
    apply (f_equal (λ l, l !! length pre)) in Heq.
    rewrite <- app_assoc in Heq. simpl in Heq.
    rewrite list_lookup_middle in Heq by done.
    rewrite lookup_app_r in Heq by done.
    symmetry in Heq. by eapply list_elem_of_lookup_2.
Qed.

Lemma suffix_swap x y P0 O0 tl w :
  x ∉ w → EndsWith x P0 → EndsWith y O0 →
  (∃ u, P0 ++ tl = u ++ w) → ∃ u, O0 ++ tl = u ++ w.
Proof.
  intros Hx HP HO [u Hu].
  assert (∃ u', tl = u' ++ w) as [u' ->].
  { destruct HP as [->|[P1 ->]]; [by exists u|].
    by eapply suffix_past. }
  exists (O0 ++ u'). by rewrite app_assoc.
Qed.

Lemma escapeOutsideTags_go_app line i a s :
  ("'" ∉ a) →
  escapeOutsideTags_go line i (a ++ s) = a ++ escapeOutsideTags_go line (i + length a) s.
Proof.
  revert i. induction a as [|c a IH]; intros i Ha; simpl.
  - by rewrite Nat.add_0_r.
  - apply not_elem_of_cons in Ha as [Hc Ha].
    destruct (Ascii.eqb_spec c "'"); [congruence|]. simpl.
    replace (i + S (length a)) with (S i + length a) by lia.
    by rewrite IH.
Qed.

(** The loop, after it has passed a part of the line, finishes as one
    pass over the rest of the line as it was. [O0 ++ t] is the part as it
    was and [P0 ++ t] the part as it is now: [P0] ends with the last entity
    written and [O0] with the apostrophe it stands for. *)
Lemma escapeApostrophes_go_pass line fuel : ∀ O0 P0 t rest,
  line = (O0 ++ t) ++ rest →
  EndsWith ";" P0 → EndsWith "'" O0 →
  tagState (P0 ++ t) = tagState (O0 ++ t) →
  countChar "'" rest < fuel →
  escapeApostrophes_go fuel ((P0 ++ t) ++ rest) (length (P0 ++ t))
  = (P0 ++ t) ++ escapeOutsideTags_go line (length (O0 ++ t)) rest.
Proof.
  induction fuel as [|fuel IH]; intros O0 P0 t rest Hline HP HO Htag Hfuel; [lia|].
  cbn [escapeApostrophes_go].
  destruct (decide ("'" ∈ rest)) as [Hin|Hnot].
  - apply list_elem_of_split_l in Hin as (a & b & -> & Ha).
    set (P := P0 ++ t) in *. set (O := O0 ++ t) in *.
    set (p := length P + length a).
    assert (Str.indexOf (P ++ a ++ "'" :: b) (js "'") (length P) = Some p) as ->.
    { apply (indexOf_char _ "'"). split_and!; [lia| |].
      - unfold p. rewrite app_assoc, <- length_app. by rewrite list_lookup_middle.
      - intros j Hj. rewrite lookup_app_r by lia.
        rewrite lookup_app_l by lia. intros Hc.
        apply Ha. by eapply list_elem_of_lookup_2. }
    assert (∀ X, take (S (length X + length a)) (X ++ a ++ "'" :: b)
                 = (X ++ a) ++ ["'"]) as Htake.
    { intros X. rewrite app_assoc. apply take_past_middle.
      rewrite length_app. lia. }
    assert (line = O ++ a ++ "'" :: b) as Hline' by done.
    set (io := length O + length a).
    assert (isInsideJsxTag (P ++ a ++ "'" :: b) p = isInsideJsxTag line io) as ->.
    { rewrite !isInsideJsxTag_tagState, Hline'. unfold p, io. rewrite !Htake.
      rewrite <- !app_assoc, !tagState_app. by rewrite Htag. }
    assert (Str.includes (Str.substring (P ++ a ++ "'" :: b) (p - 5) p) (js "&apos")
            = Str.includes (Str.substring line (io - 5) io) (js "&apos")) as ->.
    { apply eq_true_iff_eq. rewrite Hline'. unfold p, io.
      rewrite !(app_assoc _ a), <- !length_app, !context_suffix.
      unfold P, O. rewrite <- !app_assoc.
      split; [apply (suffix_swap ";" "'")|apply (suffix_swap "'" ";")];
        try done; intros Hx%list_elem_of_In; vm_compute in Hx; intuition discriminate. }
    assert (p ≤ length (P ++ a ++ "'" :: b)) as Hp.
    { unfold p. rewrite !length_app. simpl. lia. }
    assert (countChar "'" b < fuel) as Hfuel'.
    { rewrite countChar_app in Hfuel. simpl in Hfuel. lia. }
    assert (escapeApostrophes_go fuel (P ++ a ++ "'" :: b) (p + 1)
            = P ++ a ++ "'" :: escapeOutsideTags_go line (S io) b) as Hskip.
    { replace (P ++ a ++ "'" :: b) with ((P0 ++ t ++ a ++ ["'"]) ++ b)
        by (unfold P; by rewrite <- !app_assoc).
      replace (p + 1) with (length (P0 ++ t ++ a ++ ["'"]))
        by (unfold p, P; rewrite !length_app; simpl; lia).
      rewrite (IH O0); [| |done|done| |done].
      - unfold P, io, O. rewrite <- !app_assoc. simpl. do 5 f_equal.
        rewrite !length_app. simpl. lia.
      - rewrite Hline'. unfold O. by rewrite <- !app_assoc.
      - rewrite !(app_assoc _ t). fold P O.
        by rewrite (tagState_app P), (tagState_app O), Htag. }
    assert (escapeApostrophes_go fuel ((P ++ a) ++ js "&apos;" ++ b) (p + 6)
            = P ++ a ++ js "&apos;" ++ escapeOutsideTags_go line (S io) b) as Hrepl.
    { replace ((P ++ a) ++ js "&apos;" ++ b) with (((P ++ a ++ js "&apos;") ++ []) ++ b)
        by (by rewrite app_nil_r, <- !app_assoc).
      replace (p + 6) with (length ((P ++ a ++ js "&apos;") ++ []))
        by (unfold p; rewrite !length_app; simpl; lia).
      rewrite (IH (O ++ a ++ ["'"])); [| | | | |done].
      - rewrite !app_nil_r, <- !app_assoc. do 3 f_equal.
        unfold io. rewrite !length_app. simpl. f_equal. lia.
      - rewrite Hline', app_nil_r. by rewrite <- !app_assoc.
      - right. exists (P ++ a ++ js "&apos"). by rewrite <- !app_assoc.
      - right. exists (O ++ a). by rewrite <- !app_assoc.
      - rewrite !app_nil_r, !(app_assoc _ a).
        rewrite (tagState_app (P ++ a)), (tagState_app (O ++ a)).
        by rewrite (tagState_app P), (tagState_app O), Htag. }
    rewrite escapeOutsideTags_go_app by done.
    cbn [escapeOutsideTags_go]. fold io.
    change (Ascii.eqb "'" "'") with true. cbn [andb].
    unfold staysApostrophe.
    destruct (isInsideJsxTag line io); cbn [orb negb].
    { by rewrite Hskip. }
    destruct (Str.includes (Str.substring line (io - 5) io) (js "&apos")); cbn [negb].
    { by rewrite Hskip. }
    rewrite substring_take_drop by lia. unfold Str.substring_from.
    rewrite Nat.sub_0_r, drop_0.
    assert (take p (P ++ a ++ "'" :: b) = P ++ a) as ->.
    { unfold p. by rewrite app_assoc, <- length_app, take_app_length. }
    assert (drop (p + 1) (P ++ a ++ "'" :: b) = b) as ->.
    { rewrite app_assoc. apply drop_past_middle. unfold p. by rewrite length_app. }
    by rewrite Hrepl.
  - assert (Str.indexOf ((P0 ++ t) ++ rest) (js "'") (length (P0 ++ t)) = None) as ->.
    { destruct (Str.indexOf _ _ _) as [r|] eqn:Hidx; [exfalso|done].
      apply (indexOf_char _ "'") in Hidx as (Hle & Hr & _).
      rewrite lookup_app_r in Hr by done.
      apply Hnot. by eapply list_elem_of_lookup_2. }
    rewrite <- (app_nil_r rest) at 2.
    rewrite escapeOutsideTags_go_app by done. simpl. by rewrite app_nil_r.
Qed.

End LoopFacts.

(** X4. The apostrophe loop of the branch for text on several lines gives
    what one pass over the line as it was gives: an apostrophe becomes its
    entity exactly when, in the line as it was, it is outside every tag and
    the five characters before it are not [&apos]; every other character
    stays. *)
Theorem escapeApostrophes_one_pass (fileLine : jsstring) :
  escapeApostrophes fileLine = escapeOutsideTags fileLine.
Proof.
  unfold escapeApostrophes, escapeOutsideTags.
  pose proof (countChar_le_length "'" fileLine) as Hcount.
  apply (escapeApostrophes_go_pass fileLine (S (length fileLine)) [] [] [] fileLine).
  - done.
  - by left.
  - by left.
  - done.
  - lia.
Qed.

(** On a line of plain text, with no opening bracket and no ampersand,
    the loop replaces every apostrophe. *)
Lemma escapeApostrophes_plain (fileLine : jsstring) :
  ("<" ∉ fileLine) → ("&" ∉ fileLine) →
  escapeApostrophes fileLine = Str.replaceChar "'" (js "&apos;") fileLine.
Proof.
  intros Hlt Hamp. unfold escapeApostrophes.
  pose proof (countChar_le_length "'" fileLine) as Hcount.
  pose proof (escapeApostrophes_go_pass fileLine (S (length fileLine)) [] [] [] fileLine)
    as Hpass.
  cbn [app length] in Hpass.
  rewrite Hpass; [|done|by left|by left|done|lia]. clear Hpass.
  generalize 0.
  assert (∀ i, staysApostrophe fileLine i = false) as Hstay.
  { intros i. unfold staysApostrophe. apply orb_false_iff. split.
    - rewrite isInsideJsxTag_tagState. unfold tagState.
      assert ("<" ∉ take (S i) fileLine) as Htake.
      { intros Hin. apply Hlt. rewrite <- (take_drop (S i) fileLine).
        apply elem_of_app. by left. }
      revert Htake. generalize (take (S i) fileLine). intros s.
      induction s as [|c s IH]; simpl; [done|].
      intros [Hc Hs]%not_elem_of_cons. unfold tagStep at 2.
      destruct (Ascii.eqb_spec c "<"); [congruence|].
      destruct (Ascii.eqb_spec c ">"); [|by apply IH].
      clear IH. induction s as [|d s IH]; simpl; [done|].
      apply not_elem_of_cons in Hs as [Hd Hs]. unfold tagStep at 2.
      destruct (Ascii.eqb_spec d "<"); [congruence|].
      destruct (Ascii.eqb_spec d ">"); by apply IH.
    - destruct (Str.includes _ _) eqn:Hctx; [exfalso|done].
      apply includes_spec in Hctx as (u & v & Hctx).
      apply Hamp. unfold Str.substring in Hctx.
      assert ("&" ∈ u ++ js "&apos" ++ v) as Hin.
      { apply elem_of_app. right. by left. }
      rewrite <- Hctx in Hin.
      eapply subseteq_drop, subseteq_take, Hin. }
  generalize fileLine at 2 3 as s. intros s.
  induction s as [|c s IH]; intros i; simpl; [done|].
  rewrite Hstay, IH. by destruct (Ascii.eqb c "'").
Qed.

Example escapeApostrophes_tags_and_entities :
  escapeApostrophes (js "<b class='x'>Bob's &apos's</b>")
  = js "<b class='x'>Bob&apos;s &apos's</b>".
Proof. by vm_compute. Qed.

(** ** The review loop after a change of the file *)

Section StaleFacts.

Implicit Types (st : State) (loc : Local).

Lemma SameFiles_refl st : SameFiles st st.
Proof. by split_and!. Qed.

Lemma SameFiles_trans st1 st2 st3 :
  SameFiles st1 st2 → SameFiles st2 st3 → SameFiles st1 st3.
Proof. intros (? & ? & ?) (? & ? & ?). split_and!; congruence. Qed.

Lemma SameFiles_say e st : SameFiles st (say e st).
Proof. by split_and!. Qed.

Lemma SameFiles_save st : SameFiles st (saveRejectedFixes st).
Proof. by split_and!. Qed.

Lemma Stale_SameFiles filePath st st' :
  SameFiles st st' → Stale filePath st → Stale filePath st'.
Proof.
  intros (Hd & _ & Ht) (t & r & Hstat & Hrec & Hr0 & Hrt).
  exists t, r. unfold statSync_mtimeMs in *. by rewrite Hd, Ht.
Qed.

Lemma checkFileModification_Stale filePath st :
  Stale filePath st →
  checkFileModification filePath st = (true, say WarnedModified st).
Proof.
  intros (t & r & Hstat & Hrec & Hr0 & Hrt).
  unfold checkFileModification. rewrite Hstat, Hrec. simpl.
  destruct (N.eqb_spec r 0); [done|]. destruct (N.eqb_spec r t); done.
Qed.

Lemma promptLoop_Stale filePath fx fixKey inputs loc st :
  Stale filePath st →
  Forall (λ i, external i = None) inputs →
  match promptLoop filePath fx fixKey inputs loc st with
  | NextFix rest loc' st' =>
      loc' = loc ∧ SameFiles st st' ∧ Forall (λ i, external i = None) rest
  | Stop _ loc' st' => loc' = loc ∧ SameFiles st st'
  end.
Proof.
  intros Hstale Hin. revert st Hstale.
  induction Hin as [|i rest Hi Hrest IH]; intros st Hstale; simpl.
  - split; [done|apply SameFiles_refl].
  - rewrite Hi. cbn [externalWrite].
    rewrite (checkFileModification_Stale _ _ Hstale).
    destruct (key i); try (split_and!; [done| |done]; by split_and!).
    + specialize (IH (say ShowedContext st)
                    (Stale_SameFiles _ _ _ (SameFiles_say _ _) Hstale)).
      destruct (promptLoop _ _ _ rest loc _) as [rest' loc' st'|e loc' st'].
      * destruct IH as (-> & Hs & Hr). split_and!; [done| |done].
        eapply SameFiles_trans; [apply SameFiles_say|exact Hs].
      * destruct IH as (-> & Hs). split; [done|].
        eapply SameFiles_trans; [apply SameFiles_say|exact Hs].
    + split; [done|apply SameFiles_save].
Qed.

Lemma reviewFixes_Stale filePath fixes : ∀ inputs loc st,
  Stale filePath st →
  Forall (λ i, external i = None) inputs →
  (reviewFixes filePath fixes inputs loc st).1.2 = loc
  ∧ SameFiles st (reviewFixes filePath fixes inputs loc st).2.
Proof.
  induction fixes as [|fx rest IH]; intros inputs loc st Hstale Hin; simpl.
  - split; [done|apply SameFiles_refl].
  - destruct (type fx).
    + destruct (readFileSync st filePath); [|split; [done|apply SameFiles_say]].
      destruct Hin as [|i inputs' Hi Hin']; [split; [done|apply SameFiles_say]|].
      rewrite Hi. cbn [externalWrite].
      pose proof (SameFiles_say (Informed (message fx)) st) as Hs.
      destruct (key i); try done;
        (destruct (IH inputs' loc (say (Informed (message fx)) st)) as [Hl Hs'];
         [by eapply Stale_SameFiles|done|];
         split; [done|by eapply SameFiles_trans]).
    + set (fixKey := createFixKey _ _ _ _).
      destruct (isRejected st fixKey).
      * destruct (IH inputs loc (say (SkippedRejected fixKey) st)) as [Hl Hs'];
          [eapply Stale_SameFiles; [apply SameFiles_say|done]|done|].
        split; [done|]. eapply SameFiles_trans; [apply SameFiles_say|done].
      * pose proof (promptLoop_Stale filePath fx fixKey inputs loc
                      (say (Presented fixKey) st)
                      (Stale_SameFiles _ _ _ (SameFiles_say _ _) Hstale) Hin) as Hp.
        destruct (promptLoop _ _ _ inputs loc _) as [rest' loc' st'|e loc' st'].
        -- destruct Hp as (-> & Hs & Hr).
           assert (SameFiles st st') as Hs1
             by (eapply SameFiles_trans; [apply SameFiles_say|exact Hs]).
           destruct (IH rest' loc st') as [Hl Hs'];
             [by eapply Stale_SameFiles|done|].
           split; [done|by eapply SameFiles_trans].
        -- destruct Hp as (-> & Hs). split; [done|].
           eapply SameFiles_trans; [apply SameFiles_say|exact Hs].
Qed.

End StaleFacts.

(** X5. Once the file on disk is not the file whose time was recorded,
    and nobody writes it again, every later answer of the user in the
    review loop is dropped, whatever the key: no line of the array is
    patched, no decline is recorded, and the times stay as they are, so
    the file stays stale. *)
Theorem stale_file_drops_decisions (filePath : jsstring) (fixes : list StringFix)
    (inputs : list Input) (loc loc' : Local) (st st' : State) (e : Exit) :
  Stale filePath st →
  Forall (λ i, external i = None) inputs →
  reviewFixes filePath fixes inputs loc st = (e, loc', st') →
  loc' = loc ∧ rejectedFixes st' = rejectedFixes st ∧ disk st' = disk st
  ∧ Stale filePath st'.
Proof.
  intros Hstale Hin Hrun.
  destruct (reviewFixes_Stale filePath fixes inputs loc st Hstale Hin) as [Hl Hs].
  rewrite Hrun in Hl, Hs. simpl in Hl, Hs.
  split_and!; [done|apply Hs|apply Hs|by eapply Stale_SameFiles].
Qed.

Lemma stale_file_drops_decisions_witness :
  let st := externalWrite demoPath
              (Some {| content := js "edited elsewhere"; mtimeMs := 150 |}) demoOpened in
  let loc := {| fileLines := Str.split LF demoText; changed := false |} in
  let r := reviewFixes demoPath (Array_sort compareFixes demoFixes)
             [press KeyY; press KeyN; press KeyQ] loc st in
  r.1.2 = loc ∧ rejectedFixes r.2 = rejectedFixes st ∧ disk r.2 = disk st
  ∧ Stale demoPath r.2.
Proof.
  intros st loc r.
  apply (stale_file_drops_decisions demoPath (Array_sort compareFixes demoFixes)
           [press KeyY; press KeyN; press KeyQ] loc r.1.2 st r.2 r.1.1).
  - exists 150%N, 100%N. split_and!; [reflexivity|reflexivity|done|done].
  - repeat constructor.
  - subst r. by destruct (reviewFixes _ _ _ _ _) as [[??]?].
Defined.

(** ** Runs without an approval, and how a run ends *)

Section QuietFacts.

Implicit Types (st : State) (loc : Local).

Lemma checkFileModification_disk filePath st b st' :
  checkFileModification filePath st = (b, st') → disk st' = disk st.
Proof.
  unfold checkFileModification.
  destruct (statSync_mtimeMs st filePath); [|by intros [= <- <-]].
  destruct (_ && _); by intros [= <- <-].
Qed.

Lemma promptLoop_quiet filePath fx fixKey inputs loc st :
  changed loc = false →
  Forall (λ i, external i = None ∧ key i ≠ KeyY) inputs →
  match promptLoop filePath fx fixKey inputs loc st with
  | NextFix rest loc' st' =>
      loc' = loc ∧ disk st' = disk st
      ∧ Forall (λ i, external i = None ∧ key i ≠ KeyY) rest
  | Stop _ loc' st' => loc' = loc ∧ disk st' = disk st
  end.
Proof.
  intros Hch Hin. revert st.
  induction Hin as [|i rest [Hi Hy] Hrest IH]; intros st; simpl; [done|].
  rewrite Hi. cbn [externalWrite].
  destruct (checkFileModification filePath st) as [modified st1] eqn:Hchk.
  apply checkFileModification_disk in Hchk.
  destruct (key i); [done| | | |].
  - by destruct modified.
  - destruct modified; [done|]. by rewrite Hch.
  - specialize (IH (say ShowedContext st)).
    by destruct (promptLoop _ _ _ rest loc _).
  - done.
Qed.

Lemma reviewFixes_quiet filePath fixes : ∀ inputs loc st,
  changed loc = false →
  Forall (λ i, external i = None ∧ key i ≠ KeyY) inputs →
  (reviewFixes filePath fixes inputs loc st).1.2 = loc
  ∧ disk (reviewFixes filePath fixes inputs loc st).2 = disk st.
Proof.
  induction fixes as [|fx rest IH]; intros inputs loc st Hch Hin; simpl; [done|].
  destruct (type fx).
  - destruct (readFileSync st filePath); [|done].
    destruct Hin as [|i inputs' [Hi Hy] Hin']; [done|].
    rewrite Hi. cbn [externalWrite].
    destruct (key i); try done;
      by destruct (IH inputs' loc (say (Informed (message fx)) st) Hch Hin').
  - set (fixKey := createFixKey _ _ _ _).
    destruct (isRejected st fixKey).
    + by destruct (IH inputs loc (say (SkippedRejected fixKey) st) Hch Hin).
    + pose proof (promptLoop_quiet filePath fx fixKey inputs loc
                    (say (Presented fixKey) st) Hch Hin) as Hp.
      destruct (promptLoop _ _ _ inputs loc _) as [rest' loc' st'|e loc' st'].
      * destruct Hp as (-> & Hd & Hr).
        destruct (IH rest' loc st' Hch Hr) as [Hl Hd'].
        split; [done|]. by rewrite Hd', Hd.
      * done.
Qed.

(** When the process exits at the prompt of a candidate, the rejection
    memory has been saved. *)
Lemma promptLoop_Exited filePath fx fixKey inputs loc st loc' st' :
  promptLoop filePath fx fixKey inputs loc st = Stop Exited loc' st' →
  wards st' = Some (rejectedFixes st').
Proof.
  revert loc st. induction inputs as [|i rest IH]; intros loc st; simpl; [done|].
  set (st1 := externalWrite filePath (external i) st).
  destruct (checkFileModification filePath st1) as [modified st2] eqn:Hchk.
  destruct (key i).
  - destruct modified; [done|].
    destruct (applyFix _ _ _) as [[[fl ch] ev] ctl]. by destruct ctl.
  - by destruct modified.
  - destruct modified; [done|]. by intros [= <- <-].
  - apply IH.
  - by intros [= <- <-].
Qed.

Lemma reviewFixes_Exited filePath fixes : ∀ inputs loc st loc' st',
  Forall (λ fx, type fx = fix_) fixes →
  reviewFixes filePath fixes inputs loc st = (Exited, loc', st') →
  wards st' = Some (rejectedFixes st').
Proof.
  induction fixes as [|fx rest IH]; intros inputs loc st loc' st' Hty; simpl; [done|].
  apply Forall_cons in Hty as [-> Hty].
  set (fixKey := createFixKey _ _ _ _).
  destruct (isRejected st fixKey); [by apply IH|].
  destruct (promptLoop _ _ _ inputs loc _) as [rest' loc1 st1|e loc1 st1] eqn:Hp.
  - by apply IH.
  - intros [= -> <- <-]. by eapply promptLoop_Exited.
Qed.

End QuietFacts.

(** X6. A run of [processFile] in which the user approves nothing, and
    nobody else writes the file, leaves the disk as it is, whatever the
    candidates and the other keys are. *)
Theorem no_approval_no_write (filePath : jsstring) (stringFixes : list StringFix)
    (inputs : list Input) (racing : option File) (st st' : State) (e : Exit) :
  Forall (λ i, external i = None ∧ key i ≠ KeyY) inputs →
  processFile filePath stringFixes inputs racing st = (e, st') →
  disk st' = disk st.
Proof.
  intros Hin. unfold processFile.
  destruct (disk st !! filePath) as [f|]; [|by intros [= _ <-]].
  destruct (N.ltb _ _); [by intros [= _ <-]|].
  destruct stringFixes as [|fx fixes]; [by intros [= _ <-]|].
  set (st1 := setFileModTimes _ st).
  set (loc := {| fileLines := _; changed := false |}).
  destruct (reviewFixes_quiet filePath (Array_sort compareFixes (fx :: fixes))
              inputs loc st1 eq_refl Hin) as [Hl Hd].
  destruct (reviewFixes _ _ inputs loc st1) as [[e1 loc1] st2].
  simpl in Hl, Hd. subst loc1.
  destruct e1; intros [= _ <-]; try done.
  unfold writeBack. simpl. by destruct (Nat.ltb _ _).
Qed.

Lemma no_approval_no_write_witness :
  disk (processFile demoPath demoFixes [press KeyC; press KeyN; press KeyQ] None
          demoState).2
  = disk demoState.
Proof.
  apply (no_approval_no_write demoPath demoFixes [press KeyC; press KeyN; press KeyQ]
           None demoState _
           (processFile demoPath demoFixes [press KeyC; press KeyN; press KeyQ] None
              demoState).1).
  - repeat constructor; done.
  - by destruct (processFile _ _ _ _ _).
Defined.

(** X7. However a run over candidates for fixes ends, unless it still
    waits for a key, the rejection memory on disk is the one in memory:
    the run went through the file, returned early, or the user left with
    [q] or with the interrupt key. *)
Theorem exit_saves_rejections (filePath : jsstring) (stringFixes : list StringFix)
    (inputs : list Input) (racing : option File) (st st' : State) (e : Exit) :
  Forall (λ fx, type fx = fix_) stringFixes →
  processAndSave filePath stringFixes inputs racing st = (e, st') →
  e ≠ Waiting →
  wards st' = Some (rejectedFixes st').
Proof.
  intros Hty. unfold processAndSave.
  destruct (processFile filePath stringFixes inputs racing st) as [e1 st1] eqn:Hrun.
  destruct e1; intros [= <- <-]; try done.
  intros _. revert Hrun. unfold processFile.
  destruct (disk st !! filePath) as [f|]; [|done].
  destruct (N.ltb _ _); [done|].
  destruct stringFixes as [|fx fixes]; [done|].
  destruct (reviewFixes _ _ inputs _ _) as [[e1 loc1] st2] eqn:Hrev.
  destruct e1; intros [= <-].
  eapply reviewFixes_Exited; [|exact Hrev].
  by rewrite Array_sort_Permutation.
Qed.

Lemma exit_saves_rejections_witness :
  wards (processAndSave demoPath demoFixes [press KeyN; press KeyQ] None demoState).2
  = Some (rejectedFixes
            (processAndSave demoPath demoFixes [press KeyN; press KeyQ] None demoState).2).
Proof.
  apply (exit_saves_rejections demoPath demoFixes [press KeyN; press KeyQ] None
           demoState _
           (processAndSave demoPath demoFixes [press KeyN; press KeyQ] None demoState).1).
  - repeat constructor.
  - by destruct (processAndSave _ _ _ _ _).
  - vm_compute. discriminate.
Defined.

(** At the prompt of an information entry the interrupt key ends the
    process without saving: the decline made before it stays in memory
    only. *)
Example interrupt_at_information_loses_decline :
  let r := processParsedAndSave true demoPath storyNodes [press KeyN; press CtrlC] None
             (fileState demoPath storyText) in
  r.1 = Exited ∧ wards r.2 = None ∧ rejectedFixes r.2 ≠ ∅.
Proof.
  vm_compute. split_and!; [done|done|]. intros H. discriminate H.
Qed.

(** ** What counts as an entity *)

Section EntityFacts.

Implicit Types (s a b ds : jsstring).

Lemma skipDigits_split s :
  ∃ ds, s = ds ++ skipDigits s ∧ Forall (λ c, isDigit c = true) ds.
Proof.
  induction s as [|c s (ds & Hs & Hds)]; simpl.
  - by exists [].
  - destruct (isDigit c) eqn:Hc.
    + exists (c :: ds). split; [by rewrite <- app_comm_cons, <- Hs|by constructor].
    + by exists [].
Qed.

Lemma skipDigits_app ds s :
  Forall (λ c, isDigit c = true) ds → skipDigits (ds ++ s) = skipDigits s.
Proof. induction 1 as [|c ds Hc _ IH]; simpl; [done|]. by rewrite Hc. Qed.

Lemma numericEntityAt_spec s :
  numericEntityAt s = true
  ↔ ∃ ds b, s = "&" :: "#" :: ds ++ ";" :: b ∧ ds ≠ []
            ∧ Forall (λ c, isDigit c = true) ds.
Proof.
  split.
  - destruct s as [|x [|h [|d s]]]; try done. unfold numericEntityAt.
    rewrite !andb_true_iff, !Ascii.eqb_eq.
    intros [[[-> ->] Hd] [b Hb]%startsWith_spec].
    destruct (skipDigits_split s) as (ds & Hs & Hds).
    exists (d :: ds), b. split_and!; [|done|by constructor].
    rewrite Hs, Hb. done.
  - intros (ds & b & -> & Hne & Hds).
    destruct Hds as [|d ds Hd Hds]; [done|]. unfold numericEntityAt.
    rewrite <- !app_comm_cons, Hd, skipDigits_app by done. done.
Qed.

Lemma numericEntityRegex_test_spec s :
  numericEntityRegex_test s = true ↔ ∃ a t, s = a ++ t ∧ numericEntityAt t = true.
Proof.
  induction s as [|c s IH].
  - simpl. split; [done|]. intros (a & t & H & Ht).
    symmetry in H. apply app_eq_nil in H as [-> ->]. done.
  - cbn [numericEntityRegex_test]. rewrite orb_true_iff, IH. split.
    + intros [H|(a & t & -> & Ht)]; [by exists [], (c :: s)|by exists (c :: a), t].
    + intros ([|c' a] & t & H & Ht); simpl in H.
      * left. by rewrite H.
      * right. injection H as -> ->. by exists a, t.
Qed.

Lemma entityRegex_test_spec s :
  entityRegex_test s = true
  ↔ ∃ a name b, s = a ++ "&" :: name ++ ";" :: b ∧ name ∈ entityNames.
Proof.
  unfold entityRegex_test. rewrite existsb_exists. split.
  - intros (name & Hname%list_elem_of_In & (a & b & ->)%includes_spec).
    exists a, name, b. split; [|done]. simpl. by rewrite <- app_assoc.
  - intros (a & name & b & -> & Hname). exists name.
    split; [by apply list_elem_of_In|].
    apply includes_spec. exists a, b. simpl. by rewrite <- app_assoc.
Qed.

(** The test for entities escaped twice finds nothing that the test for
    entities does not find: its matches start with [&amp;]. *)
Lemma doubleEscaped_is_entity s :
  doubleEscapedRegex_test s = true → entityRegex_test s = true.
Proof.
  unfold doubleEscapedRegex_test. rewrite existsb_exists.
  intros (name & _ & (a & b & ->)%includes_spec).
  apply entityRegex_test_spec.
  exists a, (js "amp"), (name ++ js ";" ++ b).
  split; [|apply list_elem_of_In; simpl; tauto].
  simpl. by rewrite <- !app_assoc.
Qed.

Lemma containsHtmlEntities_cases s :
  containsHtmlEntities s = entityRegex_test s || numericEntityRegex_test s.
Proof.
  unfold containsHtmlEntities.
  destruct (entityRegex_test s) eqn:He; [done|].
  destruct (doubleEscapedRegex_test s) eqn:Hd; [|done].
  apply doubleEscaped_is_entity in Hd. congruence.
Qed.

Lemma containsHtmlEntities_EntityName s :
  containsHtmlEntities s = true
  ↔ ∃ a name b, s = a ++ "&" :: name ++ ";" :: b ∧ EntityName name.
Proof.
  rewrite containsHtmlEntities_cases, orb_true_iff,
    entityRegex_test_spec, numericEntityRegex_test_spec.
  split.
  - intros [(a & name & b & -> & Hn)|(a & t & -> & Ht)].
    + exists a, name, b. split; [done|by left].
    + apply numericEntityAt_spec in Ht as (ds & b & -> & Hne & Hds).
      exists a, ("#" :: ds), b. split; [done|]. right. by exists ds.
  - intros (a & name & b & -> & [Hn|(ds & -> & Hne & Hds)]).
    + left. by exists a, name, b.
    + right. exists a, ("&" :: "#" :: ds ++ ";" :: b). split; [done|].
      apply numericEntityAt_spec. by exists ds, b.
Qed.

(** A text with an entity holds an ampersand. *)
Lemma containsHtmlEntities_amp s : containsHtmlEntities s = true → "&" ∈ s.
Proof.
  intros (a & name & b & -> & _)%containsHtmlEntities_EntityName.
  apply elem_of_app. right. by left.
Qed.

End EntityFacts.

(** X8. [containsHtmlEntities] finds exactly the texts that hold an
    ampersand, one of the names [quot], [apos], [amp], [lt], [gt] or a
    number sign with one or more decimal digits, and a semicolon, one
    after the other. The test for entities escaped twice adds nothing. *)
Theorem containsHtmlEntities_spec (str : jsstring) :
  (containsHtmlEntities str = true
   ↔ ∃ a name b, str = a ++ "&" :: name ++ ";" :: b ∧ EntityName name)
  ∧ containsHtmlEntities str = entityRegex_test str || numericEntityRegex_test str.
Proof.
  assert (containsHtmlEntities str = entityRegex_test str || numericEntityRegex_test str)
    as Hcases.
  { unfold containsHtmlEntities.
    destruct (entityRegex_test str) eqn:He; [done|].
    destruct (doubleEscapedRegex_test str) eqn:Hd; [|done].
    apply doubleEscaped_is_entity in Hd. congruence. }
  split; [|exact Hcases].
  rewrite Hcases, orb_true_iff, entityRegex_test_spec, numericEntityRegex_test_spec.
  split.
  - intros [(a & name & b & -> & Hn)|(a & t & -> & Ht)].
    + exists a, name, b. split; [done|by left].
    + apply numericEntityAt_spec in Ht as (ds & b & -> & Hne & Hds).
      exists a, ("#" :: ds), b. split; [done|]. right. by exists ds.
  - intros (a & name & b & -> & [Hn|(ds & -> & Hne & Hds)]).
    + left. by exists a, name, b.
    + right. exists a, ("&" :: "#" :: ds ++ ";" :: b). split; [done|].
      apply numericEntityAt_spec. by exists ds, b.
Qed.

(** Entities with another name or with hexadecimal digits are not found. *)
Example containsHtmlEntities_unknown :
  containsHtmlEntities (js "a&nbsp;b &#x27; &#; &copy;") = false.
Proof. reflexivity. Qed.

(** ** When [escapeString] leaves a text alone *)

Section UnchangedFacts.

Implicit Types (str s : jsstring) (c : ascii).

Lemma startsWith_char_elem s c : Str.startsWith s [c] = true → c ∈ s.
Proof. intros [b ->]%startsWith_spec. by left. Qed.

Lemma shouldExcludeFromEscaping_amp strictMode str :
  shouldExcludeFromEscaping strictMode str = true →
  strictMode = false ∧ (("&" ∈ str) ∨ str = js ">>").
Proof.
  unfold shouldExcludeFromEscaping.
  destruct strictMode; [done|]. intros H. split; [done|].
  destruct (Str.includes str (js "?") && Str.includes str (js "&")
            && negb (Str.includes str (js " "))) eqn:H1.
  { apply andb_true_iff in H1 as [[_ Ha]%andb_true_iff _].
    left. by apply (includes_char str "&"). }
  destruct (Str.startsWith str (js "&") && Str.includes str (js "=")
            && negb (Str.includes str (js " "))) eqn:H2.
  { apply andb_true_iff in H2 as [[Ha _]%andb_true_iff _].
    left. by apply startsWith_char_elem. }
  destruct (Str.startsWith str (js "&") && Str.includes str (js ":")) eqn:H3.
  { apply andb_true_iff in H3 as [Ha _]. left. by apply startsWith_char_elem. }
  destruct (bool_decide (str = js "&")) eqn:H4.
  { apply bool_decide_eq_true in H4 as ->. left. by left. }
  destruct (bool_decide (str = js ">>")) eqn:H5.
  { apply bool_decide_eq_true in H5. by right. }
  destruct (bool_decide (str = js "&&")) eqn:H6; [|done].
  apply bool_decide_eq_true in H6 as ->. left. by left.
Qed.

(** The entity of a managed character is longer than the character. *)
Lemma ESCAPES_get_length c : managedClass c = true → 1 < length (ESCAPES_get c).
Proof.
  intros [->|[->|[->|[->| ->]]]]%managedClass_cases; vm_compute; lia.
Qed.

Lemma escapeWith_length (cls : ascii → bool) str :
  (∀ c, cls c = true → managedClass c = true) →
  length str + length (filter (λ c, cls c = true) str) ≤ length (escapeWith cls str).
Proof.
  intros Hcls. unfold escapeWith.
  induction str as [|c str IH]; simpl; [done|].
  destruct (cls c) eqn:Hc.
  - rewrite filter_cons_True by done. rewrite length_app. simpl.
    pose proof (ESCAPES_get_length c (Hcls c Hc)). lia.
  - rewrite filter_cons_False by congruence. simpl. lia.
Qed.

Lemma escapeWith_none (cls : ascii → bool) str :
  filter (λ c, cls c = true) str = [] → escapeWith cls str = str.
Proof.
  unfold escapeWith. induction str as [|c str IH]; simpl; [done|].
  destruct (cls c) eqn:Hc.
  - by rewrite filter_cons_True by done.
  - rewrite filter_cons_False by congruence. intros H. by rewrite IH.
Qed.

Lemma Set_of_nil (l : list ascii) : Set_of l = [] ↔ l = [].
Proof.
  split; [|by intros ->].
  destruct l as [|c l]; [done|]. intros H.
  assert (c ∈ Set_of (c :: l)) as Hc by (apply Set_of_elem; by left).
  rewrite H in Hc. by apply elem_of_nil in Hc.
Qed.

End UnchangedFacts.

(** X9. [escapeString] gives a text back as it is, without an object, only
    when the text holds an ampersand or is the text [>>]: a text whose
    managed characters are quotes or angle brackets is never excluded and
    never taken for escaped already. *)
Theorem escapeString_string_needs_amp (strictMode : bool) (str s : jsstring) :
  escapeString strictMode str = RetString s →
  s = str ∧ (("&" ∈ str) ∨ (strictMode = false ∧ str = js ">>")).
Proof.
  unfold escapeString.
  destruct (shouldExcludeFromEscaping strictMode str) eqn:Hex.
  - intros [= <-]. split; [done|].
    apply shouldExcludeFromEscaping_amp in Hex as [-> [?|?]]; auto.
  - destruct (containsHtmlEntities str) eqn:Hent.
    + intros [= <-]. split; [done|]. left. by apply containsHtmlEntities_amp.
    + destruct (_ || _); by destruct (Str.replace _ _ _ _).
Qed.

Lemma escapeString_string_needs_amp_witness :
  js "p?a=1&b=2" = js "p?a=1&b=2"
  ∧ (("&" ∈ js "p?a=1&b=2") ∨ (false = false ∧ js "p?a=1&b=2" = js ">>")).
Proof.
  apply (escapeString_string_needs_amp false (js "p?a=1&b=2") (js "p?a=1&b=2")).
  vm_compute. reflexivity.
Defined.

(** The two classes of [escapeString] and what it builds with them. *)
Lemma escapeString_object_class (strictMode : bool) (str escaped : jsstring)
    (chars : list ascii) :
  escapeString strictMode str = RetObject escaped chars →
  ∃ cls : ascii → bool,
    (∀ c, cls c = true → managedClass c = true)
    ∧ escaped = escapeWith cls str
    ∧ chars = Set_of (filter (λ c, cls c = true) str).
Proof.
  intros (_ & _ & [(_ & -> & ->)|(_ & _ & -> & ->)])%escapeString_object.
  - exists quoteClass. split; [apply quoteClass_managed|done].
  - by exists managedClass.
Qed.

(** X10. When [escapeString] answers with an object, the escaped text is
    the text it was given exactly when the list of escaped characters is
    empty, and it is never shorter than the text. *)
Theorem escapeString_same_iff_no_chars (strictMode : bool) (str escaped : jsstring)
    (chars : list ascii) :
  escapeString strictMode str = RetObject escaped chars →
  (escaped = str ↔ chars = []) ∧ length str ≤ length escaped.
Proof.
  intros (cls & Hcls & -> & ->)%escapeString_object_class.
  pose proof (escapeWith_length cls str Hcls) as Hlen.
  split; [|lia]. rewrite Set_of_nil. split.
  - intros Heq. rewrite Heq in Hlen.
    apply nil_length_inv. lia.
  - apply escapeWith_none.
Qed.

Lemma escapeString_same_iff_no_chars_witness :
  (js "a<b" = js "a<b" ↔ @nil ascii = []) ∧ length (js "a<b") ≤ length (js "a<b").
Proof.
  apply (escapeString_same_iff_no_chars false). vm_compute. reflexivity.
Defined.

(** ** What the visitors of [processFile] push *)

Section PushedFacts.

Variable strictMode : bool.

Variable filePath : jsstring.

Variable fileContent : jsstring.

Lemma visitText_Pushed isJsxText path orig raw st fx st' :
  visitText strictMode filePath fileContent isJsxText path orig raw st = (Pushed fx, st') →
  st' = st ∧ loc_start fx = start path ∧ original fx = orig ∧
  match type fx with
  | information =>
      strictMode = true
      ∧ matched (isAlreadyEscapedInLineWindow (readFileSync st) filePath
                   (line (start path)) orig) = true
  | fix_ =>
      isJsx fx = isJsxText
      ∧ escapeString strictMode orig = RetObject (escaped fx) (escapedChars fx)
      ∧ escaped fx ≠ orig ∧ escapedChars fx ≠ []
      ∧ ¬ (("<" ∈ orig) ∧ (">" ∈ orig))
      ∧ isAutoSkipPattern strictMode orig filePath (line (start path))
          (column (start path)) = None
  end.
Proof.
  unfold visitText.
  destruct (matched _) eqn:Hm.
  { destruct (isAlreadyEscapedInLineWindow _ _ _ _) as [|conf reason| |]; try done.
    case_bool_decide; [done|].
    destruct strictMode; [|done]. by intros [= <- <-]. }
  destruct (checkRawFileContent _ _ _ _); [done|].
  destruct (isJsxText && containsHtmlEntities raw); [done|].
  destruct (isSafeToEscapeInJsx orig _) eqn:Hsafe; [|done]. cbn [negb].
  destruct (escapeString strictMode orig) as [|result chars] eqn:Hesc; [done|].
  case_bool_decide as Hsame; [done|].
  destruct (isAlreadyFixed _ _ _ _ _); [done|].
  destruct (isAutoSkipPattern _ _ _ _ _) eqn:Hskip; [done|].
  intros [= <- <-]. cbn.
  split_and!; try done.
  - intros Hch. apply Hsame.
    apply escapeString_object_class in Hesc as (cls & _ & -> & ->).
    apply (proj1 (Set_of_nil _)) in Hch. by apply escapeWith_none.
  - intros [Hlt Hgt]. unfold isSafeToEscapeInJsx in Hsafe.
    apply (includes_char orig "<") in Hlt. apply (includes_char orig ">") in Hgt.
    change (js "<") with ["<"] in Hsafe. change (js ">") with [">"] in Hsafe.
    by rewrite Hlt, Hgt in Hsafe.
Qed.

End PushedFacts.

(** X11. What the two visitors of [processFile] push on the list of
    candidates. The state is left as it is and the entry carries the start
    of the node. An entry for information is pushed only in strict mode,
    after a match of the line window. An entry for a fix has the text and
    the characters that [escapeString] gives for the original; the
    escaped text differs from the original, at least one character is
    named, the original does not hold both angle brackets, and no auto-skip
    pattern matches it. *)
Theorem visitors_push_real_fixes (strictMode : bool) (filePath fileContent : jsstring)
    (path : NodePath) (st st' : State) (fx : StringFix) :
  visitStringLiteral strictMode filePath fileContent path st = (Pushed fx, st')
  ∨ visitJSXText strictMode filePath fileContent path st = (Pushed fx, st') →
  st' = st ∧ loc_start fx = start path ∧
  match type fx with
  | information =>
      strictMode = true
      ∧ matched (isAlreadyEscapedInLineWindow (readFileSync st) filePath
                   (line (start path)) (original fx)) = true
  | fix_ =>
      escapeString strictMode (original fx) = RetObject (escaped fx) (escapedChars fx)
      ∧ escaped fx ≠ original fx ∧ escapedChars fx ≠ []
      ∧ ¬ (("<" ∈ original fx) ∧ (">" ∈ original fx))
      ∧ isAutoSkipPattern strictMode (original fx) filePath (line (start path))
          (column (start path)) = None
  end.
Proof.
  intros [H|H].
  - unfold visitStringLiteral in H.
    destruct (negb (hasManaged (value path))); [done|].
    destruct (isReactPropValue path); [done|].
    apply visitText_Pushed in H as (-> & Hloc & Horig & H).
    split_and!; [done..|]. rewrite Horig.
    destruct (type fx); [done|]. tauto.
  - unfold visitJSXText in H.
    case_bool_decide; [done|].
    destruct (negb (hasManaged _)); [done|].
    apply visitText_Pushed in H as (-> & Hloc & Horig & H).
    split_and!; [done..|]. rewrite Horig.
    destruct (type fx); [done|]. tauto.
Qed.

Lemma visitors_push_real_fixes_witness :
  let path := {| value := js "a&b"; start := {| line := 1; column := 2 |};
                 parentType := None; ancestorType := None |} in
  let r := visitStringLiteral false demoPath demoText path demoState in
  ∃ fx, r = (Pushed fx, demoState) ∧ loc_start fx = start path ∧
        escapeString false (original fx) = RetObject (escaped fx) (escapedChars fx)
        ∧ escaped fx ≠ original fx ∧ escapedChars fx ≠ []
        ∧ ¬ (("<" ∈ original fx) ∧ (">" ∈ original fx))
        ∧ isAutoSkipPattern false (original fx) demoPath (line (start path))
            (column (start path)) = None.
Proof.
  intros path r.
  exists (literalFix 1 2 (js "a&b") (js "a&amp;b") ["&"]).
  assert (r = (Pushed (literalFix 1 2 (js "a&b") (js "a&amp;b") ["&"]), demoState))
    as Hr by (vm_compute; reflexivity).
  split; [exact Hr|].
  destruct (visitors_push_real_fixes false demoPath demoText path demoState demoState
              (literalFix 1 2 (js "a&b") (js "a&amp;b") ["&"]) (or_introl Hr))
    as (_ & Hloc & H).
  split; [exact Hloc|exact H].
Defined.

(** ** The context shown at a prompt *)

(** X12. The context that [getContextLines] builds has at most
    [2 * contextSize + 1] lines. Its entry number [k] is the line of the
    file with the number [n = max 1 (lineNumber - contextSize) + k], as
    long as [n] is at most [lineNumber + contextSize] and the file has
    such a line; the entry is the number, a colon, the marker for the line
    [lineNumber] and two spaces for the others, and the text of the line. *)
Theorem contextLines_window (gray : jsstring → jsstring) (marker fileContent : jsstring)
    (lineNumber contextSize : nat) :
  getContextLines gray marker fileContent lineNumber contextSize
  = Str.join LF (contextLines gray marker fileContent lineNumber contextSize)
  ∧ length (contextLines gray marker fileContent lineNumber contextSize)
    ≤ 2 * contextSize + 1
  ∧ ∀ k x,
      contextLines gray marker fileContent lineNumber contextSize !! k = Some x
      ↔ ∃ text,
          let n := Nat.max 1 (lineNumber - contextSize) + k in
          n ≤ lineNumber + contextSize
          ∧ lineAt (Str.split LF fileContent) n = Some text
          ∧ x = gray (js (pretty n)) ++ js ":"
                ++ (if bool_decide (n = lineNumber) then marker else js "  ") ++ text.
Proof.
  split; [done|]. unfold contextLines.
  set (lines := Str.split LF fileContent).
  set (startLine := lineNumber - contextSize - 1).
  set (stop := Nat.min (length lines) (lineNumber + contextSize)).
  split.
  - rewrite length_map, length_seq. unfold startLine, stop. lia.
  - intros k x. rewrite list_lookup_fmap.
    assert (Nat.max 1 (lineNumber - contextSize) + k = startLine + k + 1) as ->
      by (unfold startLine; lia).
    destruct (decide (k < stop - startLine)) as [Hk|Hk].
    + rewrite lookup_seq_lt by done. simpl.
      assert (startLine + k < length lines) as Hlt by (unfold stop in Hk; lia).
      destruct (lookup_lt_is_Some_2 lines (startLine + k) Hlt) as [text Htext].
      rewrite Htext. simpl.
      assert (lineAt lines (startLine + k + 1) = Some text) as Hline.
      { replace (startLine + k + 1) with (S (startLine + k)) by lia. done. }
      split.
      * intros [= <-]. exists text. split_and!; [unfold stop in Hk; lia|done|done].
      * intros (text' & _ & Hline' & ->). rewrite Hline in Hline'.
        by injection Hline' as <-.
    + rewrite lookup_seq_ge by lia. simpl. split; [done|].
      intros (text & Hn & Hline & _). exfalso.
      replace (startLine + k + 1) with (S (startLine + k)) in Hline by lia.
      simpl in Hline. apply lookup_lt_Some in Hline.
      unfold stop in Hk. lia.
Qed.

Example getContextLines_example :
  getContextLines (λ n, js "<" ++ n ++ js ">") (js "> ") demoText 2 0
  = js "<2>:> g('c&d');"
  ∧ getContextLines (λ n, n) (js "> ") demoText 1 1
    = js "1:> f('a&b');" ++ LF :: js "2:  g('c&d');"
  ∧ getContextLines (λ n, n) (js "> ") demoText 9 5 = [].
Proof. vm_compute. done. Qed.

(** ** The candidates made from the errors of the linter *)

Section LinterFacts.

Implicit Types (s original : jsstring).

Lemma EntityName_length name : EntityName name → 2 ≤ length name.
Proof.
  intros [Hn|(ds & -> & Hne & _)].
  - apply list_elem_of_In in Hn. simpl in Hn.
    destruct Hn as [<-|[<-|[<-|[<-|[<-|[]]]]]]; simpl; lia.
  - destruct ds; [done|]. simpl. lia.
Qed.

(** A text with an entity has four characters or more. *)
Lemma containsHtmlEntities_length s : containsHtmlEntities s = true → 4 ≤ length s.
Proof.
  intros (a & name & b & -> & Hn%EntityName_length)%containsHtmlEntities_EntityName.
  rewrite length_app. simpl. rewrite length_app. simpl. lia.
Qed.

Lemma substring_length s a b : a ≤ b → length (Str.substring s a b) ≤ b - a.
Proof. intros Hab. unfold Str.substring. rewrite length_take. lia. Qed.

Lemma replace_aposOrQuot s :
  fst (Str.replace quoteClass aposOrQuot s tt) = quotesReplaced s.
Proof.
  unfold quotesReplaced. induction s as [|c s IH]; simpl; [done|].
  destruct (Str.replace quoteClass aposOrQuot s tt) as [out []] eqn:Hrep.
  simpl in IH. subst out. unfold quoteClass.
  destruct (Ascii.eqb_spec c "'") as [->|Hne].
  - by rewrite orb_true_r.
  - rewrite orb_false_r. destruct (Ascii.eqb c dq) eqn:Hdq; [|done].
    simpl. by destruct (Ascii.eqb c "'").
Qed.

End LinterFacts.

(** X13. When every error names three characters or fewer, as the linter
    does, which names one, [convertEslintErrorsToFixes] makes one
    candidate for each error, in the order of the errors: the check for
    entities never leaves one out. The candidate stands at the line and
    column of the error, its text is the part of that line from the
    column on, as long as the name at most and empty when the file has no
    such line, and its escaped text is that text with the quotes replaced. *)
Theorem convertEslintErrorsToFixes_one_per_error (escapeErrors : list EscapeError)
    (fileContent : jsstring) :
  Forall (λ error, length (e_entity error) ≤ 3) escapeErrors →
  Forall2
    (λ error fx,
       type fx = fix_ ∧ isJsx fx = true
       ∧ loc_start fx = {| line := e_line error; column := e_column error |}
       ∧ original fx
         = Str.substring (default [] (lineAt (Str.split LF fileContent) (e_line error)))
             (e_column error - 1) (e_column error + length (e_entity error) - 1)
       ∧ length (original fx) ≤ length (e_entity error)
       ∧ escaped fx = quotesReplaced (original fx)
       ∧ rawValue fx = original fx)
    escapeErrors (convertEslintErrorsToFixes escapeErrors fileContent).
Proof.
  unfold convertEslintErrorsToFixes.
  induction 1 as [|error errors Hlen _ IH]; [constructor|].
  cbn [omap list_omap]. unfold convertEslintError at 1.
  set (original := Str.substring _ _ _).
  assert (length original ≤ length (e_entity error)) as Ho.
  { unfold original. etrans; [apply substring_length; lia|lia]. }
  destruct (containsHtmlEntities original) eqn:Hent.
  { apply containsHtmlEntities_length in Hent. lia. }
  constructor; [|exact IH]. cbn.
  split_and!; try done. apply replace_aposOrQuot.
Qed.

Lemma convertEslintErrorsToFixes_one_per_error_witness :
  Forall2
    (λ error fx,
       type fx = fix_ ∧ isJsx fx = true
       ∧ loc_start fx = {| line := e_line error; column := e_column error |}
       ∧ original fx
         = Str.substring (default [] (lineAt (Str.split LF (js "<p>it's</p>"))
                                        (e_line error)))
             (e_column error - 1) (e_column error + length (e_entity error) - 1)
       ∧ length (original fx) ≤ length (e_entity error)
       ∧ escaped fx = quotesReplaced (original fx)
       ∧ rawValue fx = original fx)
    [{| e_line := 1; e_column := 6; e_entity := js "'" |};
     {| e_line := 7; e_column := 1; e_entity := js ">" |}]
    (convertEslintErrorsToFixes
       [{| e_line := 1; e_column := 6; e_entity := js "'" |};
        {| e_line := 7; e_column := 1; e_entity := js ">" |}]
       (js "<p>it's</p>")).
Proof.
  apply convertEslintErrorsToFixes_one_per_error.
  repeat (apply Forall_cons; split); try apply Forall_nil_2; simpl; lia.
Defined.

(** The two candidates of the witness: the apostrophe, and an empty text
    for the error that no line of the file has. *)
Example convertEslintErrorsToFixes_example :
  (λ fx, (original fx, escaped fx)) <$>
    convertEslintErrorsToFixes
      [{| e_line := 1; e_column := 6; e_entity := js "'" |};
       {| e_line := 7; e_column := 1; e_entity := js ">" |}]
      (js "<p>it's</p>")
  = [(js "'", js "&apos;"); ([], [])].
Proof. reflexivity. Qed.

(** ** What the visitors of [lib/ast.js] push *)

Section LibAstFacts.

Implicit Types (s : jsstring).

Lemma quotesReplaced_absent s :
  ("'" ∉ s) → (dq ∉ s) → quotesReplaced s = s.
Proof.
  induction s as [|c s IH]; [done|].
  intros [Hc Ha]%not_elem_of_cons [Hc' Hq]%not_elem_of_cons.
  rewrite quotesReplaced_cons, IH by done.
  destruct (Ascii.eqb_spec c "'"); [congruence|].
  destruct (Ascii.eqb_spec c dq); [congruence|]. done.
Qed.

Lemma quotesOf_elem s c :
  c ∈ quotesOf s ↔ c ∈ s ∧ (c = "'" ∨ c = dq).
Proof.
  unfold quotesOf. rewrite Set_of_elem, list_elem_of_filter, quoteClass_cases. tauto.
Qed.

Lemma LibAst_visitText_Pushed fileContent isJsxText path orig raw fx :
  LibAst.visitText fileContent isJsxText path orig raw = Pushed fx →
  type fx = fix_ ∧ loc_start fx = start path ∧ original fx = orig
  ∧ isJsx fx = isJsxText
  ∧ escaped fx = quotesReplaced orig ∧ escaped fx ≠ orig
  ∧ escapedChars fx = quotesOf orig
  ∧ isSafeToEscapeInJsx orig
      (default [] (lineAt (Str.split LF fileContent) (line (start path)))) = true.
Proof.
  unfold LibAst.visitText.
  destruct (isSafeToEscapeInJsx _ _) eqn:Hsafe; [|done]. cbn [negb].
  case_bool_decide as Hsame; [done|]. intros [= <-]. cbn.
  rewrite replace_aposOrQuot in *. done.
Qed.

End LibAstFacts.

(** X14. What the two visitors of [findStringFixes] push: an entry for a
    fix at the start of the node, whose text holds an apostrophe or a
    double quote and does not hold both angle brackets; the escaped text
    is the text with its quotes replaced and nothing else, and the list of
    characters names exactly the quotes of the text. A text whose managed
    characters are ampersands or angle brackets gives no candidate. *)
Theorem LibAst_visitors_push_quotes (fileContent : jsstring) (path : NodePath)
    (fx : StringFix) :
  LibAst.visitStringLiteral fileContent path = Pushed fx
  ∨ LibAst.visitJSXText fileContent path = Pushed fx →
  type fx = fix_ ∧ loc_start fx = start path
  ∧ (("'" ∈ original fx) ∨ (dq ∈ original fx))
  ∧ ¬ (("<" ∈ original fx) ∧ (">" ∈ original fx))
  ∧ escaped fx = quotesReplaced (original fx)
  ∧ (∀ c, c ∈ escapedChars fx ↔ c ∈ original fx ∧ (c = "'" ∨ c = dq)).
Proof.
  intros H.
  assert (∃ isJsxText orig raw,
            LibAst.visitText fileContent isJsxText path orig raw = Pushed fx)
    as (isJsxText & orig & raw & Hv).
  { destruct H as [H|H].
    - unfold LibAst.visitStringLiteral in H.
      destruct (negb _); [done|]. destruct (isReactPropValue path); [done|].
      destruct (containsHtmlEntities _); [done|]. eauto.
    - unfold LibAst.visitJSXText in H.
      case_bool_decide; [done|]. destruct (negb _); [done|].
      destruct (containsHtmlEntities _); [done|]. eauto. }
  apply LibAst_visitText_Pushed
    in Hv as (Hty & Hloc & Ho & _ & Hesc & Hne & Hch & Hsafe).
  rewrite Ho. split_and!; [done|done| | |done|].
  - destruct (decide ("'" ∈ orig)) as [?|Ha]; [by left|].
    destruct (decide (dq ∈ orig)) as [?|Hq]; [by right|].
    exfalso. apply Hne. rewrite Hesc. by apply quotesReplaced_absent.
  - intros [Hlt Hgt]. unfold isSafeToEscapeInJsx in Hsafe.
    apply (includes_char orig "<") in Hlt. apply (includes_char orig ">") in Hgt.
    change (js "<") with ["<"] in Hsafe. change (js ">") with [">"] in Hsafe.
    by rewrite Hlt, Hgt in Hsafe.
  - intros c. rewrite Hch. apply quotesOf_elem.
Qed.

Lemma LibAst_visitors_push_quotes_witness :
  let path := {| value := js "it's"; start := {| line := 1; column := 4 |};
                 parentType := None; ancestorType := None |} in
  let fx := {| type := fix_; message := []; original := js "it's";
               escaped := js "it&apos;s"; escapedChars := ["'"];
               loc_start := {| line := 1; column := 4 |};
               isJsx := false; rawValue := [] |} in
  type fx = fix_ ∧ loc_start fx = start path
  ∧ (("'" ∈ original fx) ∨ (dq ∈ original fx))
  ∧ ¬ (("<" ∈ original fx) ∧ (">" ∈ original fx))
  ∧ escaped fx = quotesReplaced (original fx)
  ∧ (∀ c, c ∈ escapedChars fx ↔ c ∈ original fx ∧ (c = "'" ∨ c = dq)).
Proof.
  intros path fx.
  apply (LibAst_visitors_push_quotes (js "say('it's');") path fx).
  left. vm_compute. reflexivity.
Defined.

(** The visitors of [processFile] offer a text with an ampersand alone;
    those of [lib/ast.js] do not. *)
Example LibAst_leaves_ampersand :
  let path := {| value := js "a&b"; start := {| line := 1; column := 2 |};
                 parentType := None; ancestorType := None |} in
  LibAst.visitStringLiteral demoText path = Skipped NoEscapingNeeded
  ∧ (visitStringLiteral false demoPath demoText path demoState).1
    = Pushed (literalFix 1 2 (js "a&b") (js "a&amp;b") ["&"]).
Proof. vm_compute. done. Qed.

(** ** The rule for property values *)

Section SplitFacts.

Implicit Types (s l : jsstring) (sep : ascii).

Lemma split_cons sep c s :
  Str.split sep (c :: s)
  = if Ascii.eqb c sep then [] :: Str.split sep s
    else match Str.split sep s with
         | [] => [[c]]
         | l :: ls => (c :: l) :: ls
         end.
Proof. reflexivity. Qed.

Lemma split_not_nil sep s : Str.split sep s ≠ [].
Proof.
  destruct s as [|c s]; [done|]. rewrite split_cons.
  destruct (Ascii.eqb c sep); [done|]. by destruct (Str.split sep s).
Qed.

(** The characters of the lines are characters of the text. *)
Lemma split_elem sep s l c : l ∈ Str.split sep s → c ∈ l → c ∈ s.
Proof.
  revert l. induction s as [|d s IH]; intros l.
  - simpl. intros ->%list_elem_of_singleton. by intros ?%elem_of_nil.
  - rewrite split_cons. destruct (Ascii.eqb d sep).
    + intros [->|Hl]%elem_of_cons Hc; [by apply elem_of_nil in Hc|].
      right. by eapply IH.
    + destruct (Str.split sep s) as [|l0 ls] eqn:Hs.
      * intros ->%list_elem_of_singleton ->%list_elem_of_singleton. by left.
      * intros [->|Hl]%elem_of_cons Hc.
        -- apply elem_of_cons in Hc as [->|Hc]; [by left|].
           right. apply (IH l0); [by left|done].
        -- right. apply (IH l); [by right|done].
Qed.

(** A text without separator is one line. *)
Lemma split_one_line sep s : (sep ∉ s) → Str.split sep s = [s].
Proof.
  induction s as [|c s IH]; [done|].
  intros [Hc Hs]%not_elem_of_cons. rewrite split_cons, IH by done.
  destruct (Ascii.eqb_spec c sep); [congruence|done].
Qed.

End SplitFacts.

(** X15. The last rule of [isAutoSkipPattern], for property values, looks
    at the lines of the path it is given, not at a line of the file: it
    answers only when the path holds a colon or an equals sign, and, for
    a path on one line, only for a candidate on line 1. *)
Theorem property_value_rule_reads_path (strictMode : bool) (str filePath : jsstring)
    (line column : nat) :
  isAutoSkipPattern strictMode str filePath line column
  = Some (js "CSS property value") →
  ((":" ∈ filePath) ∨ ("=" ∈ filePath)) ∧ (line = 1 ∨ LF ∈ filePath).
Proof.
  unfold isAutoSkipPattern.
  repeat (match goal with
          | |- (if ?b then _ else _) = _ → _ => destruct b
          end; [by (intros H; vm_compute in H) |]).
  cbv zeta.
  destruct (lineAt (Str.split "010" filePath) line) as [l|] eqn:Hline; simpl.
  2:{ intros H. vm_compute in H. done. }
  match goal with
  | |- (if ?b then _ else _) = _ → _ => destruct b eqn:Hrule
  end; [intros _|done].
  apply andb_true_iff in Hrule as [[_ Hsep]%andb_true_iff _].
  assert (l ∈ Str.split LF filePath) as Hl.
  { destruct line as [|i]; [done|]. by eapply list_elem_of_lookup_2. }
  split.
  - apply orb_true_iff in Hsep as [H|H];
      [left; apply (includes_char l ":") in H
      |right; apply (includes_char l "=") in H];
      by eapply split_elem.
  - destruct (decide (LF ∈ filePath)) as [?|Hno]; [by right|left].
    pose proof (split_one_line LF filePath Hno) as Hs. unfold LF in Hs.
    rewrite Hs in Hline. by destruct line as [|[|i]].
Qed.

Lemma property_value_rule_reads_path_witness :
  ((":" ∈ js "css:x") ∨ ("=" ∈ js "css:x")) ∧ (1 = 1 ∨ LF ∈ js "css:x").
Proof.
  apply (property_value_rule_reads_path false (js "a-b") (js "css:x") 1 0).
  vm_compute. reflexivity.
Defined.

(** ** The lines of the file and the text written back *)

Section LineFacts.

Implicit Types (s l : jsstring) (ls : list jsstring) (sep : ascii).

Lemma join_cons sep l ls :
  ls ≠ [] → Str.join sep (l :: ls) = l ++ sep :: Str.join sep ls.
Proof. by destruct ls. Qed.

End LineFacts.

(** X16. The lines that [processFile] works on and the text it writes
    back fit together: joining the lines of a text with line feeds gives
    the text again, so lines that are not patched are written as they
    were read; the text has one line more than it has line feeds, and no
    line holds a line feed. *)
Theorem split_join_round_trip (fileContent : jsstring) :
  Str.join LF (Str.split LF fileContent) = fileContent
  ∧ length (Str.split LF fileContent) = S (countChar LF fileContent)
  ∧ Forall (λ l, LF ∉ l) (Str.split LF fileContent).
Proof.
  induction fileContent as [|c s (Hjoin & Hlen & Hlines)].
  { split_and!; [done|done|]. repeat constructor. apply not_elem_of_nil. }
  rewrite split_cons. simpl countChar.
  destruct (Ascii.eqb_spec c LF) as [->|Hne].
  - rewrite join_cons by apply split_not_nil. rewrite Hjoin.
    split_and!; [done|simpl; by rewrite Hlen|].
    constructor; [apply not_elem_of_nil|done].
  - destruct (Str.split LF s) as [|l ls] eqn:Hs; [by destruct (split_not_nil LF s)|].
    apply Forall_cons in Hlines as [Hl Hls].
    split_and!.
    + destruct ls as [|l' ls]; [simpl in *; by rewrite Hjoin|].
      rewrite join_cons by done. rewrite join_cons in Hjoin by done.
      by rewrite <- Hjoin.
    + exact Hlen.
    + constructor; [|done]. apply not_elem_of_cons. split; [congruence|done].
Qed.

(** ** Texts that are not safe to escape *)

Section SafeFacts.

Implicit Types (s seg : jsstring).

Lemma upToClosing_app seg rest :
  (">" ∉ seg) → upToClosing (seg ++ ">" :: rest) = Some seg.
Proof.
  induction seg as [|c seg IH]; [done|].
  intros [Hc Hseg]%not_elem_of_cons. simpl. rewrite IH by done.
  destruct (Ascii.eqb_spec c ">"); [congruence|done].
Qed.

Lemma upToClosing_spec s seg :
  upToClosing s = Some seg ↔ ∃ rest, s = seg ++ ">" :: rest ∧ (">" ∉ seg).
Proof.
  split; [|intros (rest & -> & Hseg); by apply upToClosing_app].
  revert seg. induction s as [|c s IH]; intros seg; simpl; [done|].
  destruct (Ascii.eqb_spec c ">") as [->|Hne].
  - intros [= <-]. exists s. split; [done|apply not_elem_of_nil].
  - destruct (upToClosing s) as [seg'|]; [|done].
    intros [= <-]. destruct (IH seg' eq_refl) as (rest & -> & Hseg').
    exists rest. split; [done|]. by apply not_elem_of_cons.
Qed.

Lemma tagPatternAt_spec s :
  tagPatternAt s = true
  ↔ ∃ m1 m2 b, s = "<" :: m1 ++ "'" :: m2 ++ ">" :: b ∧ (">" ∉ m1) ∧ (">" ∉ m2).
Proof.
  destruct s as [|c s]; simpl.
  { split; [done|]. by intros (? & ? & ? & ? & _). }
  rewrite andb_true_iff, Ascii.eqb_eq. split.
  - intros [-> H].
    destruct (upToClosing s) as [seg|] eqn:Hs; [|done].
    apply upToClosing_spec in Hs as (rest & -> & Hseg).
    apply (includes_char seg "'") in H.
    apply list_elem_of_split in H as (m1 & m2 & ->).
    exists m1, m2, rest. rewrite <- app_assoc. split; [done|].
    rewrite not_elem_of_app, not_elem_of_cons in Hseg. tauto.
  - intros (m1 & m2 & b & [= -> ->] & H1 & H2). split; [done|].
    assert (upToClosing (m1 ++ "'" :: m2 ++ ">" :: b) = Some (m1 ++ "'" :: m2)) as ->.
    { apply upToClosing_spec. exists b. rewrite <- app_assoc. split; [done|].
      rewrite not_elem_of_app, not_elem_of_cons. done. }
    apply (includes_char _ "'"). apply elem_of_app. right. by left.
Qed.

Lemma tagPattern_test_spec s : tagPattern_test s = true ↔ TagWithApostrophe s.
Proof.
  unfold TagWithApostrophe. induction s as [|c s IH].
  - simpl. split; [done|]. intros (a & ? & ? & ? & H & _). by destruct a.
  - cbn [tagPattern_test]. rewrite orb_true_iff, IH, tagPatternAt_spec. split.
    + intros [(m1 & m2 & b & -> & ?)|(a & m1 & m2 & b & -> & ?)].
      * by exists [], m1, m2, b.
      * by exists (c :: a), m1, m2, b.
    + intros ([|c' a] & m1 & m2 & b & H & ?); simpl in H.
      * left. by exists m1, m2, b.
      * right. injection H as -> ->. by exists a, m1, m2, b.
Qed.

Lemma TagWithApostrophe_brackets s :
  TagWithApostrophe s → ("<" ∈ s) ∧ (">" ∈ s).
Proof.
  intros (a & m1 & m2 & b & -> & _). split.
  - apply elem_of_app. right. by left.
  - apply elem_of_app. right. right. apply elem_of_app. right. right.
    apply elem_of_app. right. by left.
Qed.

End SafeFacts.

(** X17. A text is not safe to escape exactly when it holds both angle
    brackets, or its line holds a tag with an apostrophe in it: an opening
    bracket, then an apostrophe, then a closing bracket, with no closing
    bracket in between. The test of that pattern on the text itself adds
    nothing, since such a text holds both brackets. *)
Theorem isSafeToEscapeInJsx_spec (original line : jsstring) :
  isSafeToEscapeInJsx original line = false
  ↔ (("<" ∈ original) ∧ (">" ∈ original)) ∨ TagWithApostrophe line.
Proof.
  unfold isSafeToEscapeInJsx.
  change (js "<") with ["<"]. change (js ">") with [">"].
  destruct (Str.includes original ["<"] && Str.includes original [">"]) eqn:Hb.
  - apply andb_true_iff in Hb as [Hlt Hgt].
    apply (includes_char original) in Hlt. apply (includes_char original) in Hgt.
    split; [|done]. intros _. by left.
  - destruct (tagPattern_test original) eqn:Ho.
    { apply tagPattern_test_spec, TagWithApostrophe_brackets in Ho as [Hlt Hgt].
      apply (includes_char original) in Hlt. apply (includes_char original) in Hgt.
      by rewrite Hlt, Hgt in Hb. }
    destruct (tagPattern_test line) eqn:Hl; simpl.
    + apply tagPattern_test_spec in Hl. split; [|done]. intros _. by right.
    + split; [done|]. intros [[Hlt Hgt]|Ht].
      * apply (includes_char original) in Hlt. apply (includes_char original) in Hgt.
        by rewrite Hlt, Hgt in Hb.
      * apply tagPattern_test_spec in Ht. congruence.
Qed.

(** ** Writing with verification, and reading with the size check *)

(** X18. When [writeFileWithVerification] returns, it returns the length
    of the content, the file holds the content, and
    [readFileWithSizeCheck] gives the content back unless it is above the
    limit. Without a write of another program in between it always
    returns. *)
Theorem written_file_reads_back (filePath text : jsstring) (racing : option File)
    (st st' : State) (n : nat) (maxSize : N) :
  writeFileWithVerification filePath text racing st = (Some n, st') →
  n = length text
  ∧ readFileWithSizeCheck filePath maxSize st'
    = (if N.ltb maxSize (utf8Length text) then None else Some text)
  ∧ (fst (writeFileWithVerification filePath text None st) = Some (length text)).
Proof.
  intros H. split_and!.
  - by apply writeFileWithVerification_Some in H as [_ ->].
  - apply writeFileWithVerification_Some in H as [Hread _].
    unfold readFileWithSizeCheck. unfold readFileSync in Hread.
    destruct (disk st' !! filePath) as [f|]; [|done].
    simpl in Hread. injection Hread as ->. done.
  - unfold writeFileWithVerification, readFileSync, writeFileSync. simpl.
    rewrite lookup_insert_eq. simpl. by rewrite bool_decide_eq_true_2.
Qed.

Lemma written_file_reads_back_witness :
  4 = length (js "a'b;")
  ∧ readFileWithSizeCheck demoPath MAX_FILE_SIZE
      (writeFileWithVerification demoPath (js "a'b;") None demoState).2
    = (if N.ltb MAX_FILE_SIZE (utf8Length (js "a'b;")) then None else Some (js "a'b;"))
  ∧ (fst (writeFileWithVerification demoPath (js "a'b;") None demoState) = Some 4).
Proof.
  apply (written_file_reads_back demoPath (js "a'b;") None demoState).
  vm_compute. reflexivity.
Defined.

(** ** Runs that return early *)

Section EarlyFacts.

Implicit Types (st : State) (loc : Local).

Lemma promptLoop_writes_at_exit filePath fx fixKey inputs loc st :
  Forall (λ i, external i = None) inputs →
  match promptLoop filePath fx fixKey inputs loc st with
  | NextFix rest _ st' => disk st' = disk st ∧ Forall (λ i, external i = None) rest
  | Stop e _ st' => e ≠ Exited → disk st' = disk st
  end.
Proof.
  intros Hin. revert st.
  induction Hin as [|i rest Hi Hrest IH]; intros st; simpl; [done|].
  rewrite Hi. cbn [externalWrite].
  destruct (checkFileModification filePath st) as [modified st1] eqn:Hchk.
  apply checkFileModification_disk in Hchk.
  destruct (key i).
  - destruct modified; [done|].
    destruct (applyFix _ _ _) as [[[fl ch] ev] ctl]. by destruct ctl.
  - by destruct modified.
  - by destruct modified.
  - specialize (IH (say ShowedContext st)).
    by destruct (promptLoop _ _ _ rest loc _).
  - done.
Qed.

Lemma reviewFixes_writes_at_exit filePath fixes : ∀ inputs loc st,
  Forall (λ i, external i = None) inputs →
  (reviewFixes filePath fixes inputs loc st).1.1 ≠ Exited →
  disk (reviewFixes filePath fixes inputs loc st).2 = disk st.
Proof.
  induction fixes as [|fx rest IH]; intros inputs loc st Hin; simpl; [done|].
  destruct (type fx).
  - destruct (readFileSync st filePath); [|done].
    destruct Hin as [|i inputs' Hi Hin']; [done|].
    rewrite Hi. cbn [externalWrite].
    destruct (key i); try done;
      (intros He; by rewrite (IH inputs' loc _ Hin' He)).
  - set (fixKey := createFixKey _ _ _ _).
    destruct (isRejected st fixKey).
    + intros He. by rewrite (IH inputs loc _ Hin He).
    + pose proof (promptLoop_writes_at_exit filePath fx fixKey inputs loc
                    (say (Presented fixKey) st) Hin) as Hp.
      destruct (promptLoop _ _ _ inputs loc _) as [rest' loc' st'|e loc' st'].
      * destruct Hp as [Hd Hr]. intros He.
        by rewrite (IH rest' loc' st' Hr He), Hd.
      * simpl. intros He. by rewrite Hp.
Qed.

End EarlyFacts.

(** X19. The file is written only at the end of [processFile] or when the
    user leaves with [q]. A run that returns early, as it does at a
    text in markup whose line holds both angle brackets, or that still
    waits for a key, has written nothing, whatever was approved before. *)
Theorem early_return_writes_nothing (filePath : jsstring) (stringFixes : list StringFix)
    (inputs : list Input) (racing : option File) (st st' : State) (e : Exit) :
  Forall (λ i, external i = None) inputs →
  processFile filePath stringFixes inputs racing st = (e, st') →
  e = Returned ∨ e = Waiting →
  disk st' = disk st.
Proof.
  intros Hin. unfold processFile.
  destruct (disk st !! filePath) as [f|]; [|by intros [= _ <-]].
  destruct (N.ltb _ _); [by intros [= _ <-]|].
  destruct stringFixes as [|fx fixes]; [by intros [= _ <-]|].
  set (st1 := setFileModTimes _ st).
  set (loc := {| fileLines := _; changed := false |}).
  pose proof (reviewFixes_writes_at_exit filePath
                (Array_sort compareFixes (fx :: fixes)) inputs loc st1 Hin) as Hd.
  destruct (reviewFixes _ _ inputs loc st1) as [[e1 loc1] st2].
  simpl in Hd.
  destruct e1; intros [= <- <-] [?|?]; try done; by rewrite Hd.
Qed.

Lemma early_return_writes_nothing_witness :
  let text := js "<p>it's</p>" ++ LF :: js "f('a&b');" in
  let st := {| disk := {[ demoPath := {| content := text; mtimeMs := 100 |} ]};
               clock := 200; rejectedFixes := ∅; fileModTimes := ∅; wards := None;
               console := [] |} in
  let fixes := [ {| type := fix_; message := []; original := js "it's";
                    escaped := js "it&apos;s"; escapedChars := ["'"];
                    loc_start := {| line := 1; column := 3 |};
                    isJsx := true; rawValue := js "it's" |};
                 literalFix 2 2 (js "a&b") (js "a&amp;b") ["&"] ] in
  let r := processFile demoPath fixes [press KeyY; press KeyY] None st in
  disk r.2 = disk st.
Proof.
  intros text st fixes r.
  apply (early_return_writes_nothing demoPath fixes [press KeyY; press KeyY] None
           st r.2 r.1).
  - repeat constructor.
  - subst r. by destruct (processFile _ _ _ _ _).
  - left. vm_compute. reflexivity.
Defined.

(** The run of the witness: the fix of the literal is applied to the
    array, then the text in markup ends the run; the file is as it was. *)
Example early_return_drops_applied_fix :
  let text := js "<p>it's</p>" ++ LF :: js "f('a&b');" in
  let st := {| disk := {[ demoPath := {| content := text; mtimeMs := 100 |} ]};
               clock := 200; rejectedFixes := ∅; fileModTimes := ∅; wards := None;
               console := [] |} in
  let fixes := [ {| type := fix_; message := []; original := js "it's";
                    escaped := js "it&apos;s"; escapedChars := ["'"];
                    loc_start := {| line := 1; column := 3 |};
                    isJsx := true; rawValue := js "it's" |};
                 literalFix 2 2 (js "a&b") (js "a&amp;b") ["&"] ] in
  let r := processFile demoPath fixes [press KeyY; press KeyY] None st in
  r.1 = Returned
  ∧ console r.2
    = [Presented (js "a.js:2:2:a&b"); AppliedLiteral Replaced;
       Presented (js "a.js:1:3:it's"); SkippedJsxWithTags]
  ∧ readFileSync r.2 demoPath = Some text.
Proof. vm_compute. split_and!; reflexivity. Qed.

(** ** The branch for text in markup on one line *)

Section JsxLineFacts.

Implicit Types (s t pre post : jsstring).

(** The first place at which a token starts. *)
Lemma search_first t s i r :
  Str.search t s i = Some r →
  ∃ pre post, s = pre ++ t ++ post ∧ r = i + length pre
              ∧ ∀ pre' post', s = pre' ++ t ++ post' → length pre ≤ length pre'.
Proof.
  revert i. induction s as [|c s IH]; intros i; cbn [Str.search].
  - destruct (Str.startsWith [] t) eqn:Hst; [|done].
    apply startsWith_spec in Hst as [b Hb]. intros [= <-].
    exists [], b. split_and!; [done|simpl; lia|simpl; lia].
  - destruct (Str.startsWith (c :: s) t) eqn:Hst.
    + apply startsWith_spec in Hst as [b Hb]. intros [= <-].
      exists [], b. split_and!; [done|simpl; lia|simpl; lia].
    + intros (pre & post & -> & -> & Hmin)%IH.
      exists (c :: pre), post. split_and!; [done|simpl; lia|].
      intros [|c' pre'] post' H.
      * exfalso. simpl in H.
        assert (Str.startsWith (c :: pre ++ t ++ post) t = true) as Hst'
          by (apply startsWith_spec; by exists post').
        congruence.
      * injection H as _ H. simpl. apply Hmin in H. lia.
Qed.

Lemma search_None t s i : Str.search t s i = None → Str.includes s t = false.
Proof.
  revert i. induction s as [|c s IH]; intros i; cbn [Str.search Str.includes].
  - destruct (Str.startsWith [] t); [done|done].
  - destruct (Str.startsWith (c :: s) t); [done|]. simpl. apply IH.
Qed.

Lemma take_drop_middle_token pre t post :
  take (length pre) (pre ++ t ++ post) = pre
  ∧ drop (length pre + length t) (pre ++ t ++ post) = post.
Proof.
  split; [by rewrite take_app_length|].
  by rewrite app_assoc, <- length_app, drop_app_length.
Qed.

End JsxLineFacts.

(** X20. An approved candidate for text in markup on one line, whose line
    does not hold both angle brackets, is patched where its text first
    occurs in the line, whatever its column is, and with the quotes of the
    text replaced and nothing else, whatever its escaped text is: the
    other lines stay. When the line does not hold the text, nothing is
    changed. *)
Theorem jsx_line_patch_first_occurrence (fx : StringFix) (fileLines : list jsstring)
    (changed : bool) (targetLine : jsstring) :
  isJsx fx = true →
  (LF ∉ original fx) → (LF ∉ rawValue fx) →
  lineAt fileLines (line (loc_start fx)) = Some targetLine →
  ¬ (("<" ∈ targetLine) ∧ (">" ∈ targetLine)) →
  (∃ pre post,
     targetLine = pre ++ original fx ++ post
     ∧ (∀ pre' post', targetLine = pre' ++ original fx ++ post' →
                      length pre ≤ length pre')
     ∧ applyFix fx fileLines changed
       = (<[line (loc_start fx) - 1 := pre ++ quotesReplaced (original fx) ++ post]>
            fileLines, true, AppliedJsx true, GoOn))
  ∨ (Str.includes targetLine (original fx) = false
     ∧ applyFix fx fileLines changed = (fileLines, changed, AppliedJsx false, GoOn)).
Proof.
  intros Hjsx Ho Hr Hline Htags. unfold applyFix. rewrite Hjsx, Hline.
  apply (includes_char_false _ LF) in Ho. apply (includes_char_false _ LF) in Hr.
  rewrite Ho, Hr. cbn [orb].
  assert (Str.includes targetLine (js "<") && Str.includes targetLine (js ">") = false)
    as ->.
  { apply not_true_is_false. intros [Hlt Hgt]%andb_true_iff. apply Htags.
    split; by apply includes_char. }
  unfold Str.indexOf. rewrite Nat.min_0_l, drop_0.
  destruct (Str.search (original fx) targetLine 0) as [textIndex|] eqn:Hs.
  - left. apply search_first in Hs as (pre & post & -> & -> & Hmin).
    exists pre, post. split_and!; [done|done|].
    rewrite substring_take_drop by (rewrite ?length_app; lia).
    unfold Str.substring_from. rewrite Nat.sub_0_r, drop_0. simpl.
    destruct (take_drop_middle_token pre (original fx) post) as [-> ->].
    do 4 f_equal.
    assert (∀ s, (Str.replace quoteClass
                    (λ c (_ : unit),
                       (if Ascii.eqb c "'" then js "&apos;"
                        else if Ascii.eqb c dq then js "&quot;" else [c], tt)) s tt).1
                 = quotesReplaced s) as Hrep; [|by rewrite Hrep].
    intros s. induction s as [|c s IH]; [done|].
    rewrite quotesReplaced_cons. cbn [Str.replace].
    destruct (Str.replace _ _ s tt) as [out []]. simpl in IH. subst out.
    unfold quoteClass.
    destruct (Ascii.eqb_spec c "'") as [->|Hne]; [by rewrite orb_true_r|].
    rewrite orb_false_r. by destruct (Ascii.eqb c dq).
  - right. split; [by eapply search_None|done].
Qed.

Lemma jsx_line_patch_first_occurrence_witness :
  let fx := {| type := fix_; message := []; original := js "it's";
               escaped := js "unused"; escapedChars := ["'"];
               loc_start := {| line := 1; column := 9 |};
               isJsx := true; rawValue := js "it's" |} in
  let fileLines := [js "  it's so; it's"] in
  (∃ pre post,
     js "  it's so; it's" = pre ++ original fx ++ post
     ∧ (∀ pre' post', js "  it's so; it's" = pre' ++ original fx ++ post' →
                      length pre ≤ length pre')
     ∧ applyFix fx fileLines false
       = (<[line (loc_start fx) - 1 := pre ++ quotesReplaced (original fx) ++ post]>
            fileLines, true, AppliedJsx true, GoOn))
  ∨ (Str.includes (js "  it's so; it's") (original fx) = false
     ∧ applyFix fx fileLines false = (fileLines, false, AppliedJsx false, GoOn)).
Proof.
  intros fx fileLines.
  apply (jsx_line_patch_first_occurrence fx fileLines false (js "  it's so; it's")).
  - reflexivity.
  - intros H%list_elem_of_In. vm_compute in H. intuition discriminate.
  - intros H%list_elem_of_In. vm_compute in H. intuition discriminate.
  - reflexivity.
  - intros [H%list_elem_of_In _]. vm_compute in H. intuition discriminate.
Defined.

Example jsx_line_patch_example :
  let fx := {| type := fix_; message := []; original := js "it's";
               escaped := js "unused"; escapedChars := ["'"];
               loc_start := {| line := 1; column := 11 |};
               isJsx := true; rawValue := js "it's" |} in
  (applyFix fx [js "  it's so; it's"] false).1.1.1 = [js "  it&apos;s so; it's"].
Proof. reflexivity. Qed.

(** ** The branch for text in markup on several lines *)

Section MultiLineFacts.

Implicit Types (fileLines : list jsstring) (lines : list jsstring).

Lemma patchJsxLines_frame startLine lines : ∀ i fileLines changed fl' ch' ok,
  patchJsxLines lines i startLine fileLines changed = (fl', ch', ok) →
  length fl' = length fileLines
  ∧ (∀ L, L < startLine + i ∨ startLine + i + length lines ≤ L →
          lineAt fl' L = lineAt fileLines L)
  ∧ (∀ L s, lineAt fileLines L = Some s →
            lineAt fl' L = Some s ∨ lineAt fl' L = Some (escapeApostrophes s))
  ∧ (changed = true → ch' = true)
  ∧ (ch' = false → fl' = fileLines).
Proof.
  induction lines as [|l rest IH]; intros i fileLines changed fl' ch' ok.
  { simpl. intros [= <- <- <-]. split_and!; auto. }
  assert (∀ fl ch,
            patchJsxLines rest (S i) startLine fl ch = (fl', ch', ok) →
            length fl' = length fl
            ∧ (∀ L, L < startLine + S i ∨ startLine + i + length (l :: rest) ≤ L →
                    lineAt fl' L = lineAt fl L)
            ∧ (∀ L s, lineAt fl L = Some s →
                      lineAt fl' L = Some s ∨ lineAt fl' L = Some (escapeApostrophes s))
            ∧ (ch = true → ch' = true) ∧ (ch' = false → fl' = fl)) as IH'.
  { intros fl ch H. apply IH in H as (? & Hout & ? & ? & ?).
    split_and!; try done. intros L HL. apply Hout. simpl in HL. lia. }
  assert (patchJsxLines rest (S i) startLine fileLines changed = (fl', ch', ok) →
          length fl' = length fileLines
          ∧ (∀ L, L < startLine + i ∨ startLine + i + length (l :: rest) ≤ L →
                  lineAt fl' L = lineAt fileLines L)
          ∧ (∀ L s, lineAt fileLines L = Some s →
                    lineAt fl' L = Some s ∨ lineAt fl' L = Some (escapeApostrophes s))
          ∧ (changed = true → ch' = true) ∧ (ch' = false → fl' = fileLines)) as Hskip.
  { intros H. apply IH' in H as (? & Hout & ? & ? & ?).
    split_and!; try done. intros L HL. apply Hout. lia. }
  cbn [patchJsxLines]. case_bool_decide as Hempty; [exact Hskip|].
  destruct (lineAt fileLines (startLine + i)) as [fileLine|] eqn:Hline.
  2:{ intros [= <- <- <-]. split_and!; auto. }
  destruct fileLine as [|c fileLine].
  { intros [= <- <- <-]. split_and!; auto. }
  destruct (Str.includes _ (js "'")); [|exact Hskip].
  case_bool_decide as Hsame; [exact Hskip|].
  intros Hrun. apply IH' in Hrun as (Hlen & Hout & Hin & Htrue & _).
  pose proof (lineAt_Some_ne_0 _ _ _ Hline) as Hne0.
  split_and!.
  - by rewrite Hlen, length_insert.
  - intros L HL. simpl in HL, Hout. rewrite Hout by lia.
    apply lineAt_insert_ne; [done|lia].
  - intros L s Hs. destruct (decide (L = startLine + i)) as [->|HL].
    + rewrite Hline in Hs. injection Hs as <-. right.
      rewrite Hout by lia. by eapply lineAt_insert_eq.
    + apply Hin. by rewrite lineAt_insert_ne.
  - intros _. by apply Htrue.
  - intros Hf. by rewrite (Htrue eq_refl) in Hf.
Qed.

End MultiLineFacts.

(** X21. An approved candidate for text in markup on several lines keeps
    the number of lines and every line outside the lines of its raw
    value, and the review goes on. Each line of the array is left as it
    is or run through the apostrophe loop: nothing but apostrophes is
    replaced by this branch, whatever the escaped text of the candidate
    is. *)
Theorem jsx_multiline_frame (fx : StringFix) (fileLines fileLines' : list jsstring)
    (changed changed' : bool) (ev : Event) (ctl : Control) :
  isJsx fx = true →
  (LF ∈ original fx) ∨ (LF ∈ rawValue fx) →
  applyFix fx fileLines changed = (fileLines', changed', ev, ctl) →
  ctl = GoOn
  ∧ length fileLines' = length fileLines
  ∧ (∀ L, L < line (loc_start fx)
          ∨ line (loc_start fx) + length (Str.split LF (rawValue fx)) ≤ L →
          lineAt fileLines' L = lineAt fileLines L)
  ∧ (∀ L s, lineAt fileLines L = Some s →
            lineAt fileLines' L = Some s
            ∨ lineAt fileLines' L = Some (escapeApostrophes s)).
Proof.
  intros Hjsx Hlf. unfold applyFix. rewrite Hjsx.
  assert (Str.includes (original fx) [LF] || Str.includes (rawValue fx) [LF] = true)
    as ->.
  { apply orb_true_iff. destruct Hlf as [H|H]; [left|right]; by apply includes_char. }
  destruct (patchJsxLines _ 0 _ fileLines changed) as [[fl' ch'] ok] eqn:Hrun.
  intros [= <- <- <- <-].
  apply patchJsxLines_frame in Hrun as (Hlen & Hout & Hin & _ & _).
  split_and!; [done|done| |done].
  intros L HL. apply Hout. lia.
Qed.

Lemma jsx_multiline_frame_witness :
  let fx := {| type := fix_; message := []; original := js "it's" ++ LF :: js "Bob's";
               escaped := js "it&apos;s" ++ LF :: js "Bob&apos;s";
               escapedChars := ["'"]; loc_start := {| line := 2; column := 3 |};
               isJsx := true; rawValue := js "it's" ++ LF :: js "  Bob's" ++ [LF] |} in
  let fileLines := [js "<p>"; js "  it's"; js "  Bob's"; js "</p>"] in
  let r := applyFix fx fileLines false in
  r.2 = GoOn
  ∧ length r.1.1.1 = length fileLines
  ∧ (∀ L, L < line (loc_start fx)
          ∨ line (loc_start fx) + length (Str.split LF (rawValue fx)) ≤ L →
          lineAt r.1.1.1 L = lineAt fileLines L)
  ∧ (∀ L s, lineAt fileLines L = Some s →
            lineAt r.1.1.1 L = Some s
            ∨ lineAt r.1.1.1 L = Some (escapeApostrophes s)).
Proof.
  intros fx fileLines r.
  apply (jsx_multiline_frame fx fileLines r.1.1.1 false r.1.1.2 r.1.2 r.2).
  - reflexivity.
  - left. apply list_elem_of_In. vm_compute. tauto.
  - subst r. by destruct (applyFix _ _ _) as [[[??]?]?].
Defined.

Example jsx_multiline_example :
  let fx := {| type := fix_; message := []; original := js "it's" ++ LF :: js "Bob's";
               escaped := js "it&apos;s" ++ LF :: js "Bob&apos;s";
               escapedChars := ["'"]; loc_start := {| line := 2; column := 3 |};
               isJsx := true; rawValue := js "it's" ++ LF :: js "  Bob's" ++ [LF] |} in
  applyFix fx [js "<p>"; js "  it's"; js "  Bob's"; js "</p>"] false
  = ([js "<p>"; js "  it&apos;s"; js "  Bob&apos;s"; js "</p>"], true,
     AppliedJsx true, GoOn).
Proof. vm_compute. reflexivity. Qed.

(** ** The flag [changed] *)

Section ChangedFacts.

Implicit Types (st : State) (loc : Local).

Lemma FlagSound_refl loc : FlagSound loc loc.
Proof. by split_and!. Qed.

Lemma FlagSound_trans loc1 loc2 loc3 :
  FlagSound loc1 loc2 → FlagSound loc2 loc3 → FlagSound loc1 loc3.
Proof.
  intros (Hl1 & Ht1 & Hf1) (Hl2 & Ht2 & Hf2). split_and!.
  - by rewrite Hl2.
  - auto.
  - intros Hf. rewrite (Hf2 Hf). apply Hf1.
    destruct (changed loc2) eqn:Hc; [|done]. by rewrite (Ht2 eq_refl) in Hf.
Qed.

Lemma applyFix_FlagSound fx fl ch fl' ch' ev ctl :
  applyFix fx fl ch = (fl', ch', ev, ctl) →
  FlagSound {| fileLines := fl; changed := ch |} {| fileLines := fl'; changed := ch' |}.
Proof.
  unfold applyFix, FlagSound. cbn [fileLines changed].
  destruct (isJsx fx).
  - destruct (_ || _).
    + destruct (patchJsxLines _ 0 _ fl ch) as [[fl1 ch1] ok] eqn:Hrun.
      intros [= <- <- <- <-].
      apply patchJsxLines_frame in Hrun as (? & _ & _ & ? & ?). done.
    + destruct (lineAt fl _) as [targetLine|]; [|by intros [= <- <- <- <-]].
      destruct (_ && _); [by intros [= <- <- <- <-]|].
      destruct (Str.indexOf _ _ 0); intros [= <- <- <- <-]; [|done].
      split_and!; [apply length_insert|done|done].
  - destruct (applyLiteralFix fl fx) as [fl1 o] eqn:Happ.
    apply applyLiteralFix_cases in Happ as [[Ho ->]|(-> & pre & q & post & _ & _ & _ & _ & ->)].
    + destruct o; intros [= <- <- <- <-]; done.
    + intros [= <- <- <- <-]. split_and!; [apply length_insert|done|done].
Qed.

Lemma promptLoop_FlagSound filePath fx fixKey inputs loc st :
  match promptLoop filePath fx fixKey inputs loc st with
  | NextFix _ loc' _ | Stop _ loc' _ => FlagSound loc loc'
  end.
Proof.
  revert st. induction inputs as [|i rest IH]; intros st; simpl.
  - apply FlagSound_refl.
  - destruct (checkFileModification filePath _) as [modified st1].
    destruct (key i).
    + destruct modified; [apply FlagSound_refl|].
      destruct (applyFix fx (fileLines loc) (changed loc))
        as [[[fl ch] ev] ctl] eqn:Happ.
      apply applyFix_FlagSound in Happ. destruct loc. by destruct ctl.
    + destruct modified; apply FlagSound_refl.
    + destruct modified; apply FlagSound_refl.
    + apply IH.
    + apply FlagSound_refl.
Qed.

End ChangedFacts.

(** X22. The flag [changed] of the review loop never misses a change:
    whatever the candidates and the keys are, the array keeps its number
    of lines, a flag that is set stays set, and when the flag is not set
    at the end the array is the one the loop started with. So the
    write-back, which looks at the flag alone, is not left out after a
    patch. *)
Theorem changed_flag_sound (filePath : jsstring) (fixes : list StringFix)
    (inputs : list Input) (loc loc' : Local) (st st' : State) (e : Exit) :
  reviewFixes filePath fixes inputs loc st = (e, loc', st') →
  length (fileLines loc') = length (fileLines loc)
  ∧ (changed loc = true → changed loc' = true)
  ∧ (changed loc' = false → fileLines loc' = fileLines loc).
Proof.
  change (reviewFixes filePath fixes inputs loc st = (e, loc', st') → FlagSound loc loc').
  revert inputs loc st.
  induction fixes as [|fx rest IH]; intros inputs loc st; simpl.
  { intros [= _ <- _]. apply FlagSound_refl. }
  destruct (type fx).
  - destruct (readFileSync st filePath); [|intros [= _ <- _]; apply FlagSound_refl].
    destruct inputs as [|i inputs']; [intros [= _ <- _]; apply FlagSound_refl|].
    destruct (key i); try apply IH. intros [= _ <- _]. apply FlagSound_refl.
  - set (fixKey := createFixKey _ _ _ _).
    destruct (isRejected st fixKey); [apply IH|].
    pose proof (promptLoop_FlagSound filePath fx fixKey inputs loc
                  (say (Presented fixKey) st)) as Hp.
    destruct (promptLoop _ _ _ inputs loc _) as [rest' loc1 st1|e1 loc1 st1].
    + intros Hrun. eapply FlagSound_trans; [exact Hp|]. by eapply IH.
    + by intros [= _ <- _].
Qed.

Lemma changed_flag_sound_witness :
  let loc := {| fileLines := Str.split LF demoText; changed := false |} in
  let r := reviewFixes demoPath (Array_sort compareFixes demoFixes)
             [press KeyN; press KeyY; press KeyN] loc demoOpened in
  length (fileLines r.1.2) = length (fileLines loc)
  ∧ (changed loc = true → changed r.1.2 = true)
  ∧ (changed r.1.2 = false → fileLines r.1.2 = fileLines loc).
Proof.
  intros loc r.
  apply (changed_flag_sound demoPath (Array_sort compareFixes demoFixes)
           [press KeyN; press KeyY; press KeyN] loc r.1.2 demoOpened r.2 r.1.1).
  subst r. by destruct (reviewFixes _ _ _ _ _) as [[??]?].
Defined.

(** ** The checks on the text of the file *)

Section FileCheckFacts.

Implicit Types (s t l x : jsstring) (ls : list jsstring).

(** A line of the array is a part of the joined text. *)
Lemma join_includes_line sep ls l : l ∈ ls → ∃ a b, Str.join sep ls = a ++ l ++ b.
Proof.
  induction ls as [|l0 ls IH]; [by intros ?%elem_of_nil|].
  intros [->|Hl]%elem_of_cons.
  - destruct ls as [|l1 ls].
    + exists [], []. simpl. by rewrite app_nil_r.
    + exists [], (sep :: Str.join sep (l1 :: ls)). by rewrite join_cons.
  - destruct (IH Hl) as (a & b & Hj).
    destruct ls as [|l1 ls]; [by apply elem_of_nil in Hl|].
    exists (l0 ++ sep :: a), b. rewrite join_cons by done. rewrite Hj.
    by rewrite <- app_assoc.
Qed.

Lemma includes_part s a b x :
  Str.includes s x = true → Str.includes (a ++ s ++ b) x = true.
Proof. intros H. apply includes_app_r. by apply includes_app_l. Qed.

Lemma join_includes sep ls l x :
  l ∈ ls → Str.includes l x = true → Str.includes (Str.join sep ls) x = true.
Proof.
  intros (a & b & ->)%(join_includes_line sep). apply includes_part.
Qed.

(** A text with an entity in one of its parts has an entity. *)
Lemma containsHtmlEntities_part s a b :
  containsHtmlEntities s = true → containsHtmlEntities (a ++ s ++ b) = true.
Proof.
  rewrite !containsHtmlEntities_EntityName.
  intros (a' & name & b' & -> & Hn). exists (a ++ a'), name, (b' ++ b).
  split; [|done]. rewrite <- !app_assoc. simpl. do 3 f_equal.
  by rewrite <- app_assoc.
Qed.

Lemma trimStart_suffix s : ∃ a, s = a ++ Str.trimStart s.
Proof.
  induction s as [|c s [a Ha]]; simpl; [by exists []|].
  destruct (Str.isSpace c); [|by exists []].
  exists (c :: a). by rewrite <- app_comm_cons, <- Ha.
Qed.

(** The trimmed text is a part of the text. *)
Lemma trim_part s : ∃ a b, s = a ++ Str.trim s ++ b.
Proof.
  unfold Str.trim. destruct (trimStart_suffix s) as [a Ha].
  destruct (trimStart_suffix (rev (Str.trimStart s))) as [b Hb].
  exists a, (rev b). rewrite <- rev_app_distr, <- Hb, rev_involutive. exact Ha.
Qed.

Lemma slice_lookup {A} (ls : list A) a n i :
  i < n → slice ls a (a + n) !! i = ls !! (a + i).
Proof.
  intros Hi. unfold slice.
  replace (a + n - a) with n by lia.
  by rewrite lookup_take_lt, lookup_drop by done.
Qed.

End FileCheckFacts.

(** X23. For a text on several lines, and a line number from 1 on,
    [isAlreadyFixed] says yes exactly when the lines of the file that the
    text spans, joined, hold an entity: the loop over the single lines
    finds nothing that the test of the joined lines does not find. *)
Theorem isAlreadyFixed_multiline (fileContent : jsstring) (line column : nat)
    (original escaped : jsstring) :
  1 ≤ line →
  (LF ∈ original) →
  isAlreadyFixed fileContent line column original escaped
  = containsHtmlEntities
      (Str.join LF (slice (Str.split LF fileContent) (line - 1)
                      (line - 1 + length (Str.split LF original)))).
Proof.
  intros Hline Hlf. unfold isAlreadyFixed.
  apply (includes_char original LF) in Hlf. rewrite Hlf.
  set (fileLines := Str.split LF fileContent).
  set (n := length (Str.split LF original)).
  replace (sliceFromLine fileLines line n) with (slice fileLines (line - 1) (line - 1 + n))
    by (destruct line; [lia|]; simpl; by rewrite Nat.sub_0_r).
  destruct (existsb _ (seq 0 n)) eqn:Hex; [|done].
  apply existsb_exists in Hex as (i & Hi & Hfound). simpl. symmetry.
  apply in_seq in Hi.
  destruct (lineAt fileLines (line + i)) as [currentLine|] eqn:Hcur; [|done].
  apply andb_true_iff in Hfound as [_ Hent].
  assert (currentLine ∈ slice fileLines (line - 1) (line - 1 + n)) as Hin.
  { apply (list_elem_of_lookup_2 _ i). rewrite slice_lookup by lia.
    destruct line as [|k]; [lia|]. simpl in *.
    by rewrite Nat.sub_0_r. }
  destruct (join_includes_line LF _ _ Hin) as (a & b & ->).
  destruct (trim_part currentLine) as (a' & b' & Htrim).
  set (t := Str.trim currentLine) in *.
  replace (a ++ currentLine ++ b) with ((a ++ a') ++ t ++ (b' ++ b))
    by (rewrite Htrim; by rewrite <- !app_assoc).
  by apply containsHtmlEntities_part.
Qed.

Lemma isAlreadyFixed_multiline_witness :
  isAlreadyFixed (js "<p>" ++ LF :: js "  it&apos;s" ++ LF :: js "  Bob's" ++ LF :: js "</p>")
    2 3 (js "it's" ++ LF :: js "Bob's") (js "it&apos;s" ++ LF :: js "Bob&apos;s")
  = containsHtmlEntities
      (Str.join LF
         (slice (Str.split LF (js "<p>" ++ LF :: js "  it&apos;s" ++ LF :: js "  Bob's"
                               ++ LF :: js "</p>"))
            (2 - 1) (2 - 1 + length (Str.split LF (js "it's" ++ LF :: js "Bob's"))))).
Proof.
  apply isAlreadyFixed_multiline; [lia|].
  apply list_elem_of_In. vm_compute. tauto.
Defined.

(** X24. [checkRawFileContent] says yes exactly when the file can be read
    and has the line, the line holds one of the entities for the quotes
    and the angle brackets, and the text is empty or its escaped version,
    with quotes and angle brackets replaced and ampersands kept, occurs
    in the joined lines from the line before to the second line after.
    The search in the line itself adds nothing. *)
Theorem checkRawFileContent_window (read : option jsstring) (line column : nat)
    (original : jsstring) :
  checkRawFileContent read line column original = true
  ↔ ∃ fileContent lineContent,
      read = Some fileContent
      ∧ lineAt (Str.split LF fileContent) line = Some lineContent
      ∧ (Str.includes lineContent (js "&apos;") || Str.includes lineContent (js "&quot;")
         || Str.includes lineContent (js "&lt;") || Str.includes lineContent (js "&gt;")
         = true)
      ∧ (original = []
         ∨ Str.includes
             (Str.join LF
                (slice (Str.split LF fileContent) (line - 2)
                   (Nat.min (length (Str.split LF fileContent)) (line + 2))))
             (Str.replaceChar ">" (js "&gt;")
                (Str.replaceChar "<" (js "&lt;")
                   (Str.replaceChar dq (js "&quot;")
                      (Str.replaceChar "'" (js "&apos;") original)))) = true).
Proof.
  unfold checkRawFileContent.
  destruct read as [fileContent|]; [|split; [done|by intros (? & ? & ? & _)]].
  set (lines := Str.split LF fileContent).
  destruct (lineAt lines line) as [lineContent|] eqn:Hline.
  2:{ split; [done|]. intros (? & ? & [= <-] & Hl & _). fold lines in Hl. congruence. }
  set (ev := Str.replaceChar ">" _ _).
  set (surrounding := Str.join LF _).
  assert (Str.includes lineContent ev = true → Str.includes surrounding ev = true)
    as Hsub.
  { apply join_includes.
    destruct line as [|k]; [done|]. simpl in Hline.
    pose proof (lookup_lt_Some _ _ _ Hline) as Hlt.
    apply (list_elem_of_lookup_2 _ (k - (S k - 2))).
    unfold slice. rewrite lookup_take_lt by lia. rewrite lookup_drop.
    by replace (S k - 2 + (k - (S k - 2))) with k by lia. }
  destruct (_ || _) eqn:Hent.
  - destruct original as [|c original].
    + split; [|done]. intros _. exists fileContent, lineContent. auto.
    + split.
      * intros H. exists fileContent, lineContent. split_and!; [done..|]. right.
        destruct (Str.includes lineContent ev) eqn:Hl; [by apply Hsub|done].
      * intros (? & ? & [= <-] & Hl & _ & [?|Hs]); [done|].
        fold lines surrounding ev in Hs. rewrite Hs.
        by destruct (Str.includes lineContent ev).
  - split; [done|]. intros (? & ? & [= <-] & Hl & He & _).
    fold lines in Hl. rewrite Hline in Hl. injection Hl as <-. congruence.
Qed.

(** ** The exact match of the line window *)

(** X25. [isAlreadyEscapedInLineWindow] answers with a match of high
    confidence exactly when the text holds an apostrophe or a double
    quote, the file can be read, and a line of the file with a number
    from [lineNumber - 10] to [lineNumber + 10] holds the text with its
    quotes replaced by their entities; the reason is then the exact
    match. *)
Theorem window_exact_match_spec (readFileSync : jsstring → option jsstring)
    (filePath : jsstring) (lineNumber : nat) (originalString : jsstring) :
  ((∃ reason, isAlreadyEscapedInLineWindow readFileSync filePath lineNumber originalString
              = WMatched (js "high") reason)
   ↔ (("'" ∈ originalString) ∨ (dq ∈ originalString))
     ∧ ∃ fileContent n l,
         readFileSync filePath = Some fileContent
         ∧ lineNumber - 10 ≤ n ≤ lineNumber + 10
         ∧ lineAt (Str.split LF fileContent) n = Some l
         ∧ Str.includes l
             (Str.replaceChar dq (js "&quot;")
                (Str.replaceChar "'" (js "&apos;") originalString)) = true)
  ∧ ∀ reason,
      isAlreadyEscapedInLineWindow readFileSync filePath lineNumber originalString
      = WMatched (js "high") reason →
      reason = js "exact_match".
Proof.
  unfold isAlreadyEscapedInLineWindow.
  destruct (negb (Str.includes originalString (js "'"))
            && negb (Str.includes originalString [dq])) eqn:Hguard.
  { (* no quote: the guard answers *)
    split; [|done]. split; [by intros [? ?]|].
    apply andb_true_iff in Hguard as [H1 H2].
    apply negb_true_iff in H1, H2.
    apply (includes_char_false _ "'") in H1. apply (includes_char_false _ dq) in H2.
    by intros [[Hq|Hq] _]. }
  assert (("'" ∈ originalString) ∨ (dq ∈ originalString)) as Hquote.
  { apply andb_false_iff in Hguard as [H|H]; apply negb_false_iff in H;
      [left|right]; by apply includes_char. }
  destruct (readFileSync filePath) as [fileContent|].
  2:{ split; [|done]. split; [by intros [? ?]|].
      by intros (_ & ? & ? & ? & ? & _). }
  set (lines := Str.split LF fileContent).
  set (escapedString := Str.replaceChar dq _ _).
  destruct (existsb _ _) eqn:Hex.
  - (* a line of the window holds the escaped text *)
    split; [|by intros reason [= <-]].
    split; [intros _|by eexists].
    split; [done|].
    apply existsb_exists in Hex as (l & Hl & Hinc).
    apply list_elem_of_In, list_elem_of_lookup in Hl as [i Hi].
    unfold slice in Hi. apply lookup_take_Some in Hi as [Hi Hlt].
    rewrite lookup_drop in Hi.
    exists fileContent, (S (lineNumber - 11 + i)), l.
    split_and!; [done|lia|lia|done|done].
  - (* no line of the window holds it: no match of high confidence *)
    assert (∀ r : WindowCheck,
              (r = WMatched (js "medium") (js "content_similarity")
               ∨ r = WMatched (js "medium") (js "context_pattern")
               ∨ r = WNotMatched) →
              ∀ reason, r ≠ WMatched (js "high") reason) as Hnot.
    { intros r [-> |[-> | ->]] reason H; try discriminate H;
        injection H as H _; vm_compute in H; discriminate H. }
    match goal with
    | |- context [∀ reason, ?r = _ → _] =>
        assert (∀ reason, r ≠ WMatched (js "high") reason) as Hr
    end.
    { apply Hnot.
      repeat match goal with
             | |- context [if ?b then _ else _] => destruct b
             end; auto. }
    split; [|intros reason H; by destruct (Hr reason)].
    split; [intros [reason H]; by destruct (Hr reason)|].
    intros (_ & fc & n & l & [= <-] & Hn & Hline & Hinc). exfalso.
    fold lines in Hline.
    apply not_true_iff_false in Hex. apply Hex.
    apply existsb_exists. exists l. split; [|exact Hinc].
    apply list_elem_of_In.
    destruct n as [|k]; [done|]. simpl in Hline.
    pose proof (lookup_lt_Some _ _ _ Hline) as Hlt.
    apply (list_elem_of_lookup_2 _ (k - (lineNumber - 11))).
    unfold slice. rewrite lookup_take_lt by lia. rewrite lookup_drop.
    by replace (lineNumber - 11 + (k - (lineNumber - 11))) with k by lia.
Qed.

Example window_exact_match_far :
  let readFileSync := λ _ : jsstring,
        Some (js "it&apos;s" ++ replicate 11 LF ++ js "x") in
  isAlreadyEscapedInLineWindow readFileSync demoPath 11 (js "it's")
  = WMatched (js "high") (js "exact_match")
  ∧ isAlreadyEscapedInLineWindow readFileSync demoPath 12 (js "it's") = WNotMatched.
Proof. vm_compute. done. Qed.

(** ** The traversal in strict mode *)

Section StrictFacts.

Lemma visitText_strict filePath fileContent isJsxText path orig raw st v st' :
  visitText true filePath fileContent isJsxText path orig raw st = (v, st') →
  st' = st ∧ v ≠ Skipped AutoSkip ∧ v ≠ Skipped LikelyEscaped.
Proof.
  unfold visitText, isAutoSkipPattern. intros H.
  repeat (case_match; simplify_eq); done.
Qed.

End StrictFacts.

(** X26. In strict mode the two visitors of [processFile] skip nothing on
    the ground of a pattern or of a likely match: no visit ends as an
    auto-skip or as a skip of likely escaped content, and the traversal
    leaves the state, and with it the rejection memory, as it is. *)
Theorem strict_mode_never_auto_skips (filePath fileContent : jsstring) (path : NodePath)
    (st st' : State) (v : Visit) :
  visitStringLiteral true filePath fileContent path st = (v, st')
  ∨ visitJSXText true filePath fileContent path st = (v, st') →
  st' = st ∧ v ≠ Skipped AutoSkip ∧ v ≠ Skipped LikelyEscaped.
Proof.
  intros [H|H].
  - unfold visitStringLiteral in H.
    destruct (negb (hasManaged (value path))); [by simplify_eq|].
    destruct (isReactPropValue path); [by simplify_eq|].
    by eapply visitText_strict.
  - unfold visitJSXText in H.
    case_bool_decide; [by simplify_eq|].
    destruct (negb (hasManaged _)); [by simplify_eq|].
    by eapply visitText_strict.
Qed.

Lemma strict_mode_never_auto_skips_witness :
  let path := {| value := js "& filter=active"; start := {| line := 1; column := 2 |};
                 parentType := None; ancestorType := None |} in
  let r := visitStringLiteral true demoPath (js "f('& filter=active');") path demoState in
  r.2 = demoState ∧ r.1 ≠ Skipped AutoSkip ∧ r.1 ≠ Skipped LikelyEscaped.
Proof.
  intros path r.
  apply (strict_mode_never_auto_skips demoPath (js "f('& filter=active');") path).
  left. subst r. by destruct (visitStringLiteral _ _ _ _ _).
Defined.

(** The same text is left out and stored outside strict mode, and offered
    in strict mode. *)
Example strict_mode_offers_selector :
  let path := {| value := js "& filter=active"; start := {| line := 1; column := 2 |};
                 parentType := None; ancestorType := None |} in
  (visitStringLiteral false demoPath (js "f('& filter=active');") path demoState).1
  = Skipped AutoSkip
  ∧ (visitStringLiteral true demoPath (js "f('& filter=active');") path demoState).1
    = Pushed (literalFix 1 2 (js "& filter=active") (js "&amp; filter=active") ["&"]).
Proof. vm_compute. done. Qed.

(** ** Texts that hold an entity are not offered *)

Section OfferedFacts.

(** An object of [escapeString] that names a character holds a
    recognised entity. *)
Lemma escapeString_object_entity strictMode (T escaped : jsstring) (chars : list ascii) :
  escapeString strictMode T = RetObject escaped chars →
  chars ≠ [] →
  containsHtmlEntities escaped = true.
Proof.
  intros (cls & Hcls & -> & ->)%escapeString_object_class Hne.
  destruct (filter (λ c, cls c = true) T) as [|c l] eqn:Hf; [done|].
  assert (c ∈ filter (λ c, cls c = true) T) as Hc by (rewrite Hf; by left).
  apply list_elem_of_filter in Hc as [Hcls' Hin].
  apply (entity_recognised c); [by apply Hcls|].
  by apply escapeWith_includes.
Qed.

Lemma visitText_entity strictMode filePath fileContent isJsxText path orig raw st v st' :
  containsHtmlEntities orig = true →
  visitText strictMode filePath fileContent isJsxText path orig raw st = (v, st') →
  match v with
  | Pushed fx => type fx = information
  | Skipped _ => True
  end.
Proof.
  intros Hent. unfold visitText.
  rewrite (escapeString_entities strictMode orig Hent).
  intros H. repeat (case_match; simplify_eq); done.
Qed.

End OfferedFacts.

(** X27. A node whose text holds an entity is never offered for a fix, in
    either mode and whatever the file holds: the visitors of [processFile]
    leave it out or, in strict mode, push an entry for information. This
    holds for every text that [escapeString] has made and in which it has
    replaced a character, so a literal that was fixed is not offered
    again. *)
Theorem text_with_entity_not_offered (strictMode : bool) (filePath fileContent : jsstring)
    (path : NodePath) (st st' : State) (v : Visit) :
  containsHtmlEntities (value path) = true
  ∨ (∃ T chars, escapeString strictMode T = RetObject (value path) chars ∧ chars ≠ []) →
  visitStringLiteral strictMode filePath fileContent path st = (v, st')
  ∨ visitJSXText strictMode filePath fileContent path st = (v, st') →
  match v with
  | Pushed fx => type fx = information
  | Skipped _ => True
  end.
Proof.
  intros Hent Hvisit.
  assert (containsHtmlEntities (value path) = true) as Hent'.
  { destruct Hent as [?|(T & chars & Hesc & Hne)]; [done|].
    by eapply escapeString_object_entity. }
  clear Hent. destruct Hvisit as [H|H].
  - unfold visitStringLiteral in H.
    destruct (negb (hasManaged (value path))); [by simplify_eq|].
    destruct (isReactPropValue path); [by simplify_eq|].
    by eapply visitText_entity.
  - unfold visitJSXText in H.
    case_bool_decide; [by simplify_eq|].
    destruct (negb (hasManaged _)); [by simplify_eq|].
    revert H. unfold visitText. rewrite Hent'.
    intros H. repeat (case_match; simplify_eq); done.
Qed.

Lemma text_with_entity_not_offered_witness :
  let path := {| value := js "He said it's all &amp; done";
                 start := {| line := 1; column := 3 |};
                 parentType := None; ancestorType := None |} in
  let text := js "<p>He said it&apos;s all &amp</p>" in
  let st := {| disk := {[ demoPath := {| content := text; mtimeMs := 100 |} ]};
               clock := 200; rejectedFixes := ∅; fileModTimes := ∅; wards := None;
               console := [] |} in
  match (visitJSXText true demoPath text path st).1 with
  | Pushed fx => type fx = information
  | Skipped _ => True
  end.
Proof.
  intros path text st.
  apply (text_with_entity_not_offered true demoPath text path st
           (visitJSXText true demoPath text path st).2).
  - left. vm_compute. reflexivity.
  - right. by destruct (visitJSXText _ _ _ _ _).
Defined.

(** The visit of the witness: in strict mode the near match of the line
    window gives an entry for information. *)
Example text_with_entity_information :
  let path := {| value := js "He said it's all &amp; done";
                 start := {| line := 1; column := 3 |};
                 parentType := None; ancestorType := None |} in
  let text := js "<p>He said it&apos;s all &amp</p>" in
  let st := {| disk := {[ demoPath := {| content := text; mtimeMs := 100 |} ]};
               clock := 200; rejectedFixes := ∅; fileModTimes := ∅; wards := None;
               console := [] |} in
  ∃ fx, (visitJSXText true demoPath text path st).1 = Pushed fx
        ∧ type fx = information
        ∧ (visitJSXText false demoPath text path st).1 = Skipped LikelyEscaped.
Proof. eexists. vm_compute. split_and!; reflexivity. Qed.
